(** * A shallow embedding of the chess rules engine

    The development follows the TypeScript source class by class:
    [Position], [Move], the piece classes with their move generators,
    [Board] and [ChessGame].

    Conventions of the embedding:
    - a JavaScript [number] that the engine handles is an integer or [NaN]
      (the only non-integer the code itself can produce, through [parseInt]);
    - a string is the list of its UTF-16 code units;
    - [Piece] objects are mutable and shared by reference: they live in a
      store ([Heap]) and a board square holds a reference into it;
    - a [Board] is threaded through as a value; its arrays are never shared
      between two boards (the source copies them with spread syntax);
    - a thrown exception is a result of its own, and it carries the state
      reached when it was thrown. *)

From Stdlib Require Import ZArith List Bool Lia String Ascii DecimalString.
From stdpp Require Import base list.

Import ListNotations.
Local Open Scope Z_scope.

(** ** JavaScript numbers *)

Inductive JsNum : Type :=
| NaN
| Num (z : Z).

Coercion Num : Z >-> JsNum.

Definition jadd (a b : JsNum) : JsNum :=
  match a, b with Num x, Num y => Num (x + y) | _, _ => NaN end.
Definition jsub (a b : JsNum) : JsNum :=
  match a, b with Num x, Num y => Num (x - y) | _, _ => NaN end.
Definition jmul (a b : JsNum) : JsNum :=
  match a, b with Num x, Num y => Num (x * y) | _, _ => NaN end.
Definition jabs (a : JsNum) : JsNum :=
  match a with Num x => Num (Z.abs x) | NaN => NaN end.
(** [Math.floor(a / 2)] *)
Definition jhalf (a : JsNum) : JsNum :=
  match a with Num x => Num (x / 2) | NaN => NaN end.

(** Comparisons with [NaN] are all false, strict equality included. *)
Definition jlt (a b : JsNum) : bool :=
  match a, b with Num x, Num y => x <? y | _, _ => false end.
Definition jle (a b : JsNum) : bool :=
  match a, b with Num x, Num y => x <=? y | _, _ => false end.
Definition jgt (a b : JsNum) : bool := jlt b a.
Definition jge (a b : JsNum) : bool := jle b a.
Definition jseq (a b : JsNum) : bool :=
  match a, b with Num x, Num y => x =? y | _, _ => false end.

(** ** Exceptions and results *)

Inductive Exn : Type :=
| InvalidPosition            (* Error: Invalid position *)
| InvalidNotation            (* Error: Invalid algebraic notation *)
| NoPieceAtSource            (* Error: no piece at source position *)
| NoKingForCastling
| NoRookKingside
| NoRookQueenside
| NoPawnForEnPassant
| TypeError                  (* reading a property of undefined *)
| RangeError.                (* maximum call stack size exceeded *)

Inductive Res (A : Type) : Type :=
| Ok (a : A)
| Throw (e : Exn).
Arguments Ok {A} a.
Arguments Throw {A} e.

Definition rbind {A B} (r : Res A) (k : A -> Res B) : Res B :=
  match r with Ok a => k a | Throw e => Throw e end.

Notation "'let*' x ':=' c 'in' k" := (rbind c (fun x => k))
  (at level 10, x name, c at level 100, k at level 200).

(** Results of a [forEach] whose body pushes onto one array, in order. *)
Fixpoint collect {A B} (f : A -> Res (list B)) (l : list A) : Res (list B) :=
  match l with
  | [] => Ok []
  | x :: l' =>
      let* here := f x in
      let* rest := collect f l' in
      Ok (here ++ rest)
  end.

(** ** Enums *)

Inductive PieceType : Type := PAWN | ROOK | KNIGHT | BISHOP | QUEEN | KING.
Inductive Color : Type := WHITE | BLACK.
Inductive GameState : Type := ONGOING | CHECK | CHECKMATE | STALEMATE | DRAW.

Definition PieceType_eqb (a b : PieceType) : bool :=
  match a, b with
  | PAWN, PAWN | ROOK, ROOK | KNIGHT, KNIGHT
  | BISHOP, BISHOP | QUEEN, QUEEN | KING, KING => true
  | _, _ => false
  end.
Definition Color_eqb (a b : Color) : bool :=
  match a, b with WHITE, WHITE | BLACK, BLACK => true | _, _ => false end.
Definition GameState_eqb (a b : GameState) : bool :=
  match a, b with
  | ONGOING, ONGOING | CHECK, CHECK | CHECKMATE, CHECKMATE
  | STALEMATE, STALEMATE | DRAW, DRAW => true
  | _, _ => false
  end.

(** ** Position *)

Record Position : Type := mkPosition { row : JsNum; col : JsNum }.

(** [new Position(row, col)] *)
Definition Position_new (r c : JsNum) : Res Position :=
  if jlt r 0 || jgt r 7 || jlt c 0 || jgt c 7
  then Throw InvalidPosition
  else Ok (mkPosition r c).

Definition Position_equals (a b : Position) : bool :=
  jseq (row a) (row b) && jseq (col a) (col b).

(** Squares an integer-valued [Position] object can denote. *)
Definition validPos (p : Position) : Prop :=
  exists r c, p = mkPosition (Num r) (Num c) /\ 0 <= r <= 7 /\ 0 <= c <= 7.

(** *** Strings and the two conversions *)

Definition JsString : Type := list Z.

(** Code units of an ASCII literal. *)
Fixpoint str (s : string) : JsString :=
  match s with
  | EmptyString => []
  | String a s' => Z.of_N (N_of_ascii a) :: str s'
  end.

(** [String.fromCharCode(n)]: one code unit, [ToUint16] of the argument. *)
Definition fromCharCode (n : JsNum) : JsString :=
  match n with NaN => [0] | Num z => [z mod 65536] end.

(** [String(n)] for the numbers of this model. *)
Definition numberToString (n : JsNum) : JsString :=
  match n with
  | NaN => str "NaN"
  | Num z => str (NilZero.string_of_int (Z.to_int z))
  end.

Definition isWhiteSpace (c : Z) : bool :=
  existsb (Z.eqb c)
    [9; 10; 11; 12; 13; 32; 160; 5760; 8232; 8233; 8239; 8287; 12288; 65279]
  || ((8192 <=? c) && (c <=? 8202)).

Definition isDigit (c : Z) : bool := (48 <=? c) && (c <=? 57).

Fixpoint skipWhiteSpace (s : JsString) : JsString :=
  match s with
  | c :: s' => if isWhiteSpace c then skipWhiteSpace s' else s
  | [] => []
  end.

(** Value of the longest prefix of decimal digits, [None] when it is empty. *)
Fixpoint digitsPrefix (acc : option Z) (s : JsString) : option Z :=
  match s with
  | c :: s' =>
      if isDigit c
      then digitsPrefix (Some (match acc with Some a => 10 * a | None => 0 end + (c - 48))) s'
      else acc
  | [] => acc
  end.

(** [parseInt(s, 10)] *)
Definition parseInt10 (s : JsString) : JsNum :=
  let s1 := skipWhiteSpace s in
  let '(sign, s2) :=
    match s1 with
    | 45 :: t => (-1, t)
    | 43 :: t => (1, t)
    | _ => (1, s1)
    end in
  match digitsPrefix None s2 with
  | Some v => Num (sign * v)
  | None => NaN
  end.

(** [s.charCodeAt(i)]: [NaN] past the end. *)
Definition charCodeAt (s : JsString) (i : nat) : JsNum :=
  match s !! i with Some c => Num c | None => NaN end.

(** [s[i]]: a one-unit string ([undefined] past the end, which
    [parseInt] reads as the text "undefined"). *)
Definition charAt (s : JsString) (i : nat) : JsString :=
  match s !! i with Some c => [c] | None => str "undefined" end.

Definition toAlgebraic (p : Position) : JsString :=
  fromCharCode (jadd 97 (col p)) ++ numberToString (jsub 8 (row p)).

Definition fromAlgebraic (notation : JsString) : Res Position :=
  if negb (Nat.eqb (length notation) 2) then Throw InvalidNotation
  else
    let c := jsub (charCodeAt notation 0) 97 in
    let r := jsub 8 (parseInt10 (charAt notation 1)) in
    Position_new r c.

(** ** Move *)

Record Move : Type := mkMove {
  fromPos : Position;
  toPos : Position;
  promotionPiece : option PieceType;     (* [None] is [undefined] *)
  isCastling : bool;
  isEnPassant : bool
}.

(** [a === b] on [PieceType | undefined] *)
Definition promotion_seq (a b : option PieceType) : bool :=
  match a, b with
  | None, None => true
  | Some x, Some y => PieceType_eqb x y
  | _, _ => false
  end.

Definition Move_equals (this other : Move) : bool :=
  Position_equals (fromPos this) (fromPos other)
  && Position_equals (toPos this) (toPos other)
  && promotion_seq (promotionPiece this) (promotionPiece other)
  && Bool.eqb (isCastling this) (isCastling other)
  && Bool.eqb (isEnPassant this) (isEnPassant other).

Definition plainMove (f t : Position) : Move := mkMove f t None false false.

(** The string values of the [PieceType] enum. *)
Definition PieceType_name (pt : PieceType) : JsString :=
  match pt with
  | PAWN => str "Pawn"
  | ROOK => str "Rook"
  | KNIGHT => str "Knight"
  | BISHOP => str "Bishop"
  | QUEEN => str "Queen"
  | KING => str "King"
  end.

(** [move.toString()]: the two squares, then [=] and the first letter of the
    promotion piece's name when there is one. *)
Definition Move_toString (m : Move) : JsString :=
  toAlgebraic (fromPos m) ++ toAlgebraic (toPos m)
  ++ match promotionPiece m with
     | Some pt => str "=" ++ charAt (PieceType_name pt) 0
     | None => []
     end.

(** ** Pieces and the store they live in *)

(** The class of a piece object is fixed by its constructor, which also
    fixes [pieceType]: [instanceof Rook] is [pieceType = ROOK]. *)
Record Piece : Type := mkPiece {
  color : Color;
  pieceType : PieceType;
  hasMoved : bool
}.

Abbreviation Ref := nat.
Abbreviation Heap := (list Piece).

(** Reading through a reference. A reference is only ever obtained from an
    allocation, so the [None] case does not arise in a run of the program;
    the model reads it as a [TypeError]. *)
Definition deref (h : Heap) (r : Ref) : Res Piece :=
  match h !! r with Some p => Ok p | None => Throw TypeError end.

Definition alloc (p : Piece) (h : Heap) : Ref * Heap := (length h, h ++ [p]).

(** [PieceFactory.createPiece]: a new object with [hasMoved = false]. *)
Definition createPiece (pt : PieceType) (c : Color) (h : Heap) : Ref * Heap :=
  alloc (mkPiece c pt false) h.

(** [piece.toString()]: [W] or [B], then the first letter of the name of
    the piece's type. *)
Definition Piece_toString (p : Piece) : JsString :=
  (match color p with WHITE => str "W" | BLACK => str "B" end)
  ++ charAt (PieceType_name (pieceType p)) 0.

(** [piece.markAsMoved()] *)
Definition markAsMoved (r : Ref) (h : Heap) : Heap :=
  match h !! r with
  | Some p => <[r := mkPiece (color p) (pieceType p) true]> h
  | None => h
  end.

(** ** Board: data and accessors *)

Record Board : Type := mkBoard {
  _board : list (list (option Ref));
  _moveHistory : list Move;
  _capturedPieces : list Ref;
  _enPassantTarget : option Position;
  _halfMoveClock : Z;
  _fullMoveNumber : Z
}.

(** [a[i]] on an array: [None] is [undefined]. *)
Definition arrayGet {A} (a : list A) (i : JsNum) : option A :=
  match i with
  | Num z => if 0 <=? z then a !! Z.to_nat z else None
  | NaN => None
  end.

(** [a[i] = x] for an index inside the array; a write at any other key
    lands on a property that is none of the array's existing cells. *)
Definition arraySet {A} (a : list A) (i : JsNum) (x : A) : list A :=
  match i with
  | Num z => if 0 <=? z then <[Z.to_nat z := x]> a else a
  | NaN => a
  end.

(** [this._board[r][c]]: a missing row makes the second index throw. *)
Definition cell (b : Board) (r c : JsNum) : Res (option Ref) :=
  match arrayGet (_board b) r with
  | None => Throw TypeError
  | Some cells =>
      Ok (match arrayGet cells c with Some x => x | None => None end)
  end.

Definition getPiece (b : Board) (position : Position) : Res (option Ref) :=
  cell b (row position) (col position).

Definition withGrid (b : Board) (g : list (list (option Ref))) : Board :=
  mkBoard g (_moveHistory b) (_capturedPieces b) (_enPassantTarget b)
          (_halfMoveClock b) (_fullMoveNumber b).

Definition setPiece (b : Board) (position : Position) (piece : option Ref)
  : Res Board :=
  match arrayGet (_board b) (row position) with
  | None => Throw TypeError
  | Some cells =>
      Ok (withGrid b
            (arraySet (_board b) (row position)
                      (arraySet cells (col position) piece)))
  end.

(** ** Move generation *)

Definition promotionPieces : list PieceType := [QUEEN; ROOK; BISHOP; KNIGHT].

Definition promotionMoves (f t : Position) : list Move :=
  map (fun pt => mkMove f t (Some pt) false false) promotionPieces.

Definition canEnPassant (h : Heap) (b : Board) (fromP toP : Position)
  : Res bool :=
  match _enPassantTarget b with
  | None => Ok false
  | Some target =>
      let* c := getPiece b fromP in
      match c with
      | None => Ok false
      | Some r =>
          let* piece := deref h r in
          Ok (Position_equals toP target
              && jseq (jabs (jsub (col fromP) (col toP))) 1
              && jseq (row fromP)
                      (jadd (row toP)
                            (match color piece with WHITE => 1 | BLACK => -1 end)))
      end
  end.

(** The lookup [targetPiece && targetPiece.color !== this._color]. *)
Definition isEnemy (h : Heap) (self : Piece) (t : option Ref) : Res bool :=
  match t with
  | None => Ok false
  | Some r =>
      let* tp := deref h r in
      Ok (negb (Color_eqb (color tp) (color self)))
  end.

Section Pawn.
Variables (h : Heap) (b : Board) (self : Piece) (currentPos : Position).

Definition Pawn_direction : Z :=
    match color self with WHITE => -1 | BLACK => 1 end.

Definition Pawn_newRow : JsNum := jadd (row currentPos) Pawn_direction.

  (** The block under "Forward moves". *)
Definition Pawn_forward : Res (list Move) :=
    let newRow := Pawn_newRow in
    if jge newRow 0 && jle newRow 7 then
      let* newPos := Position_new newRow (col currentPos) in
      let* t := getPiece b newPos in
      match t with
      | Some _ => Ok []
      | None =>
          let one :=
            if jseq newRow 0 || jseq newRow 7
            then promotionMoves currentPos newPos
            else [plainMove currentPos newPos] in
          if hasMoved self then Ok one
          else
            let* twoForward :=
              Position_new (jadd newRow Pawn_direction) (col currentPos) in
            if jge (row twoForward) 0 && jle (row twoForward) 7 then
              let* t2 := getPiece b twoForward in
              match t2 with
              | None => Ok (one ++ [plainMove currentPos twoForward])
              | Some _ => Ok one
              end
            else Ok one
      end
    else Ok [].

  (** The body of the loop under "Diagonal captures". *)
Definition Pawn_capture (colOffset : Z) : Res (list Move) :=
    let newRow := Pawn_newRow in
    let newCol := jadd (col currentPos) colOffset in
    if jge newCol 0 && jle newCol 7 && jge newRow 0 && jle newRow 7 then
      let* capturePos := Position_new newRow newCol in
      let* targetPiece := getPiece b capturePos in
      let* enemy := isEnemy h self targetPiece in
      if enemy then
        Ok (if jseq newRow 0 || jseq newRow 7
            then promotionMoves currentPos capturePos
            else [plainMove currentPos capturePos])
      else
        let* ep := canEnPassant h b currentPos capturePos in
        Ok (if ep then [mkMove currentPos capturePos None false true] else [])
    else Ok [].

Definition Pawn_getPossibleMoves : Res (list Move) :=
    let* forward := Pawn_forward in
    let* captures := collect Pawn_capture [-1; 1] in
    Ok (forward ++ captures).
End Pawn.

Section Sliding.
Variables (h : Heap) (b : Board) (self : Piece) (currentPos : Position).

  (** One direction's [for (distance = 1; distance < 8; distance++)] loop;
      [k] counts the iterations left. *)
Fixpoint slideRay (k : nat) (dr dc distance : Z) : Res (list Move) :=
    match k with
    | O => Ok []
    | S k' =>
        let newRow := jadd (row currentPos) (jmul dr distance) in
        let newCol := jadd (col currentPos) (jmul dc distance) in
        if jlt newRow 0 || jgt newRow 7 || jlt newCol 0 || jgt newCol 7
        then Ok []
        else
          let* newPos := Position_new newRow newCol in
          let* targetPiece := getPiece b newPos in
          match targetPiece with
          | None =>
              let* rest := slideRay k' dr dc (distance + 1) in
              Ok (plainMove currentPos newPos :: rest)
          | Some r =>
              let* tp := deref h r in
              if negb (Color_eqb (color tp) (color self))
              then Ok [plainMove currentPos newPos]
              else Ok []
          end
    end.

Definition slide (directions : list (Z * Z)) : Res (list Move) :=
    collect (fun d => slideRay 7 (fst d) (snd d) 1) directions.

  (** The loop body shared by the knight and the king's adjacent squares. *)
Definition leapTo (d : Z * Z) : Res (list Move) :=
    let newRow := jadd (row currentPos) (fst d) in
    let newCol := jadd (col currentPos) (snd d) in
    if jge newRow 0 && jle newRow 7 && jge newCol 0 && jle newCol 7 then
      let* newPos := Position_new newRow newCol in
      let* targetPiece := getPiece b newPos in
      let* free :=
        match targetPiece with
        | None => Ok true
        | Some r =>
            let* tp := deref h r in
            Ok (negb (Color_eqb (color tp) (color self)))
        end in
      Ok (if free then [plainMove currentPos newPos] else [])
    else Ok [].

Definition leap (offsets : list (Z * Z)) : Res (list Move) :=
    collect leapTo offsets.
End Sliding.

Definition rookDirections : list (Z * Z) := [(0, 1); (0, -1); (1, 0); (-1, 0)].
Definition bishopDirections : list (Z * Z) := [(1, 1); (1, -1); (-1, 1); (-1, -1)].
Definition queenDirections : list (Z * Z) :=
  [(0, 1); (0, -1); (1, 0); (-1, 0); (1, 1); (1, -1); (-1, 1); (-1, -1)].
Definition kingDirections : list (Z * Z) := queenDirections.
Definition knightMoves : list (Z * Z) :=
  [(-2, -1); (-2, 1); (-1, -2); (-1, 2); (1, -2); (1, 2); (2, -1); (2, 1)].

(** The squares in the order of the nested [row]/[col] loops. *)
Definition range8 : list Z := [0; 1; 2; 3; 4; 5; 6; 7].
Definition allSquares : list (Z * Z) :=
  flat_map (fun r => map (fun c => (r, c)) range8) range8.

(** The type of [piece.getPossibleMoves(board, pos)]. *)
Definition Generator : Type :=
  Heap -> Board -> Piece -> Position -> Res (list Move).

Section Attack.
  (** The generator that the board calls back into. *)
Variable gpm : Generator.
Variables (h : Heap) (b : Board).

Fixpoint attackScan (position : Position) (opponentColor : Color)
           (squares : list (Z * Z)) : Res bool :=
    match squares with
    | [] => Ok false
    | (r, c) :: rest =>
        let* x := cell b r c in
        match x with
        | None => attackScan position opponentColor rest
        | Some ref =>
            let* piece := deref h ref in
            if Color_eqb (color piece) opponentColor then
              let* pos := Position_new r c in
              let* possibleMoves := gpm h b piece pos in
              if existsb (fun m => Position_equals (toPos m) position)
                         possibleMoves
              then Ok true
              else attackScan position opponentColor rest
            else attackScan position opponentColor rest
        end
    end.

Definition isPositionUnderAttack_ (position : Position) (byColor : Color)
    : Res bool :=
    let opponentColor :=
      match byColor with WHITE => BLACK | BLACK => WHITE end in
    attackScan position opponentColor allSquares.

Fixpoint kingScan (c0 : Color) (squares : list (Z * Z))
    : Res (option Position) :=
    match squares with
    | [] => Ok None
    | (r, c) :: rest =>
        let* x := cell b r c in
        match x with
        | None => kingScan c0 rest
        | Some ref =>
            let* piece := deref h ref in
            if PieceType_eqb (pieceType piece) KING
               && Color_eqb (color piece) c0
            then let* pos := Position_new r c in Ok (Some pos)
            else kingScan c0 rest
        end
    end.

Definition findKing (c0 : Color) : Res (option Position) :=
    kingScan c0 allSquares.

Definition isInCheck_ (c0 : Color) : Res bool :=
    let* kingPos := findKing c0 in
    match kingPos with
    | None => Ok false
    | Some kp => isPositionUnderAttack_ kp c0
    end.

  (** [positions.every(pos => !getPiece(pos) && !isPositionUnderAttack(pos))] *)
Fixpoint canCastleThrough (self : Piece) (positions : list Position)
    : Res bool :=
    match positions with
    | [] => Ok true
    | pos :: rest =>
        let* t := getPiece b pos in
        match t with
        | Some _ => Ok false
        | None =>
            let* attacked := isPositionUnderAttack_ pos (color self) in
            if attacked then Ok false else canCastleThrough self rest
        end
    end.

  (** [rook instanceof Rook && !rook.hasMoved] *)
Definition unmovedRook (t : option Ref) : Res bool :=
    match t with
    | None => Ok false
    | Some r =>
        let* p := deref h r in
        Ok (PieceType_eqb (pieceType p) ROOK && negb (hasMoved p))
    end.

Definition getCastlingMoves (self : Piece) (currentPos : Position)
    : Res (list Move) :=
    let r := row currentPos in
    (* Kingside castling *)
    let* kingsideRookPos := Position_new r 7 in
    let* kingsideRook := getPiece b kingsideRookPos in
    let* kRook := unmovedRook kingsideRook in
    let* kingside :=
      if kRook then
        let* p6 := Position_new r 6 in
        let* p5 := Position_new r 5 in
        let* through := canCastleThrough self [currentPos; p6; p5] in
        if through then
          let* dest := Position_new r 6 in
          Ok [mkMove currentPos dest None true false]
        else Ok []
      else Ok [] in
    (* queenSide castling *)
    let* queenSideRookPos := Position_new r 0 in
    let* queenSideRook := getPiece b queenSideRookPos in
    let* qRook := unmovedRook queenSideRook in
    let* queenside :=
      if qRook then
        let* p2 := Position_new r 2 in
        let* p3 := Position_new r 3 in
        let* p1 := Position_new r 1 in
        let* through := canCastleThrough self [currentPos; p2; p3; p1] in
        if through then
          let* dest := Position_new r 2 in
          Ok [mkMove currentPos dest None true false]
        else Ok []
      else Ok [] in
    Ok (kingside ++ queenside).

Definition King_getPossibleMoves (self : Piece) (currentPos : Position)
    : Res (list Move) :=
    let* adjacent := leap h b self currentPos kingDirections in
    if negb (hasMoved self) then
      let* inCheck := isInCheck_ (color self) in
      if negb inCheck then
        let* castling := getCastlingMoves self currentPos in
        Ok (adjacent ++ castling)
      else Ok adjacent
    else Ok adjacent.
End Attack.

(** A generator with no call depth left. *)
Definition overflow : Generator := fun _ _ _ _ => Throw RangeError.

(** [piece.getPossibleMoves(board, currentPos)], dispatched on the class of
    [piece]. The king's generator calls [Board.isInCheck], which calls the
    generators of the opposing pieces, the opposing king's among them: the
    call chain has no bound in the source. [n] is the number of nested
    generator calls the run may still make; with none left the call ends
    in the engine's [RangeError]. *)
Fixpoint getPossibleMoves (n : nat) (h : Heap) (b : Board) (self : Piece)
         (currentPos : Position) {struct n} : Res (list Move) :=
  match pieceType self with
  | PAWN => Pawn_getPossibleMoves h b self currentPos
  | ROOK => slide h b self currentPos rookDirections
  | KNIGHT => leap h b self currentPos knightMoves
  | BISHOP => slide h b self currentPos bishopDirections
  | QUEEN => slide h b self currentPos queenDirections
  | KING =>
      King_getPossibleMoves
        (match n with O => overflow | S n' => getPossibleMoves n' end)
        h b self currentPos
  end.

(** [piece.isMoveValid(board, move)] *)
Definition isMoveValid (n : nat) (h : Heap) (b : Board) (self : Piece)
           (move : Move) : Res bool :=
  let* possibleMoves := getPossibleMoves n h b self (fromPos move) in
  Ok (existsb (fun m => Move_equals m move) possibleMoves).

(** The board's read-only queries, at call depth [n]. *)
Definition isPositionUnderAttack (n : nat) (h : Heap) (b : Board)
           (position : Position) (byColor : Color) : Res bool :=
  isPositionUnderAttack_ (getPossibleMoves n) h b position byColor.

Definition isInCheck (n : nat) (h : Heap) (b : Board) (c : Color) : Res bool :=
  isInCheck_ (getPossibleMoves n) h b c.

(** ** The state the mutating methods run in

    A method of a board runs against the piece store and the fields of
    [this]. A computation returns its result together with the state it
    leaves, a thrown exception included. *)

Record World : Type := mkWorld { heap : Heap; brd : Board }.

Definition M (A : Type) : Type := World -> Res A * World.

Definition mret {A} (a : A) : M A := fun w => (Ok a, w).
Definition mthrow {A} (e : Exn) : M A := fun w => (Throw e, w).
Definition mbind {A B} (m : M A) (k : A -> M B) : M B :=
  fun w =>
    match m w with
    | (Ok a, w') => k a w'
    | (Throw e, w') => (Throw e, w')
    end.

Notation "'do*' x ':=' c 'in' k" := (mbind c (fun x => k))
  (at level 10, x name, c at level 100, k at level 200).
Notation "c '>>' k" := (mbind c (fun _ => k))
  (at level 60, right associativity).

(** A read-only query of the store and the board. *)
Definition query {A} (f : Heap -> Board -> Res A) : M A :=
  fun w => (f (heap w) (brd w), w).
Definition liftR {A} (r : Res A) : M A := fun w => (r, w).

Definition Board_getPiece (position : Position) : M (option Ref) :=
  query (fun _ b => getPiece b position).

Definition Board_setPiece (position : Position) (piece : option Ref) : M unit :=
  fun w =>
    match setPiece (brd w) position piece with
    | Ok b' => (Ok tt, mkWorld (heap w) b')
    | Throw e => (Throw e, w)
    end.

Definition Piece_markAsMoved (r : Ref) : M unit :=
  fun w => (Ok tt, mkWorld (markAsMoved r (heap w)) (brd w)).

Definition newPiece (pt : PieceType) (c : Color) : M Ref :=
  fun w =>
    let '(r, h') := createPiece pt c (heap w) in
    (Ok r, mkWorld h' (brd w)).

Definition modify (f : Board -> Board) : M unit :=
  fun w => (Ok tt, mkWorld (heap w) (f (brd w))).

Definition pushCaptured (r : Ref) (b : Board) : Board :=
  mkBoard (_board b) (_moveHistory b) (_capturedPieces b ++ [r])
          (_enPassantTarget b) (_halfMoveClock b) (_fullMoveNumber b).
Definition pushHistory (m : Move) (b : Board) : Board :=
  mkBoard (_board b) (_moveHistory b ++ [m]) (_capturedPieces b)
          (_enPassantTarget b) (_halfMoveClock b) (_fullMoveNumber b).
Definition setEnPassantTarget (t : option Position) (b : Board) : Board :=
  mkBoard (_board b) (_moveHistory b) (_capturedPieces b)
          t (_halfMoveClock b) (_fullMoveNumber b).
Definition setHalfMoveClock (v : Z) (b : Board) : Board :=
  mkBoard (_board b) (_moveHistory b) (_capturedPieces b)
          (_enPassantTarget b) v (_fullMoveNumber b).
Definition setFullMoveNumber (v : Z) (b : Board) : Board :=
  mkBoard (_board b) (_moveHistory b) (_capturedPieces b)
          (_enPassantTarget b) (_halfMoveClock b) v.

(** ** Board: construction *)

Abbreviation Grid := (list (list (option Ref))).

Definition emptyGrid : Grid := repeat (repeat None 8) 8.

(** [this._board[r][c] = x] for a row the constructor has created. *)
Definition gridSet (g : Grid) (r c : Z) (x : option Ref) : Grid :=
  match arrayGet g r with
  | Some cells => arraySet g r (arraySet cells c x)
  | None => g
  end.

Definition placePawns (st : Heap * Grid) (c : Z) : Heap * Grid :=
  let '(h, g) := st in
  let '(bp, h1) := createPiece PAWN BLACK h in
  let g1 := gridSet g 1 c (Some bp) in
  let '(wp, h2) := createPiece PAWN WHITE h1 in
  (h2, gridSet g1 6 c (Some wp)).

Definition pieceOrder : list PieceType :=
  [ROOK; KNIGHT; BISHOP; QUEEN; KING; BISHOP; KNIGHT; ROOK].

Definition placeBackRank (st : Heap * Grid) (x : PieceType * Z) : Heap * Grid :=
  let '(h, g) := st in
  let '(bp, h1) := createPiece (fst x) BLACK h in
  let g1 := gridSet g 0 (snd x) (Some bp) in
  let '(wp, h2) := createPiece (fst x) WHITE h1 in
  (h2, gridSet g1 7 (snd x) (Some wp)).

(** [new Board()]: the constructor and [initializeBoard]. *)
Definition Board_new (h : Heap) : Board * Heap :=
  let st1 := fold_left placePawns range8 (h, emptyGrid) in
  let st2 := fold_left placeBackRank (combine pieceOrder range8) st1 in
  (mkBoard (snd st2) [] [] None 0 1, fst st2).

(** ** Board: executing a move *)

Definition executeCastling (move : Move) : M unit :=
  do* king := Board_getPiece (fromPos move) in
  match king with
  | None => mthrow NoKingForCastling
  | Some king =>
      let r := row (fromPos move) in
      Board_setPiece (toPos move) (Some king) >>
      Board_setPiece (fromPos move) None >>
      Piece_markAsMoved king >>
      if jseq (col (toPos move)) 6 then
        do* p7 := liftR (Position_new r 7) in
        do* rook := Board_getPiece p7 in
        match rook with
        | None => mthrow NoRookKingside
        | Some rook =>
            do* p5 := liftR (Position_new r 5) in
            Board_setPiece p5 (Some rook) >>
            do* p7' := liftR (Position_new r 7) in
            Board_setPiece p7' None >>
            Piece_markAsMoved rook
        end
      else
        do* p0 := liftR (Position_new r 0) in
        do* rook := Board_getPiece p0 in
        match rook with
        | None => mthrow NoRookQueenside
        | Some rook =>
            do* p3 := liftR (Position_new r 3) in
            Board_setPiece p3 (Some rook) >>
            do* p0' := liftR (Position_new r 0) in
            Board_setPiece p0' None >>
            Piece_markAsMoved rook
        end
  end.

Definition executeEnPassant (move : Move) : M unit :=
  do* pawn := Board_getPiece (fromPos move) in
  match pawn with
  | None => mthrow NoPawnForEnPassant
  | Some pawn =>
      Board_setPiece (toPos move) (Some pawn) >>
      Board_setPiece (fromPos move) None >>
      Piece_markAsMoved pawn >>
      do* capturedPawnPos :=
        liftR (Position_new (row (fromPos move)) (col (toPos move))) in
      do* capturedPawn := Board_getPiece capturedPawnPos in
      match capturedPawn with
      | Some c => modify (pushCaptured c)
      | None => mret tt
      end >>
      Board_setPiece capturedPawnPos None
  end.

(** [piece instanceof Pawn] for a square's content. *)
Definition isPawn (h : Heap) (t : option Ref) : Res bool :=
  match t with
  | None => Ok false
  | Some r => let* p := deref h r in Ok (PieceType_eqb (pieceType p) PAWN)
  end.

Definition updateEnPassantTarget (move : Move) : M unit :=
  do* piece := Board_getPiece (toPos move) in
  modify (setEnPassantTarget None) >>
  do* pawn := query (fun h _ => isPawn h piece) in
  if pawn && jseq (jabs (jsub (row (fromPos move)) (row (toPos move)))) 2
  then
    let targetRow := jhalf (jadd (row (fromPos move)) (row (toPos move))) in
    do* target := liftR (Position_new targetRow (col (toPos move))) in
    modify (setEnPassantTarget (Some target))
  else mret tt.

Definition updateMoveCounters (move : Move) (capturedPiece : option Ref)
  : M unit :=
  do* piece := Board_getPiece (toPos move) in
  match piece with
  | None => mret tt
  | Some r =>
      do* p := query (fun h _ => deref h r) in
      (if PieceType_eqb (pieceType p) PAWN
          || match capturedPiece with Some _ => true | None => false end
       then modify (setHalfMoveClock 0)
       else modify (fun b => setHalfMoveClock (_halfMoveClock b + 1) b)) >>
      (if Color_eqb (color p) BLACK
       then modify (fun b => setFullMoveNumber (_fullMoveNumber b + 1) b)
       else mret tt)
  end.

Definition executeMove (move : Move) : M unit :=
  do* piece := Board_getPiece (fromPos move) in
  do* capturedPiece := Board_getPiece (toPos move) in
  match piece with
  | None => mthrow NoPieceAtSource
  | Some piece =>
      (if isCastling move then executeCastling move
       else if isEnPassant move then executeEnPassant move
       else
         match promotionPiece move with
         | Some pt =>
             do* p := query (fun h _ => deref h piece) in
             do* promotedPiece := newPiece pt (color p) in
             Board_setPiece (toPos move) (Some promotedPiece) >>
             Board_setPiece (fromPos move) None >>
             Piece_markAsMoved promotedPiece
         | None =>
             Board_setPiece (toPos move) (Some piece) >>
             Board_setPiece (fromPos move) None >>
             Piece_markAsMoved piece
         end) >>
      match capturedPiece with
      | Some c => modify (pushCaptured c)
      | None => mret tt
      end >>
      modify (pushHistory move) >>
      updateEnPassantTarget move >>
      updateMoveCounters move capturedPiece
  end.

(** ** Board: the legality filter *)

(** [this.deepCopy()]: a new board object (whose constructor allocates the
    thirty-two pieces of the initial position, at once unreachable) that
    receives copies of the arrays of [this]. The copied arrays hold the
    same piece references: no [Piece] object is copied. *)
Definition deepCopy : M Board :=
  fun w =>
    let '(_, h') := Board_new (heap w) in
    let this := brd w in
    (Ok (mkBoard (map (fun cells => cells) (_board this))
                 (_moveHistory this) (_capturedPieces this)
                 (_enPassantTarget this)
                 (_halfMoveClock this) (_fullMoveNumber this)),
     mkWorld h' this).

(** Runs a method with [this] bound to another board object; the store is
    the same one. Returns the other board as the method left it. *)
Definition onBoard {A} (other : Board) (m : M A) : M (A * Board) :=
  fun w =>
    let '(r, w') := m (mkWorld (heap w) other) in
    let back := mkWorld (heap w') (brd w) in
    match r with
    | Ok a => (Ok (a, brd w'), back)
    | Throw e => (Throw e, back)
    end.

Definition wouldBeInCheckAfterMove (n : nat) (move : Move) (c : Color)
  : M bool :=
  do* boardCopy := deepCopy in
  do* moved := onBoard boardCopy (executeMove move) in
  query (fun h _ => isInCheck n h (snd moved) c).

Definition Board_makeMove (n : nat) (move : Move) : M bool :=
  do* piece := Board_getPiece (fromPos move) in
  match piece with
  | None => mret false
  | Some r =>
      do* p := query (fun h _ => deref h r) in
      do* valid := query (fun h b => isMoveValid n h b p move) in
      if negb valid then mret false
      else
        do* inCheck := wouldBeInCheckAfterMove n move (color p) in
        if inCheck then mret false
        else executeMove move >> mret true
  end.

(** The [forEach] over one piece's candidate moves. *)
Fixpoint keepLegal (n : nat) (c : Color) (candidates : list Move)
  : M (list Move) :=
  match candidates with
  | [] => mret []
  | move :: rest =>
      do* inCheck := wouldBeInCheckAfterMove n move c in
      do* kept := keepLegal n c rest in
      mret (if inCheck then kept else move :: kept)
  end.

Fixpoint legalScan (n : nat) (c : Color) (squares : list (Z * Z))
  : M (list Move) :=
  match squares with
  | [] => mret []
  | (r, k) :: rest =>
      do* x := query (fun _ b => cell b r k) in
      match x with
      | None => legalScan n c rest
      | Some ref =>
          do* piece := query (fun h _ => deref h ref) in
          if Color_eqb (color piece) c then
            do* pos := liftR (Position_new r k) in
            do* possibleMoves :=
              query (fun h b => getPossibleMoves n h b piece pos) in
            do* kept := keepLegal n c possibleMoves in
            do* more := legalScan n c rest in
            mret (kept ++ more)
          else legalScan n c rest
      end
  end.

Definition getAllLegalMoves (n : nat) (c : Color) : M (list Move) :=
  legalScan n c allSquares.

Definition isCheckmate (n : nat) (c : Color) : M bool :=
  do* inCheck := query (fun h b => isInCheck n h b c) in
  if inCheck then
    do* moves := getAllLegalMoves n c in
    mret (Nat.eqb (length moves) 0)
  else mret false.

Definition isStalemate (n : nat) (c : Color) : M bool :=
  do* inCheck := query (fun h b => isInCheck n h b c) in
  if negb inCheck then
    do* moves := getAllLegalMoves n c in
    mret (Nat.eqb (length moves) 0)
  else mret false.

(** ** ChessGame *)

Record ChessGame : Type := mkChessGame {
  game_board : Board;
  _currentPlayer : Color;
  _gameState : GameState;
  _moveCount : Z
}.

Record GameWorld : Type := mkGameWorld { gheap : Heap; game : ChessGame }.

Definition G (A : Type) : Type := GameWorld -> Res A * GameWorld.

Definition gret {A} (a : A) : G A := fun w => (Ok a, w).
Definition gbind {A B} (m : G A) (k : A -> G B) : G B :=
  fun w =>
    match m w with
    | (Ok a, w') => k a w'
    | (Throw e, w') => (Throw e, w')
    end.

Notation "'game*' x ':=' c 'in' k" := (gbind c (fun x => k))
  (at level 10, x name, c at level 100, k at level 200).

Definition withBoard (g : ChessGame) (b : Board) : ChessGame :=
  mkChessGame b (_currentPlayer g) (_gameState g) (_moveCount g).

(** A method of [this._board]. *)
Definition onGameBoard {A} (m : M A) : G A :=
  fun gw =>
    let '(r, w') := m (mkWorld (gheap gw) (game_board (game gw))) in
    (r, mkGameWorld (heap w') (withBoard (game gw) (brd w'))).

Definition gmodify (f : ChessGame -> ChessGame) : G unit :=
  fun gw => (Ok tt, mkGameWorld (gheap gw) (f (game gw))).

Definition gread {A} (f : ChessGame -> A) : G A :=
  fun gw => (Ok (f (game gw)), gw).


Definition opposite (c : Color) : Color :=
  match c with WHITE => BLACK | BLACK => WHITE end.

Definition switchPlayer : G unit :=
  gmodify (fun g =>
    mkChessGame (game_board g) (opposite (_currentPlayer g))
                (_gameState g) (_moveCount g)).

Definition setGameState (s : GameState) : G unit :=
  gmodify (fun g =>
    mkChessGame (game_board g) (_currentPlayer g) s (_moveCount g)).

Definition isDraw : G bool :=
  gread (fun g => 100 <=? _halfMoveClock (game_board g)).

Definition updateGameState (n : nat) : G unit :=
  game* player := gread _currentPlayer in
  game* mate := onGameBoard (isCheckmate n player) in
  if mate then setGameState CHECKMATE
  else
    game* stale := onGameBoard (isStalemate n player) in
    if stale then setGameState STALEMATE
    else
      game* inCheck := onGameBoard (query (fun h b => isInCheck n h b player)) in
      if inCheck then setGameState CHECK
      else
        game* draw := isDraw in
        if draw then setGameState DRAW else setGameState ONGOING.

Definition ChessGame_makeMove (n : nat) (move : Move) : G bool :=
  game* state := gread _gameState in
  if negb (GameState_eqb state ONGOING) && negb (GameState_eqb state CHECK)
  then gret false
  else
    game* piece := onGameBoard (Board_getPiece (fromPos move)) in
    game* player := gread _currentPlayer in
    game* mine :=
      onGameBoard (query (fun h _ =>
        match piece with
        | None => Ok false
        | Some r => let* p := deref h r in Ok (Color_eqb (color p) player)
        end)) in
    if negb mine then gret false
    else
      game* moved := onGameBoard (Board_makeMove n move) in
      if moved then
        game* _ := gmodify (fun g =>
          mkChessGame (game_board g) (_currentPlayer g) (_gameState g)
                      (_moveCount g + 1)) in
        game* _ := switchPlayer in
        game* _ := updateGameState n in
        gret true
      else gret false.

(** [s.toUpperCase()]. Outside the ASCII letters the model leaves a code
    unit as it is: no such unit is mapped onto Q, R, B or N. *)
Definition toUpperCase (s : JsString) : JsString :=
  map (fun c => if (97 <=? c) && (c <=? 122) then c - 32 else c) s.

(** The lookup in the [promotionMap] object literal. *)
Definition promotionMap (key : JsString) : option PieceType :=
  match key with
  | [81] => Some QUEEN
  | [82] => Some ROOK
  | [66] => Some BISHOP
  | [78] => Some KNIGHT
  | _ => None
  end.

(** [try { ... } catch (error) { return false; }] *)
Definition catchFalse (m : G bool) : G bool :=
  fun gw =>
    match m gw with
    | (Throw _, gw') => (Ok false, gw')
    | other => other
    end.

Definition makeMoveFromAlgebraic (n : nat) (fromNotation toNotation : JsString)
           (promotion : option JsString) : G bool :=
  catchFalse (
    game* fromP := (fun gw => (fromAlgebraic fromNotation, gw)) in
    game* toP := (fun gw => (fromAlgebraic toNotation, gw)) in
    let promo :=
      match promotion with
      | None | Some [] => None
      | Some s => promotionMap (toUpperCase s)
      end in
    ChessGame_makeMove n (mkMove fromP toP promo false false)).

(** ** Setting up positions

    A position other than the initial one is reached through the public
    interface: [setPiece(pos, null)] on every square of a new board, then
    [setPiece(pos, piece)] for pieces made by the factory (and marked as
    moved where wanted). *)

Definition clearBoard (b : Board) : Board := withGrid b emptyGrid.

Definition placePiece (w : World) (x : Z * Z * Piece) : World :=
  let '(r, c, p) := x in
  let '(ref, h') := alloc p (heap w) in
  mkWorld h' (withGrid (brd w) (gridSet (_board (brd w)) r c (Some ref))).

Definition arrange (pieces : list (Z * Z * Piece)) : World :=
  fold_left placePiece pieces (mkWorld [] (mkBoard emptyGrid [] [] None 0 1)).

(** The world just after [new Board()]. *)
Definition initialWorld : World :=
  let '(b, h) := Board_new [] in mkWorld h b.

Definition sq (r c : Z) : Position := mkPosition r c.

(** ** Devices for following a scan

    A piece whose generator calls no other generator: every piece but a
    king that has not moved. *)
Definition isLeafPiece (p : Piece) : bool :=
  negb (PieceType_eqb (pieceType p) KING) || hasMoved p.

(** Where [attackScan] stands when it first has to call the generator of
    an unmoved king, or what it returns when it never does. *)
Inductive ScanStop : Type :=
| Decided (r : Res bool)
| AtKing (king : Piece) (pos : Position) (rest : list (Z * Z)).

Fixpoint attackScanToKing (h : Heap) (b : Board) (position : Position)
         (opponentColor : Color) (squares : list (Z * Z)) : ScanStop :=
  match squares with
  | [] => Decided (Ok false)
  | (r, c) :: rest =>
      match cell b r c with
      | Throw e => Decided (Throw e)
      | Ok None => attackScanToKing h b position opponentColor rest
      | Ok (Some ref) =>
          match deref h ref with
          | Throw e => Decided (Throw e)
          | Ok piece =>
              if Color_eqb (color piece) opponentColor then
                match Position_new r c with
                | Throw e => Decided (Throw e)
                | Ok pos =>
                    if isLeafPiece piece then
                      match getPossibleMoves 0 h b piece pos with
                      | Throw e => Decided (Throw e)
                      | Ok ms =>
                          if existsb (fun m => Position_equals (toPos m) position) ms
                          then Decided (Ok true)
                          else attackScanToKing h b position opponentColor rest
                      end
                    else AtKing piece pos rest
                end
              else attackScanToKing h b position opponentColor rest
          end
      end
  end.

(** A square that [legalScan] passes over: empty, or held by the other side. *)
Definition passedOver (c : Color) (w : World) (s : Z * Z) : bool :=
  match cell (brd w) (fst s) (snd s) with
  | Ok None => true
  | Ok (Some ref) =>
      match deref (heap w) ref with
      | Ok p => negb (Color_eqb (color p) c)
      | Throw _ => false
      end
  | Throw _ => false
  end.

(** The first two statements of [wouldBeInCheckAfterMove]. *)
Definition simulate (move : Move) : M (unit * Board) :=
  do* boardCopy := deepCopy in
  onBoard boardCopy (executeMove move).

(** The store and the copy once the move is played on it. *)
Definition simulated (move : Move) (w : World) : World :=
  match simulate move w with
  | (Ok (_, played), w1) => mkWorld (heap w1) played
  | (Throw _, w1) => w1
  end.

(** ** Positions used below *)

(** The pawn moves a2-a3 and e2-e4 of the initial position. *)
Definition a2a3 : Move := plainMove (sq 6 0) (sq 5 0).
Definition e2e4 : Move := plainMove (sq 6 4) (sq 4 4).

(** Both kings have moved; White's a-pawn stands unmoved on a2. *)
Definition quietWorld : World :=
  arrange [(7, 4, mkPiece WHITE KING true);
           (6, 0, mkPiece WHITE PAWN false);
           (0, 4, mkPiece BLACK KING true)].

(** Both kings have moved; White's unmoved d-pawn is pinned on d2 by the
    black bishop on b4. *)
Definition pinnedPawnWorld : World :=
  arrange [(7, 4, mkPiece WHITE KING true);
           (6, 3, mkPiece WHITE PAWN false);
           (4, 1, mkPiece BLACK BISHOP true);
           (0, 4, mkPiece BLACK KING true)].

Definition d2d3 : Move := plainMove (sq 6 3) (sq 5 3).

(** A game around a given board, White to move. *)
Definition gameOn (w : World) : GameWorld :=
  mkGameWorld (heap w) (mkChessGame (brd w) WHITE ONGOING 0).

(** White may castle on either side by the rules: king on e1 and rooks on
    a1 and h1 unmoved, nothing between them, no black piece but the (moved)
    king on e8. *)
Definition castleReadyWorld : World :=
  arrange [(7, 4, mkPiece WHITE KING false);
           (7, 7, mkPiece WHITE ROOK false);
           (7, 0, mkPiece WHITE ROOK false);
           (0, 4, mkPiece BLACK KING true)].

(** ** Notions the statements use *)

(** The rank a pawn of the given colour promotes on. *)
Definition backRank (c : Color) : Z :=
  match c with WHITE => 0 | BLACK => 7 end.

(** The en-passant target is never on the first or the last row. *)
Definition epTargetInside (b : Board) : Prop :=
  forall t, _enPassantTarget b = Some t ->
    exists r c : Z, t = mkPosition r c /\ 1 <= r <= 6 /\ 0 <= c <= 7.

(** The moves of a list that land on a square. *)
Definition landingOn (t : Position) (ms : list Move) : list Move :=
  List.filter (fun m => Position_equals (toPos m) t) ms.

(** An unmoved White pawn two rows from the last rank, the way ahead free. *)
Definition farPawnWorld : World :=
  arrange [(7, 4, mkPiece WHITE KING true);
           (2, 4, mkPiece WHITE PAWN false);
           (0, 0, mkPiece BLACK KING true)].

(** A White pawn one row from the last rank: e8 is free, a black rook
    stands on f8. *)
Definition promotionWorld : World :=
  arrange [(7, 4, mkPiece WHITE KING true);
           (1, 4, mkPiece WHITE PAWN true);
           (0, 5, mkPiece BLACK ROOK true);
           (0, 0, mkPiece BLACK KING true)].

(** Both kings have moved; a White pawn stands on e5 and an unmoved Black
    pawn on d7. *)
Definition beforeDoubleStep : World :=
  arrange [(7, 4, mkPiece WHITE KING true);
           (3, 4, mkPiece WHITE PAWN true);
           (1, 3, mkPiece BLACK PAWN false);
           (0, 4, mkPiece BLACK KING true)].

Definition d7d5 : Move := plainMove (sq 1 3) (sq 3 3).

(** The board after [makeMove(d7-d5)]: White may take on d6 in passing. *)
Definition enPassantWorld : World := snd (Board_makeMove 0 d7d5 beforeDoubleStep).

(** Black's pawn goes on at once: d5-d4. *)
Definition d5d4 : Move := plainMove (sq 3 3) (sq 4 3).

Definition e5d6 : Move := mkMove (sq 3 4) (sq 2 3) None false true.

(** Every board the program builds has eight rows of eight cells. *)
Definition wfGrid (g : Grid) : Prop :=
  length g = 8%nat /\ Forall (fun cells => length cells = 8%nat) g.

(** The board that [setPiece] leaves, for a square on the board. *)
Definition putPiece (b : Board) (p : Position) (x : option Ref) : Board :=
  withGrid b
    (arraySet (_board b) (row p)
       (arraySet (default [] (arrayGet (_board b) (row p))) (col p) x)).

Definition optionList {A} (o : option A) : list A :=
  match o with Some x => [x] | None => [] end.

(** The statements of [executeMove] under "Update game state". *)
Definition bookkeeping (move : Move) (capturedPiece : option Ref) : M unit :=
  match capturedPiece with
  | Some c => modify (pushCaptured c)
  | None => mret tt
  end >>
  modify (pushHistory move) >>
  updateEnPassantTarget move >>
  updateMoveCounters move capturedPiece.

(** The square a move passes over when it spans two rows. *)
Definition skippedSquare (move : Move) : Res Position :=
  Position_new (jhalf (jadd (row (fromPos move)) (row (toPos move))))
               (col (toPos move)).

Definition spansTwoRows (move : Move) : bool :=
  jseq (jabs (jsub (row (fromPos move)) (row (toPos move)))) 2.

(** The statements of [executeMove] under "Handle special moves". *)
Definition relocate (move : Move) (piece : Ref) : M unit :=
  if isCastling move then executeCastling move
  else if isEnPassant move then executeEnPassant move
  else
    match promotionPiece move with
    | Some pt =>
        do* p := query (fun h _ => deref h piece) in
        do* promotedPiece := newPiece pt (color p) in
        Board_setPiece (toPos move) (Some promotedPiece) >>
        Board_setPiece (fromPos move) None >>
        Piece_markAsMoved promotedPiece
    | None =>
        Board_setPiece (toPos move) (Some piece) >>
        Board_setPiece (fromPos move) None >>
        Piece_markAsMoved piece
    end.

(** A plain step from a square: no promotion, neither flag set. *)
Definition isPlain (pos : Position) (m : Move) : Prop :=
  m = plainMove pos (toPos m).

(** A move of the "Forward moves" block of the pawn on row [r], file [c]:
    one row ahead onto the same file, or the plain double step over an empty
    square onto an empty square. *)
Definition isForwardMove (b : Board) (self : Piece) (r c : Z) (m : Move)
  : Prop :=
  let pos := mkPosition r c in
  let d := Pawn_direction self in
  fromPos m = pos /\ isCastling m = false /\ isEnPassant m = false
  /\ validPos (toPos m)
  /\ (toPos m = mkPosition (r + d) c
      \/ (m = plainMove pos (mkPosition (r + d + d) c)
          /\ hasMoved self = false
          /\ getPiece b (mkPosition (r + d) c) = Ok None
          /\ getPiece b (mkPosition (r + d + d) c) = Ok None)).

(** The moves of one pass of the "Diagonal captures" loop: captures of an
    enemy piece, or the single en-passant move that [canEnPassant] allows. *)
Definition isCaptureBlock (h : Heap) (b : Board) (self : Piece) (r c : Z)
           (off : Z) (cap : list Move) : Prop :=
  let pos := mkPosition r c in
  let d := Pawn_direction self in
  let q := mkPosition (r + d) (c + off) in
  cap = []
  \/ (validPos q
      /\ (Forall (fun m => fromPos m = pos /\ toPos m = q
                           /\ isCastling m = false /\ isEnPassant m = false) cap
          \/ (cap = [mkMove pos q None false true]
              /\ canEnPassant h b pos q = Ok true))).

(** A square that a piece of [self]'s side may land on: free, or held by a
    piece of the other colour. *)
Definition landable (h : Heap) (b : Board) (self : Piece) (q : Position)
  : Prop :=
  getPiece b q = Ok None
  \/ exists ref tp,
       getPiece b q = Ok (Some ref) /\ deref h ref = Ok tp
       /\ color tp <> color self.

(** The square [k] steps of [d] away from row [r], file [c]. *)
Definition shifted (r c : Z) (d : Z * Z) (k : Z) : Position :=
  mkPosition (r + fst d * k) (c + snd d * k).

(** A move along a ray: [k] steps in one of the directions, over free
    squares only, onto a square the piece may land on. *)
Definition isSlideMove (h : Heap) (b : Board) (self : Piece) (r c : Z)
           (directions : list (Z * Z)) (m : Move) : Prop :=
  exists d k,
    In d directions /\ 1 <= k <= 7
    /\ m = plainMove (mkPosition r c) (shifted r c d k)
    /\ validPos (shifted r c d k)
    /\ landable h b self (shifted r c d k)
    /\ forall j, 1 <= j < k -> getPiece b (shifted r c d j) = Ok None.

(** A move by one of the offsets of a table. *)
Definition isLeapMove (h : Heap) (b : Board) (self : Piece) (r c : Z)
           (offsets : list (Z * Z)) (m : Move) : Prop :=
  exists d,
    In d offsets
    /\ m = plainMove (mkPosition r c) (mkPosition (r + fst d) (c + snd d))
    /\ validPos (mkPosition (r + fst d) (c + snd d))
    /\ landable h b self (mkPosition (r + fst d) (c + snd d)).

Definition lastRow (r : Z) : bool := (r =? 0) || (r =? 7).

(** A move arriving on row [r] carries a promotion piece, one of the four
    of the table, exactly when [r] is row 0 or row 7. *)
Definition promotionAsDue (m : Move) (r : Z) : Prop :=
  if lastRow r
  then exists pt, In pt promotionPieces /\ promotionPiece m = Some pt
  else promotionPiece m = None.

(** The four kinds of move that the pawn on row [r], file [c] makes: one
    step straight ahead onto a free square; the double step of a pawn that
    has not moved, over a free square onto a free square; a capture one step
    diagonally ahead of a piece of the other colour; the en-passant capture
    onto the board's target. Moves of the first and third kind carry a
    promotion piece exactly when they arrive on row 0 or row 7. *)
Definition isPawnMove (h : Heap) (b : Board) (self : Piece) (r c : Z)
           (m : Move) : Prop :=
  let pos := mkPosition r c in
  let d := Pawn_direction self in
  fromPos m = pos /\ isCastling m = false /\ validPos (toPos m)
  /\ ((toPos m = mkPosition (r + d) c /\ isEnPassant m = false
       /\ promotionAsDue m (r + d)
       /\ getPiece b (toPos m) = Ok None)
      \/ (m = plainMove pos (mkPosition (r + d + d) c)
          /\ hasMoved self = false
          /\ getPiece b (mkPosition (r + d) c) = Ok None
          /\ getPiece b (mkPosition (r + d + d) c) = Ok None)
      \/ (exists off ref tp,
            (off = -1 \/ off = 1)
            /\ toPos m = mkPosition (r + d) (c + off)
            /\ isEnPassant m = false
            /\ promotionAsDue m (r + d)
            /\ getPiece b (toPos m) = Ok (Some ref)
            /\ deref h ref = Ok tp /\ color tp <> color self)
      \/ (exists off,
            (off = -1 \/ off = 1)
            /\ m = mkMove pos (mkPosition (r + d) (c + off)) None false true
            /\ _enPassantTarget b = Some (toPos m))).

(** How a destination lies with respect to row [r], file [c]. *)
Definition sameLine (r c : Z) (q : Position) : Prop :=
  exists tr tc : Z,
    q = mkPosition tr tc /\ ((tr = r /\ tc <> c) \/ (tc = c /\ tr <> r)).

Definition sameDiagonal (r c : Z) (q : Position) : Prop :=
  exists tr tc : Z,
    q = mkPosition tr tc /\ Z.abs (tr - r) = Z.abs (tc - c) /\ tr <> r.

Definition knightJump (r c : Z) (q : Position) : Prop :=
  exists tr tc : Z,
    q = mkPosition tr tc /\ Z.abs (tr - r) * Z.abs (tc - c) = 2.

Definition kingStep (r c : Z) (q : Position) : Prop :=
  exists tr tc : Z,
    q = mkPosition tr tc /\ Z.max (Z.abs (tr - r)) (Z.abs (tc - c)) = 1.

(** One or two rows ahead for the colour of [self], at most one file aside. *)
Definition pawnAdvance (self : Piece) (r c : Z) (q : Position) : Prop :=
  exists tr tc : Z,
    q = mkPosition tr tc
    /\ (tr = r + Pawn_direction self \/ tr = r + 2 * Pawn_direction self)
    /\ Z.abs (tc - c) <= 1.

(** A piece of colour [c0] stands on row [r], file [k], and one of the moves
    it generates from there (with the generator [gpm]) lands on [position]. *)
Definition attacksFrom (gpm : Generator) (h : Heap) (b : Board) (c0 : Color)
           (position : Position) (r k : Z) : Prop :=
  exists ref piece ms m,
    cell b r k = Ok (Some ref) /\ deref h ref = Ok piece
    /\ color piece = c0
    /\ gpm h b piece (mkPosition r k) = Ok ms
    /\ In m ms /\ toPos m = position.

(** A king of colour [c0] stands on row [r], file [k]. *)
Definition kingOn (h : Heap) (b : Board) (c0 : Color) (r k : Z) : Prop :=
  exists ref piece,
    cell b r k = Ok (Some ref) /\ deref h ref = Ok piece
    /\ pieceType piece = KING /\ color piece = c0.

(** Every piece of colour [c0] on the board is one whose generator calls no
    other generator: the side has no king that has not moved. *)
Definition sideSettled (h : Heap) (b : Board) (c0 : Color) : Prop :=
  forall r k ref piece,
    0 <= r <= 7 -> 0 <= k <= 7 ->
    cell b r k = Ok (Some ref) -> deref h ref = Ok piece ->
    color piece = c0 -> isLeafPiece piece = true.

(** The same, as a check over the sixty-four squares. *)
Definition sideSettledb (h : Heap) (b : Board) (c0 : Color) : bool :=
  forallb (fun s : Z * Z =>
             match cell b (fst s) (snd s) with
             | Ok (Some ref) =>
                 match deref h ref with
                 | Ok piece =>
                     negb (Color_eqb (color piece) c0) || isLeafPiece piece
                 | Throw _ => true
                 end
             | _ => true
             end) allSquares.

(** A result that is not the engine's stack overflow. *)
Definition mild {A} (r : Res A) : Prop :=
  match r with Throw RangeError => False | _ => True end.

(** A method that leaves the fields of [this] as they are: grid, history,
    captured pieces, en-passant target and clocks. *)
Definition keepsBoard {A} (m : M A) : Prop :=
  forall w, brd (snd (m w)) = brd w.

(** A move that starts on a square of the board [b] holding a piece of
    colour [c0] (read in the store [h]) and ends on the board. *)
Definition movesPieceOf (h : Heap) (b : Board) (c0 : Color) (m : Move) : Prop :=
  exists r k ref piece,
    0 <= r <= 7 /\ 0 <= k <= 7
    /\ fromPos m = mkPosition r k /\ validPos (toPos m)
    /\ cell b r k = Ok (Some ref) /\ deref h ref = Ok piece
    /\ color piece = c0.

(** Two game records that differ in the game state at most. *)
Definition sameTurn (g g' : ChessGame) : Prop :=
  game_board g' = game_board g
  /\ _currentPlayer g' = _currentPlayer g
  /\ _moveCount g' = _moveCount g.

Definition keepsTurn {A} (m : G A) : Prop :=
  forall gw, sameTurn (game gw) (game (snd (m gw))).

(** The promotion piece that [makeMoveFromAlgebraic] takes from its third
    argument: none when the argument is missing or the empty string. *)
Definition promotionChoice (promotion : option JsString) : option PieceType :=
  match promotion with
  | None | Some [] => None
  | Some s => promotionMap (toUpperCase s)
  end.

(** A step that leaves the two move counters as they are. *)
Definition keepsCounters {A} (m : M A) : Prop :=
  forall w,
    _halfMoveClock (brd (snd (m w))) = _halfMoveClock (brd w)
    /\ _fullMoveNumber (brd (snd (m w))) = _fullMoveNumber (brd w).

(** A step that leaves the store, the grid and the two counters as they
    are. *)
Definition keepsPosition {A} (m : M A) : Prop :=
  forall w,
    heap (snd (m w)) = heap w
    /\ _board (brd (snd (m w))) = _board (brd w)
    /\ _halfMoveClock (brd (snd (m w))) = _halfMoveClock (brd w)
    /\ _fullMoveNumber (brd (snd (m w))) = _fullMoveNumber (brd w).

(** The two counters after a move, read off the piece [p] that stands on
    the destination once the move is played and off what stood there
    before. *)
Definition countersAfter (b b' : Board) (p : Piece) (cap : option Ref) : Prop :=
  _halfMoveClock b'
  = (if PieceType_eqb (pieceType p) PAWN
        || match cap with Some _ => true | None => false end
     then 0 else _halfMoveClock b + 1)
  /\ _fullMoveNumber b'
     = (if Color_eqb (color p) BLACK
        then _fullMoveNumber b + 1 else _fullMoveNumber b).

(** On [promotionWorld] the pawn goes from e7 to e8 and becomes a queen. *)
Definition e7e8Q : Move := mkMove (sq 1 4) (sq 0 4) (Some QUEEN) false false.

Definition afterPromotion : World := snd (Board_makeMove 0 e7e8Q promotionWorld).

(** A position with pieces of both sides about: White rook d4, knight c3
    and pawn d6, Black bishop b4 and pawn g4; both kings have moved. *)
Definition skirmishWorld : World :=
  arrange [(7, 4, mkPiece WHITE KING true);
           (0, 4, mkPiece BLACK KING true);
           (4, 3, mkPiece WHITE ROOK true);
           (4, 6, mkPiece BLACK PAWN true);
           (2, 3, mkPiece WHITE PAWN true);
           (5, 2, mkPiece WHITE KNIGHT true);
           (4, 1, mkPiece BLACK BISHOP true)].



(** A pawn going two rows. *)
Definition isDoublePush (piece : Piece) (move : Move) : bool :=
  PieceType_eqb (pieceType piece) PAWN && spansTwoRows move.

(** The square named by the en-passant target holds nothing. *)
Definition epTargetEmpty (b : Board) : Prop :=
  forall q, _enPassantTarget b = Some q -> getPiece b q = Ok None.

(** Every piece of [h] is still there in [h'], with its colour and class;
    only the [hasMoved] flag may differ. *)
Definition samePieces (h h' : Heap) : Prop :=
  forall r p, deref h r = Ok p ->
    exists moved, deref h' r = Ok (mkPiece (color p) (pieceType p) moved).

Definition keepsPieces {A} (m : M A) : Prop :=
  forall w, samePieces (heap w) (heap (snd (m w))).

(** The generator that a king's generator run at depth [n] calls back
    into, through [isInCheck] and [isPositionUnderAttack]. *)
Definition nested (n : nat) : Generator :=
  match n with O => overflow | S n' => getPossibleMoves n' end.

(** An unmoved rook of colour [c0] stands on row [r], file [k]. *)
Definition unmovedRookOn (h : Heap) (b : Board) (c0 : Color) (r k : Z)
  : Prop :=
  exists ref rook,
    getPiece b (mkPosition r k) = Ok (Some ref) /\ deref h ref = Ok rook
    /\ pieceType rook = ROOK /\ color rook = c0 /\ hasMoved rook = false.

(** What castling asks for, for the king [self] on row [r], file [c] and
    the castling move [m]: the king has not moved and its square is not
    attacked; [m] goes to file 6 with the rook on file 7, or to file 2 with
    the rook on file 0; the rook is an unmoved rook of the king's colour;
    the squares between king and rook are empty; the squares the king
    crosses, the one it arrives on included, are not attacked. Attacks are
    judged with the generator [g]. *)
Definition castlingDue (g : Generator) (h : Heap) (b : Board) (self : Piece)
           (r c : Z) (m : Move) : Prop :=
  let free k := getPiece b (mkPosition r k) = Ok None in
  let safe k :=
    isPositionUnderAttack_ g h b (mkPosition r k) (color self) = Ok false in
  fromPos m = mkPosition r c
  /\ hasMoved self = false
  /\ safe c
  /\ ((toPos m = mkPosition r 6
       /\ unmovedRookOn h b (color self) r 7
       /\ (forall k, c < k < 7 -> free k)
       /\ (forall k, c < k <= 6 -> safe k))
      \/ (toPos m = mkPosition r 2
          /\ unmovedRookOn h b (color self) r 0
          /\ (forall k, 0 < k < c -> free k)
          /\ (forall k, 2 <= k < c -> safe k))).

(** A board with an unmoved White rook on h1 and the (moved) Black king on
    a8; e1, f1 and g1 are empty. *)
Definition rookOnlyWorld : World :=
  arrange [(7, 7, mkPiece WHITE ROOK false);
           (0, 0, mkPiece BLACK KING true)].

Definition e1g1 : Move := mkMove (sq 7 4) (sq 7 6) None true false.

(** Both kings have moved; White's pawns stand unmoved on d2 and e2. *)
Definition ownStepWorld : World :=
  arrange [(7, 4, mkPiece WHITE KING true);
           (6, 4, mkPiece WHITE PAWN false);
           (6, 3, mkPiece WHITE PAWN false);
           (0, 4, mkPiece BLACK KING true)].

(** The board after [makeMove(e2-e4)] on it. *)
Definition afterOwnStep : World := snd (Board_makeMove 0 e2e4 ownStepWorld).

(** White's d-pawn takes "in passing" on e3, behind White's own e-pawn. *)
Definition d2e3 : Move := mkMove (sq 6 3) (sq 5 4) None false true.

(** The moves of a piece from its square with the king's castling left
    out; no generator calls another for these. *)
Definition ownSteps (h : Heap) (b : Board) (piece : Piece) (pos : Position)
  : Res (list Move) :=
  if PieceType_eqb (pieceType piece) KING
  then leap h b piece pos kingDirections
  else getPossibleMoves 0 h b piece pos.

(** No piece of colour [c0] on the board has such a move onto [position]. *)
Definition outOfReach (h : Heap) (b : Board) (c0 : Color)
           (position : Position) : bool :=
  forallb
    (fun s : Z * Z =>
       match cell b (fst s) (snd s) with
       | Ok None => true
       | Ok (Some ref) =>
           match deref h ref with
           | Ok piece =>
               if Color_eqb (color piece) c0 then
                 match ownSteps h b piece (mkPosition (fst s) (snd s)) with
                 | Ok ms =>
                     negb (existsb
                             (fun m => Position_equals (toPos m) position) ms)
                 | Throw _ => false
                 end
               else true
           | Throw _ => false
           end
       | Throw _ => false
       end)
    allSquares.

(* ===================================================================== *)
(** * Properties *)
(* ===================================================================== *)

(** ** Algebraic notation *)

Lemma parseInt10_digit (c : Z) :
  48 <= c <= 57 -> parseInt10 [c] = Num (c - 48).
Proof.
  intros Hc.
  assert (c = 48 \/ c = 49 \/ c = 50 \/ c = 51 \/ c = 52 \/ c = 53
          \/ c = 54 \/ c = 55 \/ c = 56 \/ c = 57) as Hcases by lia.
  repeat (destruct Hcases as [-> | Hcases]; [reflexivity |]).
  subst c. reflexivity.
Qed.

Lemma numberToString_digit (d : Z) :
  0 <= d <= 9 -> numberToString (Num d) = [48 + d].
Proof.
  intros Hd.
  assert (d = 0 \/ d = 1 \/ d = 2 \/ d = 3 \/ d = 4 \/ d = 5
          \/ d = 6 \/ d = 7 \/ d = 8 \/ d = 9) as Hcases by lia.
  repeat (destruct Hcases as [-> | Hcases]; [reflexivity |]).
  subst d. reflexivity.
Qed.

Lemma Position_new_valid (r c : Z) :
  0 <= r <= 7 -> 0 <= c <= 7 ->
  Position_new (Num r) (Num c) = Ok (mkPosition (Num r) (Num c)).
Proof.
  intros Hr Hc. unfold Position_new, jgt, jlt.
  replace (r <? 0) with false by (symmetry; apply Z.ltb_ge; lia).
  replace (7 <? r) with false by (symmetry; apply Z.ltb_ge; lia).
  replace (c <? 0) with false by (symmetry; apply Z.ltb_ge; lia).
  replace (7 <? c) with false by (symmetry; apply Z.ltb_ge; lia).
  reflexivity.
Qed.

Lemma Position_new_bad_col (r : JsNum) (c : Z) :
  ~ 0 <= c <= 7 -> Position_new r (Num c) = Throw InvalidPosition.
Proof.
  intros Hc. unfold Position_new.
  assert (jlt (Num c) 0 || jgt (Num c) 7 = true) as Hbad.
  { unfold jgt, jlt. apply orb_true_iff.
    destruct (Z.ltb_spec c 0); [now left |].
    right. apply Z.ltb_lt. lia. }
  destruct (jlt r 0); [reflexivity |].
  destruct (jgt r 7); [reflexivity |].
  cbn [orb]. now rewrite Hbad.
Qed.

Lemma Position_new_bad_row (r c : Z) :
  ~ 0 <= r <= 7 -> Position_new (Num r) (Num c) = Throw InvalidPosition.
Proof.
  intros Hr. unfold Position_new, jgt, jlt.
  destruct (Z.ltb_spec r 0); [reflexivity |].
  destruct (Z.ltb_spec 7 r); [reflexivity | lia].
Qed.

Lemma fromAlgebraic_two (f r : Z) :
  fromAlgebraic [f; r] = Position_new (jsub 8 (parseInt10 [r])) (Num (f - 97)).
Proof. reflexivity. Qed.

(** The parse of a lower-case file letter and a rank digit. *)
Lemma fromAlgebraic_square (f r : Z) :
  97 <= f <= 104 -> 49 <= r <= 56 ->
  fromAlgebraic [f; r] = Ok (sq (8 - (r - 48)) (f - 97)).
Proof.
  intros Hf Hr. rewrite fromAlgebraic_two, parseInt10_digit by lia.
  cbn [jsub]. apply Position_new_valid; lia.
Qed.

(** What [parseInt] leaves through: a second unit that is no digit makes
    the row [NaN], which passes every comparison of the constructor. *)
Example fromAlgebraic_no_digit :
  fromAlgebraic (str "a?") = Ok (mkPosition NaN (Num 0)).
Proof. reflexivity. Qed.

(** C5, as the claim states it, fails: an upper-case file letter is
    refused where the lower-case one is read. *)
Lemma fromAlgebraic_upper_case_refused :
  fromAlgebraic (str "a1") = Ok (sq 7 0)
  /\ fromAlgebraic (str "A1") = Throw InvalidPosition.
Proof. split; reflexivity. Qed.

(** C5 (amended): [fromAlgebraic] reads a lower-case file letter a-h
    followed by a rank digit 1-8 as the square with [col] the file index and
    [row] 8 minus the rank; it throws on an input of another length, on a
    first unit outside a-h (the upper-case letters among them) and on the
    rank digits 0 and 9; and it is the inverse of [toAlgebraic] on every
    valid square, in both directions. *)
Theorem fromAlgebraic_spec :
  (forall f r : Z, 97 <= f <= 104 -> 49 <= r <= 56 ->
     fromAlgebraic [f; r] = Ok (sq (8 - (r - 48)) (f - 97)))
  /\ (forall s : JsString, length s <> 2%nat ->
        fromAlgebraic s = Throw InvalidNotation)
  /\ (forall f r : Z, ~ 97 <= f <= 104 ->
        fromAlgebraic [f; r] = Throw InvalidPosition)
  /\ (forall f r : Z, r = 48 \/ r = 57 ->
        fromAlgebraic [f; r] = Throw InvalidPosition)
  /\ (forall p : Position, validPos p ->
        fromAlgebraic (toAlgebraic p) = Ok p)
  /\ (forall (f r : Z) (p : Position), 97 <= f <= 104 -> 49 <= r <= 56 ->
        fromAlgebraic [f; r] = Ok p -> validPos p /\ toAlgebraic p = [f; r]).
Proof.
  split; [exact fromAlgebraic_square |].
  split.
  { intros s Hlen. unfold fromAlgebraic.
    destruct (Nat.eqb_spec (length s) 2); [contradiction | reflexivity]. }
  split.
  { intros f r Hf. rewrite fromAlgebraic_two.
    apply Position_new_bad_col. lia. }
  split.
  { intros f r [-> | ->]; rewrite fromAlgebraic_two.
    - change (parseInt10 [48]) with (Num 0). cbn [jsub].
      apply Position_new_bad_row. lia.
    - change (parseInt10 [57]) with (Num 9). cbn [jsub].
      apply Position_new_bad_row. lia. }
  split.
  { intros p (r & c & -> & Hr & Hc). unfold toAlgebraic.
    cbn [row col jadd jsub].
    rewrite numberToString_digit by lia. cbn [fromCharCode app].
    rewrite Z.mod_small by lia.
    rewrite fromAlgebraic_square by lia.
    unfold sq. repeat f_equal; lia. }
  intros f r p Hf Hr Hp.
  rewrite fromAlgebraic_square in Hp by lia. injection Hp as <-.
  split.
  - exists (8 - (r - 48)), (f - 97). repeat split; lia.
  - unfold toAlgebraic, sq. cbn [row col jadd jsub].
    rewrite numberToString_digit by lia. cbn [fromCharCode app].
    rewrite Z.mod_small by lia. repeat f_equal; lia.
Qed.

Lemma fromAlgebraic_spec_witness :
  fromAlgebraic (str "e4") = Ok (sq 4 4)
  /\ fromAlgebraic (str "e") = Throw InvalidNotation
  /\ fromAlgebraic (str "i9") = Throw InvalidPosition
  /\ fromAlgebraic (toAlgebraic (sq 4 4)) = Ok (sq 4 4).
Proof.
  destruct fromAlgebraic_spec as (Hsq & Hlen & Hfile & _ & Hinv & _).
  split; [| split; [| split]].
  - apply (Hsq 101 52); lia.
  - apply Hlen. cbn. lia.
  - apply (Hfile 105 57). lia.
  - apply Hinv. exists 4, 4. repeat split; lia.
Defined.

(** ** The call chain between the two kings *)

Lemma getPossibleMoves_leaf (n : nat) h b (p : Piece) pos :
  isLeafPiece p = true ->
  getPossibleMoves n h b p pos = getPossibleMoves 0 h b p pos.
Proof.
  unfold isLeafPiece. intros Hleaf.
  destruct n as [| n]; [reflexivity |].
  cbn [getPossibleMoves].
  destruct (pieceType p) eqn:Hpt.
  1-5: reflexivity.
  cbn [PieceType_eqb negb orb] in Hleaf.
  unfold King_getPossibleMoves. rewrite Hleaf. cbn [negb]. reflexivity.
Qed.

Lemma attackScan_toKing (n : nat) h b position opp squares :
  attackScan (getPossibleMoves n) h b position opp squares =
  match attackScanToKing h b position opp squares with
  | Decided r => r
  | AtKing king pos rest =>
      let* ms := getPossibleMoves n h b king pos in
      if existsb (fun m => Position_equals (toPos m) position) ms
      then Ok true
      else attackScan (getPossibleMoves n) h b position opp rest
  end.
Proof.
  induction squares as [| [r c] rest IH]; [reflexivity |].
  cbn [attackScan attackScanToKing].
  destruct (cell b r c) as [[ref |] | e]; cbn [rbind];
    [| exact IH | reflexivity].
  destruct (deref h ref) as [piece | e]; cbn [rbind]; [| reflexivity].
  destruct (Color_eqb (color piece) opp); [| exact IH].
  destruct (Position_new r c) as [pos | e]; cbn [rbind]; [| reflexivity].
  destruct (isLeafPiece piece) eqn:Hleaf; [| reflexivity].
  rewrite getPossibleMoves_leaf by exact Hleaf.
  destruct (getPossibleMoves 0 h b piece pos) as [ms | e]; cbn [rbind];
    [| reflexivity].
  destruct (existsb _ ms); [reflexivity | exact IH].
Qed.

(** An unmoved king's generator passes on what [isInCheck] throws. *)
Lemma King_unmoved_throws (n : nat) h b (k : Piece) pos e :
  pieceType k = KING -> hasMoved k = false ->
  (exists adj, leap h b k pos kingDirections = Ok adj) ->
  isInCheck n h b (color k) = Throw e ->
  getPossibleMoves (S n) h b k pos = Throw e.
Proof.
  intros Hk Hm [adj Hadj] Hchk.
  cbn [getPossibleMoves]. rewrite Hk. unfold King_getPossibleMoves.
  rewrite Hadj, Hm. cbn [rbind negb].
  unfold isInCheck in Hchk. rewrite Hchk. reflexivity.
Qed.

Section MutualCheck.
Variables (h : Heap) (b : Board).
Variables (whiteKingPos blackKingPos : Position).
Variables (whiteKing blackKing : Piece).
Variables (restW restB : list (Z * Z)).

Hypothesis white_found : findKing h b WHITE = Ok (Some whiteKingPos).
Hypothesis black_found : findKing h b BLACK = Ok (Some blackKingPos).
Hypothesis white_scan :
    attackScanToKing h b whiteKingPos BLACK allSquares
    = AtKing blackKing blackKingPos restW.
Hypothesis black_scan :
    attackScanToKing h b blackKingPos WHITE allSquares
    = AtKing whiteKing whiteKingPos restB.
Hypothesis white_king :
    pieceType whiteKing = KING /\ hasMoved whiteKing = false
    /\ color whiteKing = WHITE
    /\ exists adj, leap h b whiteKing whiteKingPos kingDirections = Ok adj.
Hypothesis black_king :
    pieceType blackKing = KING /\ hasMoved blackKing = false
    /\ color blackKing = BLACK
    /\ exists adj, leap h b blackKing blackKingPos kingDirections = Ok adj.
Hypothesis depth0 :
    isInCheck 0 h b WHITE = Throw RangeError
    /\ isInCheck 0 h b BLACK = Throw RangeError.

Lemma isInCheck_white_step (n : nat) :
    isInCheck n h b WHITE =
    let* ms := getPossibleMoves n h b blackKing blackKingPos in
    if existsb (fun m => Position_equals (toPos m) whiteKingPos) ms
    then Ok true
    else attackScan (getPossibleMoves n) h b whiteKingPos BLACK restW.
Proof.
    unfold isInCheck, isInCheck_.
    rewrite white_found. cbn [rbind].
    unfold isPositionUnderAttack_.
    rewrite attackScan_toKing, white_scan. reflexivity.
Qed.

Lemma isInCheck_black_step (n : nat) :
    isInCheck n h b BLACK =
    let* ms := getPossibleMoves n h b whiteKing whiteKingPos in
    if existsb (fun m => Position_equals (toPos m) blackKingPos) ms
    then Ok true
    else attackScan (getPossibleMoves n) h b blackKingPos WHITE restB.
Proof.
    unfold isInCheck, isInCheck_.
    rewrite black_found. cbn [rbind].
    unfold isPositionUnderAttack_.
    rewrite attackScan_toKing, black_scan. reflexivity.
Qed.

  (** Whatever depth is allowed, the two kings use it up. *)
Lemma mutual_check_unbounded (n : nat) :
    isInCheck n h b WHITE = Throw RangeError
    /\ isInCheck n h b BLACK = Throw RangeError.
Proof.
    induction n as [| n [IHw IHb]]; [exact depth0 |].
    destruct white_king as (Hwk & Hwm & Hwc & Hwadj).
    destruct black_king as (Hbk & Hbm & Hbc & Hbadj).
    split.
    - rewrite isInCheck_white_step.
      rewrite (King_unmoved_throws n h b blackKing blackKingPos RangeError
                 Hbk Hbm Hbadj); [reflexivity |].
      rewrite Hbc. exact IHb.
    - rewrite isInCheck_black_step.
      rewrite (King_unmoved_throws n h b whiteKing whiteKingPos RangeError
                 Hwk Hwm Hwadj); [reflexivity |].
      rewrite Hwc. exact IHw.
Qed.
End MutualCheck.

(** *** The initial position *)

Lemma initial_kings_unbounded (n : nat) :
  isInCheck n (heap initialWorld) (brd initialWorld) WHITE = Throw RangeError
  /\ isInCheck n (heap initialWorld) (brd initialWorld) BLACK = Throw RangeError.
Proof.
  apply (mutual_check_unbounded (heap initialWorld) (brd initialWorld)
           (sq 7 4) (sq 0 4) (mkPiece WHITE KING false) (mkPiece BLACK KING false)
           (skipn 5 allSquares) (skipn 61 allSquares)).
  all: vm_compute; repeat split; eauto.
Qed.

(** What [wouldBeInCheckAfterMove] does once the move is played on the copy. *)
Lemma wouldBeInCheckAfterMove_simulate (n : nat) (m : Move) (c : Color) (w : World) :
  wouldBeInCheckAfterMove n m c w =
  match simulate m w with
  | (Ok (_, played), w1) => (isInCheck n (heap w1) played c, w1)
  | (Throw e, w1) => (Throw e, w1)
  end.
Proof.
  unfold wouldBeInCheckAfterMove, simulate, mbind.
  destruct (deepCopy w) as [[boardCopy | e] w0]; [| reflexivity].
  destruct (onBoard boardCopy (executeMove m) w0) as [[[u played] | e] w1];
    reflexivity.
Qed.

Lemma wouldBeInCheckAfterMove_throws (n : nat) (m : Move) (c : Color)
      (w : World) (e : Exn) :
  (exists u played w1, simulate m w = (Ok (u, played), w1)) ->
  isInCheck n (heap (simulated m w)) (brd (simulated m w)) c = Throw e ->
  fst (wouldBeInCheckAfterMove n m c w) = Throw e.
Proof.
  intros (u & played & w1 & Hsim) Hchk.
  rewrite wouldBeInCheckAfterMove_simulate.
  unfold simulated in Hchk. rewrite Hsim in *. cbn [heap brd] in Hchk.
  cbn [fst]. exact Hchk.
Qed.

Lemma findKing_isInCheck (n : nat) h b (c : Color) (kp : Position) :
  findKing h b c = Ok (Some kp) ->
  isInCheck n h b c = isPositionUnderAttack n h b kp c.
Proof.
  intros Hking. unfold isInCheck, isInCheck_. rewrite Hking. reflexivity.
Qed.

Lemma legalScan_passed (n : nat) (c : Color) (w : World) pre rest :
  forallb (passedOver c w) pre = true ->
  legalScan n c (pre ++ rest) w = legalScan n c rest w.
Proof.
  induction pre as [| [r k] pre IH]; [reflexivity |].
  cbn [forallb app legalScan]. intros [Hhere Hpre]%andb_true_iff.
  unfold passedOver in Hhere. cbn [fst snd] in Hhere.
  unfold mbind at 1, query at 1. cbn [heap brd].
  destruct (cell (brd w) r k) as [[ref |] | e]; [| now apply IH | discriminate].
  unfold mbind at 1, query at 1.
  destruct (deref (heap w) ref) as [p | e]; [| discriminate].
  apply negb_true_iff in Hhere. rewrite Hhere. now apply IH.
Qed.

(** The scan ends with the first candidate move whose simulation throws. *)
Lemma legalScan_throws (n : nat) (c : Color) (w : World) (r k : Z) rest
      ref piece pos m ms e :
  cell (brd w) r k = Ok (Some ref) ->
  deref (heap w) ref = Ok piece ->
  Color_eqb (color piece) c = true ->
  Position_new r k = Ok pos ->
  getPossibleMoves n (heap w) (brd w) piece pos = Ok (m :: ms) ->
  fst (wouldBeInCheckAfterMove n m c w) = Throw e ->
  fst (legalScan n c ((r, k) :: rest) w) = Throw e.
Proof.
  intros Hcell Hderef Hcol Hpos Hgen Hsim.
  cbn [legalScan]. unfold mbind at 1, query at 1. rewrite Hcell.
  unfold mbind at 1, query at 1. rewrite Hderef, Hcol.
  unfold mbind at 1, liftR at 1. rewrite Hpos.
  unfold mbind at 1, query at 1. rewrite Hgen.
  unfold mbind at 1. cbn [keepLegal]. unfold mbind at 1.
  destruct (wouldBeInCheckAfterMove n m c w) as [[chk | e'] w1];
    cbn [fst] in Hsim; [discriminate |].
  cbn [fst]. now injection Hsim as ->.
Qed.

(** After a2-a3 is played on the copy, the kings still call each other. *)
Lemma after_a2a3_unbounded (n : nat) :
  isInCheck n (heap (simulated a2a3 initialWorld))
            (brd (simulated a2a3 initialWorld)) WHITE = Throw RangeError.
Proof.
  refine (proj1 (mutual_check_unbounded _ _
           (sq 7 4) (sq 0 4) (mkPiece WHITE KING false) (mkPiece BLACK KING false)
           (skipn 5 allSquares) (skipn 61 allSquares) _ _ _ _ _ _ _ n)).
  all: vm_compute; repeat split; eauto.
Qed.

Lemma simulate_a2a3 :
  exists u played w1, simulate a2a3 initialWorld = (Ok (u, played), w1).
Proof. vm_compute. eauto. Qed.

Lemma getAllLegalMoves_initial_unbounded (n : nat) :
  fst (getAllLegalMoves n WHITE initialWorld) = Throw RangeError.
Proof.
  unfold getAllLegalMoves.
  change allSquares with (firstn 48 allSquares ++ skipn 48 allSquares).
  rewrite legalScan_passed by (vm_compute; reflexivity).
  change (skipn 48 allSquares) with ((6, 0) :: skipn 49 allSquares).
  apply (legalScan_throws n WHITE initialWorld 6 0 _ 1%nat
           (mkPiece WHITE PAWN false) (sq 6 0) a2a3
           [plainMove (sq 6 0) (sq 4 0)]).
  - vm_compute. reflexivity.
  - vm_compute. reflexivity.
  - reflexivity.
  - vm_compute. reflexivity.
  - rewrite getPossibleMoves_leaf by reflexivity. vm_compute. reflexivity.
  - apply wouldBeInCheckAfterMove_throws;
      [exact simulate_a2a3 | exact (after_a2a3_unbounded n)].
Qed.

Lemma isMoveValid_leaf (n : nat) h b (p : Piece) (m : Move) :
  isLeafPiece p = true -> isMoveValid n h b p m = isMoveValid 0 h b p m.
Proof.
  intros Hleaf. unfold isMoveValid.
  now rewrite getPossibleMoves_leaf by exact Hleaf.
Qed.

(** [Board.makeMove] on a valid move ends as the simulation does when that throws. *)
Lemma Board_makeMove_simulation_throws (n : nat) (m : Move) (w : World) r p e :
  getPiece (brd w) (fromPos m) = Ok (Some r) ->
  deref (heap w) r = Ok p ->
  isMoveValid n (heap w) (brd w) p m = Ok true ->
  fst (wouldBeInCheckAfterMove n m (color p) w) = Throw e ->
  fst (Board_makeMove n m w) = Throw e.
Proof.
  intros Hget Hderef Hvalid Hsim.
  unfold Board_makeMove.
  unfold mbind at 1, Board_getPiece, query at 1. rewrite Hget.
  unfold mbind at 1, query at 1. rewrite Hderef.
  unfold mbind at 1, query at 1. rewrite Hvalid. cbn [negb].
  unfold mbind at 1.
  destruct (wouldBeInCheckAfterMove n m (color p) w) as [[chk | e'] w1];
    cbn [fst] in Hsim; [discriminate |].
  cbn [fst]. now injection Hsim as ->.
Qed.

Lemma after_e2e4_unbounded (n : nat) :
  isInCheck n (heap (simulated e2e4 initialWorld))
            (brd (simulated e2e4 initialWorld)) WHITE = Throw RangeError.
Proof.
  refine (proj1 (mutual_check_unbounded _ _
           (sq 7 4) (sq 0 4) (mkPiece WHITE KING false) (mkPiece BLACK KING false)
           (skipn 5 allSquares) (skipn 61 allSquares) _ _ _ _ _ _ _ n)).
  all: vm_compute; repeat split; eauto.
Qed.

Lemma simulate_e2e4 :
  exists u played w1, simulate e2e4 initialWorld = (Ok (u, played), w1).
Proof. vm_compute. eauto. Qed.

Lemma Board_makeMove_initial_unbounded (n : nat) :
  fst (Board_makeMove n e2e4 initialWorld) = Throw RangeError.
Proof.
  apply (Board_makeMove_simulation_throws n e2e4 initialWorld 9%nat
           (mkPiece WHITE PAWN false)).
  - vm_compute. reflexivity.
  - vm_compute. reflexivity.
  - rewrite isMoveValid_leaf by reflexivity. vm_compute. reflexivity.
  - apply wouldBeInCheckAfterMove_throws;
      [exact simulate_e2e4 | exact (after_e2e4_unbounded n)].
Qed.

Lemma isPositionUnderAttack_initial_unbounded (n : nat) :
  isPositionUnderAttack n (heap initialWorld) (brd initialWorld) (sq 7 4) WHITE
  = Throw RangeError.
Proof.
  rewrite <- (findKing_isInCheck n _ _ WHITE (sq 7 4))
    by (vm_compute; reflexivity).
  exact (proj1 (initial_kings_unbounded n)).
Qed.

(** C1 fails on the code. On the board that [new Board()] builds, each of
    [isInCheck], [isPositionUnderAttack], [getAllLegalMoves] and [makeMove]
    uses up every call depth [n] it is given: the unmoved white king's
    generator asks whether White is in check, which runs the unmoved black
    king's generator, which asks whether Black is in check, and so on. No
    call returns; each ends in the engine's [RangeError]. *)
Theorem initial_position_calls_never_return :
  forall n : nat,
    isInCheck n (heap initialWorld) (brd initialWorld) WHITE = Throw RangeError
    /\ isInCheck n (heap initialWorld) (brd initialWorld) BLACK = Throw RangeError
    /\ isPositionUnderAttack n (heap initialWorld) (brd initialWorld)
         (sq 7 4) WHITE = Throw RangeError
    /\ fst (getAllLegalMoves n WHITE initialWorld) = Throw RangeError
    /\ fst (Board_makeMove n e2e4 initialWorld) = Throw RangeError.
Proof.
  intros n.
  destruct (initial_kings_unbounded n) as [Hw Hb].
  repeat split.
  - exact Hw.
  - exact Hb.
  - apply isPositionUnderAttack_initial_unbounded.
  - apply getAllLegalMoves_initial_unbounded.
  - apply Board_makeMove_initial_unbounded.
Qed.

(** C6 fails on the code: on the initial position [getAllLegalMoves(White)]
    returns no list at all. The scan reaches the a2 pawn, plays a2-a3 on the
    copy and asks whether White is in check there, and that question never
    comes back, at any call depth. *)
Theorem getAllLegalMoves_initial_returns_no_list :
  forall n : nat,
    fst (getAllLegalMoves n WHITE initialWorld) = Throw RangeError
    /\ forall moves : list Move,
         fst (getAllLegalMoves n WHITE initialWorld) <> Ok moves.
Proof.
  intros n. rewrite getAllLegalMoves_initial_unbounded.
  split; [reflexivity | discriminate].
Qed.

(** ** The legality filter and the live board *)

Lemma deepCopy_spec (w : World) :
  exists h', deepCopy w = (Ok (brd w), mkWorld h' (brd w)).
Proof.
  unfold deepCopy. destruct (Board_new (heap w)) as [fresh h'].
  exists h'. destruct (brd w) as [g hist capt ep hm fm]. cbn.
  now rewrite map_id.
Qed.

Lemma simulate_board (m : Move) (w : World) :
  brd (snd (simulate m w)) = brd w.
Proof.
  unfold simulate, mbind.
  destruct (deepCopy_spec w) as [h' ->].
  unfold onBoard. cbn [heap brd].
  destruct (executeMove m _) as [[u | e] w']; reflexivity.
Qed.

(** The board record of [this] (grid, history, captured list, en-passant
    target, clocks) is the same after the simulation: only the store is
    shared with the copy. *)
Lemma wouldBeInCheckAfterMove_board (n : nat) (m : Move) (c : Color) (w : World) :
  brd (snd (wouldBeInCheckAfterMove n m c w)) = brd w.
Proof.
  rewrite wouldBeInCheckAfterMove_simulate.
  pose proof (simulate_board m w) as Hb.
  destruct (simulate m w) as [[[u played] | e] w1]; exact Hb.
Qed.

Lemma wouldBeInCheckAfterMove_simulated (n : nat) (m : Move) (c : Color)
      (w : World) :
  (exists u played w1, simulate m w = (Ok (u, played), w1)) ->
  wouldBeInCheckAfterMove n m c w =
  (isInCheck n (heap (simulated m w)) (brd (simulated m w)) c,
   mkWorld (heap (simulated m w)) (brd w)).
Proof.
  intros (u & played & w1 & Hsim).
  rewrite wouldBeInCheckAfterMove_simulate.
  pose proof (simulate_board m w) as Hb.
  unfold simulated. rewrite Hsim in *. cbn [heap brd snd] in *.
  destruct w1 as [h1 b1]. cbn [heap brd] in *. now subst b1.
Qed.

(** When the scan meets no unmoved king, the answer is the same at every depth. *)
Lemma isInCheck_decided (n : nat) h b (c : Color) (kp : Position) (r : Res bool) :
  findKing h b c = Ok (Some kp) ->
  attackScanToKing h b kp (opposite c) allSquares = Decided r ->
  isInCheck n h b c = r.
Proof.
  intros Hking Hscan. unfold isInCheck, isInCheck_. rewrite Hking. cbn [rbind].
  unfold isPositionUnderAttack_.
  replace (match c with WHITE => BLACK | BLACK => WHITE end) with (opposite c)
    by now destruct c.
  now rewrite attackScan_toKing, Hscan.
Qed.

Lemma Board_makeMove_in_check (n : nat) (m : Move) (w w1 : World) r p :
  getPiece (brd w) (fromPos m) = Ok (Some r) ->
  deref (heap w) r = Ok p ->
  isMoveValid n (heap w) (brd w) p m = Ok true ->
  wouldBeInCheckAfterMove n m (color p) w = (Ok true, w1) ->
  Board_makeMove n m w = (Ok false, w1).
Proof.
  intros Hget Hderef Hvalid Hsim.
  unfold Board_makeMove.
  unfold mbind at 1, Board_getPiece, query at 1. rewrite Hget.
  unfold mbind at 1, query at 1. rewrite Hderef.
  unfold mbind at 1, query at 1. rewrite Hvalid. cbn [negb].
  unfold mbind at 1. rewrite Hsim. reflexivity.
Qed.

Lemma onGameBoard_query {A} (f : Heap -> Board -> Res A) (gw : GameWorld) :
  onGameBoard (query f) gw = (f (gheap gw) (game_board (game gw)), gw).
Proof. destruct gw as [h [b pl st mc]]. reflexivity. Qed.

(** [ChessGame.makeMove] hands back the refusal of [Board.makeMove], and
    the state that call left. *)
Lemma ChessGame_makeMove_refused (n : nat) (m : Move) (gw : GameWorld)
      (w1 : World) r p :
  _gameState (game gw) = ONGOING \/ _gameState (game gw) = CHECK ->
  getPiece (game_board (game gw)) (fromPos m) = Ok (Some r) ->
  deref (gheap gw) r = Ok p ->
  color p = _currentPlayer (game gw) ->
  Board_makeMove n m (mkWorld (gheap gw) (game_board (game gw))) = (Ok false, w1) ->
  ChessGame_makeMove n m gw
  = (Ok false, mkGameWorld (heap w1) (withBoard (game gw) (brd w1))).
Proof.
  intros Hstate Hget Hderef Hcol Hmove.
  unfold ChessGame_makeMove.
  unfold gbind at 1, gread at 1.
  replace (negb (GameState_eqb (_gameState (game gw)) ONGOING)
           && negb (GameState_eqb (_gameState (game gw)) CHECK)) with false
    by (destruct Hstate as [-> | ->]; reflexivity).
  unfold gbind at 1, Board_getPiece. rewrite onGameBoard_query, Hget.
  unfold gbind at 1, gread at 1.
  unfold gbind at 1. rewrite onGameBoard_query, Hderef. cbn [rbind].
  rewrite Hcol.
  replace (Color_eqb (_currentPlayer (game gw)) (_currentPlayer (game gw)))
    with true by now destruct (_currentPlayer (game gw)).
  cbn [negb]. unfold gbind at 1, onGameBoard at 1. rewrite Hmove. reflexivity.
Qed.

(** *** A legal candidate: a2-a3 with both kings moved *)

Lemma quiet_simulation (n : nat) :
  wouldBeInCheckAfterMove n a2a3 WHITE quietWorld
  = (Ok false, mkWorld (heap (simulated a2a3 quietWorld)) (brd quietWorld)).
Proof.
  rewrite wouldBeInCheckAfterMove_simulated by (vm_compute; eauto).
  rewrite (isInCheck_decided n _ _ WHITE (sq 7 4) (Ok false));
    [reflexivity | vm_compute; reflexivity ..].
Qed.

(** C2 fails on the code. The copy that [deepCopy] makes is independent in
    its arrays and counters only: for every move and board the record of the
    live board is the same after the simulation. The [Piece] objects are
    shared, so playing a candidate on the copy marks the live piece as
    moved. Here a2-a3 is only tested, never made: the pawn still stands on
    a2 of the live board, yet its flag has flipped and its double step is
    no longer generated. *)
Theorem simulation_marks_the_live_piece :
  (forall (n : nat) (m : Move) (c : Color) (w : World),
      brd (snd (wouldBeInCheckAfterMove n m c w)) = brd w)
  /\ forall n : nat,
       let after := snd (wouldBeInCheckAfterMove n a2a3 WHITE quietWorld) in
       fst (wouldBeInCheckAfterMove n a2a3 WHITE quietWorld) = Ok false
       /\ getPiece (brd after) (sq 6 0) = Ok (Some 1%nat)
       /\ deref (heap quietWorld) 1%nat = Ok (mkPiece WHITE PAWN false)
       /\ deref (heap after) 1%nat = Ok (mkPiece WHITE PAWN true)
       /\ getPossibleMoves n (heap quietWorld) (brd quietWorld)
            (mkPiece WHITE PAWN false) (sq 6 0)
          = Ok [plainMove (sq 6 0) (sq 5 0); plainMove (sq 6 0) (sq 4 0)]
       /\ getPossibleMoves n (heap after) (brd after)
            (mkPiece WHITE PAWN true) (sq 6 0)
          = Ok [plainMove (sq 6 0) (sq 5 0)].
Proof.
  split; [exact wouldBeInCheckAfterMove_board |].
  intros n after. subst after. rewrite quiet_simulation. cbn [fst snd].
  rewrite (getPossibleMoves_leaf n _ _ (mkPiece WHITE PAWN false)) by reflexivity.
  rewrite (getPossibleMoves_leaf n _ _ (mkPiece WHITE PAWN true)) by reflexivity.
  repeat match goal with |- _ /\ _ => split end; vm_compute; reflexivity.
Qed.

(** *** A refused move: the pinned pawn *)

Lemma pinned_simulation (n : nat) :
  wouldBeInCheckAfterMove n d2d3 WHITE pinnedPawnWorld
  = (Ok true,
     mkWorld (heap (simulated d2d3 pinnedPawnWorld)) (brd pinnedPawnWorld)).
Proof.
  rewrite wouldBeInCheckAfterMove_simulated by (vm_compute; eauto).
  rewrite (isInCheck_decided n _ _ WHITE (sq 7 4) (Ok true));
    [reflexivity | vm_compute; reflexivity ..].
Qed.

Lemma pinned_Board_makeMove (n : nat) :
  Board_makeMove n d2d3 pinnedPawnWorld
  = (Ok false,
     mkWorld (heap (simulated d2d3 pinnedPawnWorld)) (brd pinnedPawnWorld)).
Proof.
  apply (Board_makeMove_in_check n d2d3 pinnedPawnWorld _ 1%nat
           (mkPiece WHITE PAWN false)).
  - vm_compute. reflexivity.
  - vm_compute. reflexivity.
  - rewrite isMoveValid_leaf by reflexivity. vm_compute. reflexivity.
  - apply pinned_simulation.
Qed.

Lemma pinned_ChessGame_makeMove (n : nat) :
  ChessGame_makeMove n d2d3 (gameOn pinnedPawnWorld)
  = (Ok false,
     mkGameWorld (heap (simulated d2d3 pinnedPawnWorld))
                 (game (gameOn pinnedPawnWorld))).
Proof.
  rewrite (ChessGame_makeMove_refused n d2d3 (gameOn pinnedPawnWorld)
             (mkWorld (heap (simulated d2d3 pinnedPawnWorld))
                      (brd pinnedPawnWorld))
             1%nat (mkPiece WHITE PAWN false)).
  - reflexivity.
  - left. reflexivity.
  - vm_compute. reflexivity.
  - vm_compute. reflexivity.
  - reflexivity.
  - exact (pinned_Board_makeMove n).
Qed.

(** C3 fails on the code, through the defect of C2. The move d2-d3 of the
    pinned pawn is pseudo-legal and would leave White's king attacked, so
    [Board.makeMove] and [ChessGame.makeMove] both return [false]. Grid,
    history, captured list, target, clocks, player and game state are as
    before, but the pawn's [hasMoved] flag is now set: the refused call has
    taken away its double step. *)
Theorem refused_move_changes_hasMoved :
  forall n : nat,
    let board_after := snd (Board_makeMove n d2d3 pinnedPawnWorld) in
    let game_after := snd (ChessGame_makeMove n d2d3 (gameOn pinnedPawnWorld)) in
    fst (Board_makeMove n d2d3 pinnedPawnWorld) = Ok false
    /\ brd board_after = brd pinnedPawnWorld
    /\ deref (heap pinnedPawnWorld) 1%nat = Ok (mkPiece WHITE PAWN false)
    /\ deref (heap board_after) 1%nat = Ok (mkPiece WHITE PAWN true)
    /\ fst (ChessGame_makeMove n d2d3 (gameOn pinnedPawnWorld)) = Ok false
    /\ game game_after = game (gameOn pinnedPawnWorld)
    /\ deref (gheap game_after) 1%nat = Ok (mkPiece WHITE PAWN true)
    /\ getPossibleMoves n (heap pinnedPawnWorld) (brd pinnedPawnWorld)
         (mkPiece WHITE PAWN false) (sq 6 3)
       = Ok [plainMove (sq 6 3) (sq 5 3); plainMove (sq 6 3) (sq 4 3)]
    /\ getPossibleMoves n (heap board_after) (brd board_after)
         (mkPiece WHITE PAWN true) (sq 6 3)
       = Ok [plainMove (sq 6 3) (sq 5 3)].
Proof.
  intros n board_after game_after. subst board_after game_after.
  rewrite pinned_Board_makeMove, pinned_ChessGame_makeMove. cbn [fst snd].
  rewrite (getPossibleMoves_leaf n _ _ (mkPiece WHITE PAWN false)) by reflexivity.
  rewrite (getPossibleMoves_leaf n _ _ (mkPiece WHITE PAWN true)) by reflexivity.
  repeat match goal with |- _ /\ _ => split end; vm_compute; reflexivity.
Qed.

(** ** Castling *)

(** Destructs the computation at the head of a chain of [let*]. *)
Ltac step_rbind :=
  match goal with
  | |- context [rbind ?x _] =>
      lazymatch x with
      | context [rbind _ _] => fail
      | _ => destruct x eqn:?; cbn [rbind]
      end
  end.

Lemma canCastleThrough_occupied (g : Generator) h b self pos rest r :
  getPiece b pos = Ok (Some r) ->
  canCastleThrough g h b self (pos :: rest) = Ok false.
Proof. intros Hocc. cbn [canCastleThrough]. now rewrite Hocc. Qed.

(** [getCastlingMoves] passes the king's own square to [canCastleThrough],
    which wants every square it is given to be empty. With the king
    standing on that square, neither side is ever offered. *)
Lemma getCastlingMoves_occupied (g : Generator) h b self pos r ms :
  getPiece b pos = Ok (Some r) ->
  getCastlingMoves g h b self pos = Ok ms -> ms = [].
Proof.
  intros Hocc. unfold getCastlingMoves.
  repeat (step_rbind; try discriminate).
  all: repeat match goal with
         | H : canCastleThrough _ _ _ _ (_ :: _) = _ |- _ =>
             rewrite (canCastleThrough_occupied _ _ _ _ _ _ _ Hocc) in H;
             injection H as <-
         end.
  all: repeat match goal with
         | H : (if ?c then _ else _) = Ok _ |- _ =>
             destruct c; try discriminate; injection H as <-
         end.
  all: intros [= <-]; reflexivity.
Qed.


(** *** Moves that are plain steps from a square *)

Lemma collect_Forall {A B} (P : B -> Prop) (f : A -> Res (list B)) l ms :
  (forall x r, f x = Ok r -> Forall P r) ->
  collect f l = Ok ms -> Forall P ms.
Proof.
  intros Hf. revert ms.
  induction l as [| x l IH]; intros ms; cbn [collect].
  - intros [= <-]. constructor.
  - destruct (f x) as [here |] eqn:Hx; cbn [rbind]; [| discriminate].
    destruct (collect f l) as [rest |]; cbn [rbind]; [| discriminate].
    intros [= <-]. apply Forall_app. split; [now apply (Hf x) | now apply IH].
Qed.

Lemma leapTo_plain h b self pos d ms :
  leapTo h b self pos d = Ok ms -> Forall (isPlain pos) ms.
Proof.
  unfold leapTo.
  destruct (_ && _); [| intros [= <-]; constructor].
  destruct (Position_new _ _) as [newPos |]; cbn [rbind]; [| discriminate].
  destruct (getPiece b newPos) as [[ref |] |]; cbn [rbind]; [| | discriminate].
  - destruct (deref h ref) as [tp |]; cbn [rbind]; [| discriminate].
    destruct (negb _); intros [= <-]; repeat constructor.
  - intros [= <-]; repeat constructor.
Qed.

Lemma leap_plain h b self pos offsets ms :
  leap h b self pos offsets = Ok ms -> Forall (isPlain pos) ms.
Proof. apply collect_Forall. intros d r. apply leapTo_plain. Qed.

Lemma slideRay_plain h b self pos k dr dc distance ms :
  slideRay h b self pos k dr dc distance = Ok ms -> Forall (isPlain pos) ms.
Proof.
  revert distance ms.
  induction k as [| k IH]; intros distance ms; cbn [slideRay].
  - intros [= <-]. constructor.
  - destruct (_ || _); [intros [= <-]; constructor |].
    destruct (Position_new _ _) as [newPos |]; cbn [rbind]; [| discriminate].
    destruct (getPiece b newPos) as [[ref |] |]; cbn [rbind]; [| | discriminate].
    + destruct (deref h ref) as [tp |]; cbn [rbind]; [| discriminate].
      destruct (negb _); intros [= <-]; repeat constructor.
    + destruct (slideRay h b self pos k dr dc (distance + 1)) as [rest |] eqn:Hrest;
        cbn [rbind]; [| discriminate].
      intros [= <-]. constructor; [reflexivity | now apply (IH (distance + 1))].
Qed.

Lemma slide_plain h b self pos directions ms :
  slide h b self pos directions = Ok ms -> Forall (isPlain pos) ms.
Proof. apply collect_Forall. intros d r. apply slideRay_plain. Qed.

(** A king standing on the square it moves from is offered plain steps only. *)
Lemma King_getPossibleMoves_plain (g : Generator) h b self pos r ms :
  getPiece b pos = Ok (Some r) ->
  King_getPossibleMoves g h b self pos = Ok ms -> Forall (isPlain pos) ms.
Proof.
  intros Hocc. unfold King_getPossibleMoves.
  destruct (leap h b self pos kingDirections) as [adj |] eqn:Hadj;
    cbn [rbind]; [| discriminate].
  apply leap_plain in Hadj.
  destruct (negb (hasMoved self)); [| now intros [= <-]].
  destruct (isInCheck_ g h b (color self)) as [[|] |]; cbn [rbind negb];
    [now intros [= <-] | | discriminate].
  destruct (getCastlingMoves g h b self pos) as [cm |] eqn:Hcm;
    cbn [rbind]; [| discriminate].
  apply (getCastlingMoves_occupied _ _ _ _ _ _ _ Hocc) in Hcm. subst cm.
  intros [= <-]. now rewrite app_nil_r.
Qed.

(** Every piece but the pawn, standing on its square, makes plain steps only. *)
Lemma getPossibleMoves_plain (n : nat) h b self pos r ms :
  pieceType self <> PAWN ->
  getPiece b pos = Ok (Some r) ->
  getPossibleMoves n h b self pos = Ok ms -> Forall (isPlain pos) ms.
Proof.
  intros Hpt Hocc.
  destruct n as [| n]; cbn [getPossibleMoves];
    destruct (pieceType self); try contradiction;
    eauto using slide_plain, leap_plain, King_getPossibleMoves_plain.
Qed.




(** ** Pawn moves onto the last rank *)

Lemma Position_new_Ok (r c : Z) (p : Position) :
  Position_new (Num r) (Num c) = Ok p ->
  p = mkPosition (Num r) (Num c) /\ 0 <= r <= 7 /\ 0 <= c <= 7.
Proof.
  unfold Position_new, jgt, jlt.
  destruct (Z.ltb_spec r 0); [discriminate |].
  destruct (Z.ltb_spec 7 r); [discriminate |].
  destruct (Z.ltb_spec c 0); [discriminate |].
  destruct (Z.ltb_spec 7 c); [discriminate |].
  cbn [orb]. intros [= <-]. repeat split; lia.
Qed.

Lemma Position_equals_Num (a b a' b' : Z) :
  Position_equals (mkPosition a b) (mkPosition a' b') = true <->
  a = a' /\ b = b'.
Proof.
  unfold Position_equals. cbn [row col jseq].
  rewrite andb_true_iff, !Z.eqb_eq. reflexivity.
Qed.

Lemma canEnPassant_true h b (f t : Position) :
  canEnPassant h b f t = Ok true ->
  exists target,
    _enPassantTarget b = Some target
    /\ Position_equals t target = true
    /\ jseq (jabs (jsub (col f) (col t))) 1 = true.
Proof.
  unfold canEnPassant.
  destruct (_enPassantTarget b) as [target |]; [| discriminate].
  destruct (getPiece b f) as [[r |] |]; cbn [rbind]; try discriminate.
  destruct (deref h r) as [piece |]; cbn [rbind]; [| discriminate].
  intros [= Hall]. apply andb_true_iff in Hall as [Hall _].
  apply andb_true_iff in Hall as [Heq Hcol].
  exists target. now repeat split.
Qed.

Section PawnOnSeventh.
Variables (h : Heap) (b : Board) (self : Piece).
Variables (r c : Z).
Hypothesis col_ok : 0 <= c <= 7.
Hypothesis ahead : r + Pawn_direction self = backRank (color self).
Hypothesis ep_inside : epTargetInside b.

Let pos : Position := mkPosition r c.
Let nr : Z := backRank (color self).

Lemma nr_cases : nr = 0 \/ nr = 7.
Proof. unfold nr, backRank. destruct (color self); auto. Qed.

Lemma beyond_the_board :
  Position_new (Num (nr + Pawn_direction self)) (Num c)
  = Throw InvalidPosition.
Proof.
  apply Position_new_bad_row.
  unfold nr, backRank, Pawn_direction. destruct (color self); lia.
Qed.

Lemma Pawn_forward_last_rank fwd :
  Pawn_forward b self pos = Ok fwd ->
  fwd = [] \/ fwd = promotionMoves pos (mkPosition nr c).
Proof.
  unfold Pawn_forward, Pawn_newRow, pos. cbn [row col jadd].
  rewrite ahead. fold nr.
  replace (jge nr 0 && jle nr 7) with true
    by (destruct nr_cases as [-> | ->]; reflexivity).
  rewrite Position_new_valid by (destruct nr_cases; lia). cbn [rbind].
  destruct (getPiece b _) as [[x |] |]; cbn [rbind];
    [intros [= <-]; now left | | discriminate].
  replace (jseq nr 0 || jseq nr 7) with true
    by (destruct nr_cases as [-> | ->]; reflexivity).
  destruct (hasMoved self); [intros [= <-]; now right |].
  rewrite beyond_the_board. discriminate.
Qed.

Lemma Pawn_capture_last_rank (off : Z) cap :
  Pawn_capture h b self pos off = Ok cap ->
  cap = [] \/ cap = promotionMoves pos (mkPosition nr (c + off)).
Proof.
  unfold Pawn_capture, Pawn_newRow, pos. cbn [row col jadd].
  rewrite ahead. fold nr.
  destruct (_ && _) eqn:Hin; [| intros [= <-]; now left].
  destruct (Position_new nr (c + off)) as [capturePos |] eqn:Hpos;
    cbn [rbind]; [| discriminate].
  apply Position_new_Ok in Hpos as (-> & _ & _).
  destruct (getPiece b _) as [target |]; cbn [rbind]; [| discriminate].
  destruct (isEnemy h self target) as [[|] |]; cbn [rbind]; [| | discriminate].
  - replace (jseq nr 0 || jseq nr 7) with true
      by (destruct nr_cases as [-> | ->]; reflexivity).
    intros [= <-]. now right.
  - destruct (canEnPassant h b _ _) as [[|] |] eqn:Hep; cbn [rbind];
      [| intros [= <-]; now left | discriminate].
    apply canEnPassant_true in Hep as (target' & Htarget & Heq & _).
    destruct (ep_inside _ Htarget) as (tr & tc & -> & Htr & _).
    apply Position_equals_Num in Heq as [Hrow _].
    destruct nr_cases; lia.
Qed.
End PawnOnSeventh.

Lemma landingOn_app t (xs ys : list Move) :
  landingOn t (xs ++ ys) = landingOn t xs ++ landingOn t ys.
Proof. apply List.filter_app. Qed.

Lemma landingOn_promotionMoves t pos q :
  landingOn t (promotionMoves pos q)
  = if Position_equals q t then promotionMoves pos q else [].
Proof.
  unfold landingOn, promotionMoves. cbn [map promotionPieces List.filter toPos].
  now destruct (Position_equals q t).
Qed.

Lemma Position_equals_same (a b : Z) :
  Position_equals (mkPosition a b) (mkPosition a b) = true.
Proof. now apply Position_equals_Num. Qed.

Lemma Position_equals_other_col (a b b' : Z) :
  b <> b' -> Position_equals (mkPosition a b) (mkPosition a b') = false.
Proof.
  intros Hne. destruct (Position_equals _ _) eqn:E; [| reflexivity].
  apply Position_equals_Num in E. lia.
Qed.

Lemma getPossibleMoves_pawn (n : nat) h b self pos :
  pieceType self = PAWN ->
  getPossibleMoves n h b self pos = Pawn_getPossibleMoves h b self pos.
Proof. intros Hpt. destruct n; cbn [getPossibleMoves]; now rewrite Hpt. Qed.

Lemma In_promotionMoves m pos q :
  In m (promotionMoves pos q) -> toPos m = q.
Proof.
  unfold promotionMoves. cbn [map promotionPieces In].
  intros [<- | [<- | [<- | [<- | []]]]]; reflexivity.
Qed.

(** C7, as the claim states it, fails: an unmoved White pawn on row 2
    (placed there with [setPiece]) is given its double step onto row 0 as
    one plain move, with no promotion. *)
Lemma double_step_onto_last_rank_is_plain :
  getPossibleMoves 0 (heap farPawnWorld) (brd farPawnWorld)
    (mkPiece WHITE PAWN false) (sq 2 4)
  = Ok [plainMove (sq 2 4) (sq 1 4); plainMove (sq 2 4) (sq 0 4)]
  /\ row (sq 0 4) = Num (backRank WHITE)
  /\ landingOn (sq 0 4) [plainMove (sq 2 4) (sq 1 4); plainMove (sq 2 4) (sq 0 4)]
     <> promotionMoves (sq 2 4) (sq 0 4).
Proof.
  split; [vm_compute; reflexivity |].
  split; [reflexivity |].
  intros Heq. vm_compute in Heq. discriminate.
Qed.

(** C7 (amended): whenever a pawn's generator produces a move that goes
    one row ahead, straight or diagonally, onto the last rank of its colour,
    the moves it produces onto that square are exactly the four promotions
    to Queen, Rook, Bishop and Knight, in that order, and nothing else. *)
Theorem pawn_promotion_expansion (n : nat) h b self pos m ms :
  pieceType self = PAWN ->
  validPos pos ->
  epTargetInside b ->
  getPossibleMoves n h b self pos = Ok ms ->
  In m ms ->
  Pawn_newRow self pos = row (toPos m) ->
  row (toPos m) = Num (backRank (color self)) ->
  landingOn (toPos m) ms = promotionMoves pos (toPos m).
Proof.
  intros Hpt (r & c & -> & Hr & Hc) Hep Hgen Hin Hahead Hlast.
  rewrite getPossibleMoves_pawn in Hgen by exact Hpt.
  rewrite Hlast in Hahead. unfold Pawn_newRow in Hahead.
  cbn [row jadd] in Hahead. injection Hahead as Hahead.
  unfold Pawn_getPossibleMoves in Hgen. cbn [collect] in Hgen.
  destruct (Pawn_forward b self _) as [fwd |] eqn:Hfwd; cbn [rbind] in Hgen;
    [| discriminate].
  destruct (Pawn_capture h b self _ (-1)) as [capL |] eqn:HcapL;
    cbn [rbind] in Hgen; [| discriminate].
  destruct (Pawn_capture h b self _ 1) as [capR |] eqn:HcapR;
    cbn [rbind] in Hgen; [| discriminate].
  injection Hgen as <-.
  apply (Pawn_forward_last_rank b self r c Hc Hahead) in Hfwd.
  apply (Pawn_capture_last_rank h b self r c Hahead Hep) in HcapL.
  apply (Pawn_capture_last_rank h b self r c Hahead Hep) in HcapR.
  rewrite !in_app_iff in Hin. cbn [In] in Hin.
  assert (forall q, toPos m = q ->
            landingOn q (fwd ++ capL ++ capR ++ []) = promotionMoves (mkPosition r c) q
            -> landingOn (toPos m) (fwd ++ capL ++ capR ++ [])
               = promotionMoves (mkPosition r c) (toPos m)) as Hgoal
    by (intros q ->; trivial).
  destruct Hfwd as [-> | ->], HcapL as [-> | ->], HcapR as [-> | ->];
    destruct Hin as [Hin | [Hin | [Hin | []]]];
    try contradiction;
    apply In_promotionMoves in Hin;
    apply (Hgoal _ Hin);
    rewrite ?landingOn_app, ?landingOn_promotionMoves, ?Position_equals_same,
      ?Position_equals_other_col by lia;
    cbn [landingOn List.filter app]; rewrite ?app_nil_r; reflexivity.
Qed.

Lemma pawn_promotion_expansion_witness :
  landingOn (sq 0 5)
    (promotionMoves (sq 1 4) (sq 0 4) ++ promotionMoves (sq 1 4) (sq 0 5))
  = promotionMoves (sq 1 4) (sq 0 5).
Proof.
  apply (pawn_promotion_expansion 0 (heap promotionWorld) (brd promotionWorld)
           (mkPiece WHITE PAWN true) (sq 1 4)
           (mkMove (sq 1 4) (sq 0 5) (Some QUEEN) false false)).
  - reflexivity.
  - exists 1, 4. repeat split; lia.
  - intros t Ht. vm_compute in Ht. discriminate.
  - vm_compute. reflexivity.
  - vm_compute. tauto.
  - reflexivity.
  - reflexivity.
Defined.

(** ** The shape of the pawn's moves *)

Lemma arrayGet_Some {A} (a : list A) (i : JsNum) (x : A) :
  arrayGet a i = Some x ->
  exists z : Z, i = Num z /\ 0 <= z /\ a !! Z.to_nat z = Some x.
Proof.
  destruct i as [| z]; cbn [arrayGet]; [discriminate |].
  destruct (Z.leb_spec 0 z); [| discriminate].
  intros Hx. now exists z.
Qed.

(** A square that holds a piece has integer coordinates. *)
Lemma getPiece_Some_Num b pos ref :
  getPiece b pos = Ok (Some ref) ->
  exists r c : Z, pos = mkPosition r c.
Proof.
  destruct pos as [pr pc]. unfold getPiece, cell. cbn [row col].
  destruct (arrayGet (_board b) pr) as [cells |] eqn:Hrow; [| discriminate].
  destruct (arrayGet cells pc) as [x |] eqn:Hcol; [| discriminate].
  apply arrayGet_Some in Hrow as (r & -> & _).
  apply arrayGet_Some in Hcol as (c & -> & _).
  intros _. now exists r, c.
Qed.

Section PawnShape.
Variables (h : Heap) (b : Board) (self : Piece).
Variables (r c : Z).

Let pos : Position := mkPosition r c.
Let d : Z := Pawn_direction self.

Lemma Pawn_forward_shape fwd :
  Pawn_forward b self pos = Ok fwd -> Forall (isForwardMove b self r c) fwd.
Proof.
  unfold Pawn_forward, Pawn_newRow, pos. cbn [row col jadd]. fold d.
  destruct (_ && _); [| intros [= <-]; constructor].
  destruct (Position_new _ _) as [newPos |] eqn:Hnew; cbn [rbind];
    [| discriminate].
  apply Position_new_Ok in Hnew as (-> & Hr1 & Hc1).
  destruct (getPiece b _) as [[x |] |] eqn:Hone; cbn [rbind];
    [intros [= <-]; constructor | | discriminate].
  assert (Forall (isForwardMove b self r c)
            (if jseq (r + d) 0 || jseq (r + d) 7
             then promotionMoves (mkPosition r c) (mkPosition (r + d) c)
             else [plainMove (mkPosition r c) (mkPosition (r + d) c)])) as Hone'.
  { assert (validPos (mkPosition (r + d) c)) as Hv
      by (exists (r + d), c; repeat split; lia).
    destruct (_ || _); repeat constructor; cbn; auto. }
  destruct (hasMoved self) eqn:Hmoved; [now intros [= <-] |].
  destruct (Position_new _ _) as [twoForward |] eqn:Htwo; cbn [rbind];
    [| discriminate].
  apply Position_new_Ok in Htwo as (-> & Hr2 & Hc2). cbn [row].
  destruct (_ && _); [| now intros [= <-]].
  destruct (getPiece b (mkPosition (r + d + d) c)) as [[x |] |] eqn:Hfree;
    cbn [rbind]; [now intros [= <-] | | discriminate].
  intros [= <-]. apply Forall_app. split; [exact Hone' |].
  constructor; [| constructor].
  unfold isForwardMove. cbn [plainMove fromPos toPos isCastling isEnPassant].
  repeat split; try reflexivity.
  - exists (r + d + d), c. repeat split; lia.
  - right. repeat split; auto.
Qed.

Lemma Pawn_capture_shape (off : Z) cap :
  Pawn_capture h b self pos off = Ok cap -> isCaptureBlock h b self r c off cap.
Proof.
  unfold Pawn_capture, Pawn_newRow, isCaptureBlock, pos. cbn [row col jadd].
  fold d.
  destruct (_ && _); [| intros [= <-]; now left].
  destruct (Position_new _ _) as [capturePos |] eqn:Hnew; cbn [rbind];
    [| discriminate].
  apply Position_new_Ok in Hnew as (-> & Hr1 & Hc1).
  assert (validPos (mkPosition (r + d) (c + off))) as Hv
    by (exists (r + d), (c + off); repeat split; lia).
  destruct (getPiece b _) as [target |]; cbn [rbind]; [| discriminate].
  destruct (isEnemy h self target) as [[|] |]; cbn [rbind]; [| | discriminate].
  - intros [= <-]. right. split; [exact Hv |]. left.
    destruct (_ || _); repeat constructor.
  - destruct (canEnPassant h b _ _) as [[|] |] eqn:Hep; cbn [rbind];
      [| intros [= <-]; now left | discriminate].
    intros [= <-]. right. split; [exact Hv |]. now right.
Qed.

Lemma Pawn_getPossibleMoves_shape ms :
  Pawn_getPossibleMoves h b self pos = Ok ms ->
  exists fwd capL capR,
    ms = fwd ++ capL ++ capR
    /\ Forall (isForwardMove b self r c) fwd
    /\ isCaptureBlock h b self r c (-1) capL
    /\ isCaptureBlock h b self r c 1 capR.
Proof.
  unfold Pawn_getPossibleMoves. cbn [collect].
  destruct (Pawn_forward b self pos) as [fwd |] eqn:Hfwd; cbn [rbind];
    [| discriminate].
  destruct (Pawn_capture h b self pos (-1)) as [capL |] eqn:HcapL;
    cbn [rbind]; [| discriminate].
  destruct (Pawn_capture h b self pos 1) as [capR |] eqn:HcapR;
    cbn [rbind]; [| discriminate].
  intros [= <-]. exists fwd, capL, capR. rewrite app_nil_r.
  auto using Pawn_forward_shape, Pawn_capture_shape.
Qed.
End PawnShape.

(** ** The notation entry point *)

(** Among the moves a pawn generates, a square that is the target of an
    en-passant capture is the target of no other move. *)
Lemma Pawn_en_passant_alone h b self (r c : Z) ms m m' :
  Pawn_getPossibleMoves h b self (mkPosition r c) = Ok ms ->
  In m ms -> isEnPassant m = true ->
  In m' ms -> Position_equals (toPos m') (toPos m) = true ->
  m' = m.
Proof.
  intros Hgen Hin Hep Hin' Hsame.
  apply Pawn_getPossibleMoves_shape in Hgen
    as (fwd & capL & capR & -> & Hfwd & HcapL & HcapR).
  rewrite !in_app_iff in Hin, Hin'.
  rewrite List.Forall_forall in Hfwd.
  unfold isCaptureBlock in HcapL, HcapR.
  (* where the en-passant move comes from *)
  assert ((capL = [m] \/ capR = [m])
          /\ exists off, (off = -1 \/ off = 1)
               /\ toPos m = mkPosition (r + Pawn_direction self) (c + off)
               /\ (capL = [m] -> off = -1) /\ (capR = [m] -> off = 1))
    as (Hblock & off & Hoff & Hto & HoffL & HoffR).
  { destruct Hin as [Hin | [Hin | Hin]].
    - apply Hfwd in Hin as (_ & _ & Hno & _). congruence.
    - destruct HcapL as [-> | (_ & [Hall | [-> _]])]; [contradiction | |].
      + rewrite List.Forall_forall in Hall. apply Hall in Hin as (_ & _ & _ & Hno).
        congruence.
      + destruct Hin as [<- | []]. split; [now left |].
        exists (-1). repeat split; auto.
        destruct HcapR as [-> | (_ & [Hall | [-> _]])]; try discriminate.
        * intros [= ->]. rewrite List.Forall_forall in Hall.
          destruct (Hall _ (or_introl eq_refl)) as (_ & _ & _ & Hno).
          discriminate.
        * intros [= Heq]. lia.
    - destruct HcapR as [-> | (_ & [Hall | [-> _]])]; [contradiction | |].
      + rewrite List.Forall_forall in Hall. apply Hall in Hin as (_ & _ & _ & Hno).
        congruence.
      + destruct Hin as [<- | []]. split; [now right |].
        exists 1. repeat split; auto.
        destruct HcapL as [-> | (_ & [Hall | [-> _]])]; try discriminate.
        * intros [= ->]. rewrite List.Forall_forall in Hall.
          destruct (Hall _ (or_introl eq_refl)) as (_ & _ & _ & Hno).
          discriminate.
        * intros [= Heq]. lia. }
  rewrite Hto in Hsame.
  destruct Hin' as [Hin' | [Hin' | Hin']].
  - apply Hfwd in Hin' as (_ & _ & _ & _ & [Hto' | [-> _]]).
    + rewrite Hto' in Hsame. apply Position_equals_Num in Hsame. lia.
    + cbn [toPos plainMove] in Hsame. apply Position_equals_Num in Hsame. lia.
  - destruct HcapL as [-> | (_ & [Hall | [-> _]])]; [contradiction | |].
    + rewrite List.Forall_forall in Hall. apply Hall in Hin' as (_ & Hto' & _).
      rewrite Hto' in Hsame. apply Position_equals_Num in Hsame.
      destruct Hblock as [-> | Hr]; [| specialize (HoffR Hr); lia].
      destruct (Hall _ (or_introl eq_refl)) as (_ & _ & _ & Hno). congruence.
    + destruct Hin' as [<- | []].
      destruct Hblock as [[= <-] | Hr]; [reflexivity |].
      specialize (HoffR Hr). cbn [toPos] in Hsame.
      apply Position_equals_Num in Hsame. lia.
  - destruct HcapR as [-> | (_ & [Hall | [-> _]])]; [contradiction | |].
    + rewrite List.Forall_forall in Hall. apply Hall in Hin' as (_ & Hto' & _).
      rewrite Hto' in Hsame. apply Position_equals_Num in Hsame.
      destruct Hblock as [Hl | ->]; [specialize (HoffL Hl); lia |].
      destruct (Hall _ (or_introl eq_refl)) as (_ & _ & _ & Hno). congruence.
    + destruct Hin' as [<- | []].
      destruct Hblock as [Hl | [= <-]]; [| reflexivity].
      specialize (HoffL Hl). cbn [toPos] in Hsame.
      apply Position_equals_Num in Hsame. lia.
Qed.

Lemma isPlain_flags pos m :
  isPlain pos m -> isCastling m = false /\ isEnPassant m = false.
Proof. intros ->. split; reflexivity. Qed.

(** No move the entry point can build is equal to a castling or en-passant
    move that the piece generates, nor to any other move onto that square. *)
Lemma special_move_not_matched (n : nat) h b p pos ref ms m promo :
  getPiece b pos = Ok (Some ref) ->
  getPossibleMoves n h b p pos = Ok ms ->
  In m ms ->
  isCastling m = true \/ isEnPassant m = true ->
  existsb (fun m' => Move_equals m' (mkMove pos (toPos m) promo false false)) ms
  = false.
Proof.
  intros Hocc Hgen Hin Hflag.
  destruct (existsb _ ms) eqn:Hex; [| reflexivity].
  apply existsb_exists in Hex as (m' & Hin' & Heq).
  unfold Move_equals in Heq. cbn [fromPos toPos isCastling isEnPassant] in Heq.
  repeat (apply andb_true_iff in Heq as [Heq ?]).
  destruct (PieceType_eqb (pieceType p) PAWN) eqn:Hpt.
  - assert (pieceType p = PAWN) as Hpawn by (now destruct (pieceType p)).
    rewrite getPossibleMoves_pawn in Hgen by exact Hpawn.
    destruct (getPiece_Some_Num _ _ _ Hocc) as (r & c & ->).
    assert (isEnPassant m = true) as Hep.
    { destruct Hflag as [Hc | He]; [| exact He].
      pose proof Hgen as Hshape.
      apply Pawn_getPossibleMoves_shape in Hshape
        as (fwd & capL & capR & -> & Hfwd & HcapL & HcapR).
      rewrite List.Forall_forall in Hfwd. rewrite !in_app_iff in Hin.
      destruct Hin as [Hin | [Hin | Hin]].
      - apply Hfwd in Hin as (_ & Hno & _). congruence.
      - destruct HcapL as [-> | (_ & [Hall | [-> _]])]; [contradiction | |].
        + rewrite List.Forall_forall in Hall.
          apply Hall in Hin as (_ & _ & Hno & _). congruence.
        + destruct Hin as [<- | []]. discriminate.
      - destruct HcapR as [-> | (_ & [Hall | [-> _]])]; [contradiction | |].
        + rewrite List.Forall_forall in Hall.
          apply Hall in Hin as (_ & _ & Hno & _). congruence.
        + destruct Hin as [<- | []]. discriminate. }
    assert (m' = m) as -> by eauto using Pawn_en_passant_alone.
    rewrite Hep in *. discriminate.
  - assert (pieceType p <> PAWN) as Hother by (intros E; now rewrite E in Hpt).
    pose proof (getPossibleMoves_plain n h b p pos ref ms Hother Hocc Hgen) as Hplain.
    rewrite List.Forall_forall in Hplain.
    destruct (isPlain_flags _ _ (Hplain _ Hin)) as [Hc He].
    destruct Hflag; congruence.
Qed.

Lemma Board_makeMove_invalid (n : nat) (mv : Move) (w : World) ref p :
  getPiece (brd w) (fromPos mv) = Ok (Some ref) ->
  deref (heap w) ref = Ok p ->
  isMoveValid n (heap w) (brd w) p mv = Ok false ->
  Board_makeMove n mv w = (Ok false, w).
Proof.
  intros Hget Hderef Hvalid. unfold Board_makeMove.
  unfold mbind at 1, Board_getPiece, query at 1. rewrite Hget.
  unfold mbind at 1, query at 1. rewrite Hderef.
  unfold mbind at 1, query at 1. rewrite Hvalid. reflexivity.
Qed.

(** [ChessGame.makeMove] on a move its piece does not generate. *)
Lemma ChessGame_makeMove_invalid (n : nat) (mv : Move) (gw : GameWorld) ref p :
  getPiece (game_board (game gw)) (fromPos mv) = Ok (Some ref) ->
  deref (gheap gw) ref = Ok p ->
  isMoveValid n (gheap gw) (game_board (game gw)) p mv = Ok false ->
  ChessGame_makeMove n mv gw = (Ok false, gw).
Proof.
  intros Hget Hderef Hvalid. unfold ChessGame_makeMove.
  unfold gbind at 1, gread at 1.
  destruct (_ && _); [reflexivity |].
  unfold gbind at 1, Board_getPiece. rewrite onGameBoard_query, Hget.
  unfold gbind at 1, gread at 1.
  unfold gbind at 1. rewrite onGameBoard_query, Hderef. cbn [rbind].
  destruct (Color_eqb _ _); cbn [negb]; [| reflexivity].
  unfold gbind at 1, onGameBoard at 1.
  rewrite (Board_makeMove_invalid n mv _ ref p) by assumption.
  destruct gw as [hh [bb pl st mc]]. reflexivity.
Qed.

(** C9: [makeMoveFromAlgebraic] builds its move with both flags false, and
    [isMoveValid] compares all fields. When the two squares are those of a
    castling or en-passant move that the piece on the first square
    generates, the call returns [false] and the game is as it was,
    whatever promotion letter is passed. *)
Theorem algebraic_entry_refuses_special_moves
        (n : nat) (gw : GameWorld) (fromNotation toNotation : JsString)
        (promotion : option JsString) (fromP toP : Position)
        (ref : Ref) (p : Piece) (ms : list Move) (m : Move) :
  fromAlgebraic fromNotation = Ok fromP ->
  fromAlgebraic toNotation = Ok toP ->
  getPiece (game_board (game gw)) fromP = Ok (Some ref) ->
  deref (gheap gw) ref = Ok p ->
  getPossibleMoves n (gheap gw) (game_board (game gw)) p fromP = Ok ms ->
  In m ms ->
  toPos m = toP ->
  isCastling m = true \/ isEnPassant m = true ->
  makeMoveFromAlgebraic n fromNotation toNotation promotion gw = (Ok false, gw).
Proof.
  intros Hfrom Hto Hget Hderef Hgen Hin <- Hflag.
  unfold makeMoveFromAlgebraic, catchFalse.
  unfold gbind at 1. rewrite Hfrom.
  unfold gbind at 1. rewrite Hto.
  erewrite ChessGame_makeMove_invalid; [reflexivity | exact Hget | exact Hderef |].
  unfold isMoveValid. cbn [fromPos]. rewrite Hgen. cbn [rbind].
  f_equal. eapply special_move_not_matched; eauto.
Qed.

Lemma algebraic_entry_refuses_special_moves_witness :
  makeMoveFromAlgebraic 0 (str "e5") (str "d6") None (gameOn enPassantWorld)
  = (Ok false, gameOn enPassantWorld).
Proof.
  apply (algebraic_entry_refuses_special_moves 0 (gameOn enPassantWorld)
           (str "e5") (str "d6") None (sq 3 4) (sq 2 3) 1%nat
           (mkPiece WHITE PAWN true)
           [plainMove (sq 3 4) (sq 2 4); e5d6] e5d6).
  - reflexivity.
  - reflexivity.
  - vm_compute. reflexivity.
  - vm_compute. reflexivity.
  - vm_compute. reflexivity.
  - right. left. reflexivity.
  - reflexivity.
  - right. reflexivity.
Defined.

(** ** Reading and writing squares *)

Lemma wfGrid_row (g : Grid) (r : Z) :
  wfGrid g -> 0 <= r <= 7 ->
  exists cells, g !! Z.to_nat r = Some cells /\ length cells = 8%nat.
Proof.
  intros [Hlen Hrows] Hr.
  destruct (lookup_lt_is_Some_2 g (Z.to_nat r)) as [cells Hcells]; [lia |].
  exists cells. split; [exact Hcells |].
  rewrite Forall_forall in Hrows. apply Hrows.
  eapply list_elem_of_lookup_2. exact Hcells.
Qed.

Lemma Num_index {A} (a : list A) (c : Z) :
  0 <= c -> arrayGet a (Num c) = a !! Z.to_nat c.
Proof. intros Hc. cbn [arrayGet]. destruct (Z.leb_spec 0 c); [reflexivity | lia]. Qed.

Lemma setPiece_put b p x :
  wfGrid (_board b) -> validPos p -> setPiece b p x = Ok (putPiece b p x).
Proof.
  intros Hwf (r & c & -> & Hr & Hc). unfold setPiece, putPiece. cbn [row col].
  destruct (wfGrid_row _ r Hwf Hr) as (cells & Hcells & _).
  rewrite !Num_index by lia. rewrite Hcells. reflexivity.
Qed.

Lemma putPiece_wfGrid b p x :
  wfGrid (_board b) -> validPos p -> wfGrid (_board (putPiece b p x)).
Proof.
  intros Hwf (r & c & -> & Hr & Hc).
  destruct (wfGrid_row _ r Hwf Hr) as (cells & Hcells & Hlen8).
  unfold putPiece, withGrid. cbn [_board row col]. unfold arrayGet, arraySet.
  destruct (Z.leb_spec 0 r); [| lia]. destruct (Z.leb_spec 0 c); [| lia].
  rewrite Hcells. cbn [from_option id]. destruct Hwf as [Hlen Hrows].
  split; [now rewrite length_insert |].
  apply Forall_insert; [exact Hrows | now rewrite length_insert].
Qed.

Lemma getPiece_put_same b p x :
  wfGrid (_board b) -> validPos p -> getPiece (putPiece b p x) p = Ok x.
Proof.
  intros Hwf (r & c & -> & Hr & Hc).
  destruct (wfGrid_row _ r Hwf Hr) as (cells & Hcells & Hlen8).
  unfold getPiece, cell, putPiece, withGrid. cbn [_board row col].
  unfold arrayGet, arraySet.
  destruct (Z.leb_spec 0 r); [| lia]. destruct (Z.leb_spec 0 c); [| lia].
  rewrite Hcells. cbn [from_option id]. destruct Hwf as [Hlen Hrows].
  rewrite list_lookup_insert_eq by lia.
  rewrite list_lookup_insert_eq by lia. reflexivity.
Qed.

Lemma getPiece_put_other b p q x :
  wfGrid (_board b) -> validPos p -> validPos q -> p <> q ->
  getPiece (putPiece b p x) q = getPiece b q.
Proof.
  intros Hwf (r & c & -> & Hr & Hc) (r' & c' & -> & Hr' & Hc') Hne.
  destruct (wfGrid_row _ r Hwf Hr) as (cells & Hcells & Hlen8).
  unfold getPiece, cell, putPiece, withGrid. cbn [_board row col].
  unfold arrayGet, arraySet.
  destruct (Z.leb_spec 0 r); [| lia]. destruct (Z.leb_spec 0 c); [| lia].
  destruct (Z.leb_spec 0 r'); [| lia]. destruct (Z.leb_spec 0 c'); [| lia].
  rewrite Hcells. cbn [from_option id]. destruct Hwf as [Hlen Hrows].
  destruct (Z.eq_dec r r') as [<- | Hrow].
  - rewrite list_lookup_insert_eq by lia. rewrite Hcells.
    rewrite list_lookup_insert_ne; [reflexivity |].
    intros Heq. apply Z2Nat.inj in Heq; [| lia | lia]. congruence.
  - rewrite list_lookup_insert_ne; [reflexivity |].
    intros Heq. apply Z2Nat.inj in Heq; lia.
Qed.

Lemma validPos_Num (r c : Z) :
  0 <= r <= 7 -> 0 <= c <= 7 -> validPos (mkPosition r c).
Proof. intros Hr Hc. now exists r, c. Qed.

(** A square that holds a piece lies on the board. *)
Lemma getPiece_Some_valid b pos ref :
  wfGrid (_board b) -> getPiece b pos = Ok (Some ref) -> validPos pos.
Proof.
  intros [Hlen Hrows]. destruct pos as [pr pc].
  unfold getPiece, cell. cbn [row col].
  destruct (arrayGet (_board b) pr) as [cells |] eqn:Hrow; [| discriminate].
  destruct (arrayGet cells pc) as [x |] eqn:Hcol; [| discriminate].
  apply arrayGet_Some in Hrow as (r & -> & Hr & Hcells).
  apply arrayGet_Some in Hcol as (c & -> & Hc & Hx).
  intros _. rewrite Forall_forall in Hrows.
  assert (length cells = 8%nat) as Hlen8
    by (apply Hrows; eapply list_elem_of_lookup_2; exact Hcells).
  apply lookup_lt_Some in Hcells, Hx.
  apply validPos_Num; lia.
Qed.

(** *** The store *)

Lemma deref_markAsMoved_same h r p :
  deref h r = Ok p ->
  deref (markAsMoved r h) r = Ok (mkPiece (color p) (pieceType p) true).
Proof.
  unfold deref, markAsMoved.
  destruct (h !! r) as [p0 |] eqn:Hr; [| discriminate].
  intros [= <-]. rewrite list_lookup_insert_eq; [reflexivity |].
  now apply lookup_lt_Some in Hr.
Qed.

Lemma deref_markAsMoved_other h r r' :
  r <> r' -> deref (markAsMoved r h) r' = deref h r'.
Proof.
  intros Hne. unfold deref, markAsMoved.
  destruct (h !! r) as [p0 |]; [| reflexivity].
  now rewrite list_lookup_insert_ne.
Qed.

(** Marking a piece changes neither the colour nor the class of any piece. *)
Lemma deref_markAsMoved h r r' p :
  deref h r' = Ok p ->
  exists moved, deref (markAsMoved r h) r'
                = Ok (mkPiece (color p) (pieceType p) moved).
Proof.
  intros Hp. destruct (Nat.eq_dec r r') as [-> | Hne].
  - exists true. now apply deref_markAsMoved_same.
  - exists (hasMoved p). rewrite deref_markAsMoved_other by exact Hne.
    now destruct p.
Qed.

(** ** Executing a move *)

Lemma getPiece_same_grid b1 b2 p :
  _board b1 = _board b2 -> getPiece b1 p = getPiece b2 p.
Proof. intros Hg. unfold getPiece, cell. now rewrite Hg. Qed.

Lemma bookkeeping_spec (m : Move) (cap : option Ref) (w : World) x pw :
  getPiece (brd w) (toPos m) = Ok x ->
  isPawn (heap w) x = Ok pw ->
  (forall r, x = Some r -> exists p, deref (heap w) r = Ok p) ->
  (pw && spansTwoRows m = true -> exists q, skippedSquare m = Ok q) ->
  exists w',
    bookkeeping m cap w = (Ok tt, w')
    /\ heap w' = heap w
    /\ _board (brd w') = _board (brd w)
    /\ _capturedPieces (brd w') = _capturedPieces (brd w) ++ optionList cap
    /\ _moveHistory (brd w') = _moveHistory (brd w) ++ [m]
    /\ _enPassantTarget (brd w')
       = if pw && spansTwoRows m
         then match skippedSquare m with Ok q => Some q | Throw _ => None end
         else None.
Proof.
  intros Hget Hpawn Hderef Hskip. destruct w as [h b]. cbn [heap brd] in *.
  set (b1 := match cap with Some c => pushCaptured c b | None => b end).
  set (b2 := pushHistory m b1).
  assert (_board b2 = _board b) as Hgrid by (subst b2 b1; now destruct cap).
  assert (bookkeeping m cap (mkWorld h b)
          = (updateEnPassantTarget m >> updateMoveCounters m cap) (mkWorld h b2))
    as -> by (subst b2 b1; now destruct cap).
  set (ep := if pw && spansTwoRows m
             then match skippedSquare m with Ok q => Some q | Throw _ => None end
             else None).
  set (b3 := setEnPassantTarget ep b2).
  assert (updateEnPassantTarget m (mkWorld h b2) = (Ok tt, mkWorld h b3)) as Hep.
  { unfold updateEnPassantTarget.
    unfold mbind at 1, Board_getPiece, query at 1. cbn [heap brd].
    rewrite (getPiece_same_grid b2 b _ Hgrid), Hget.
    unfold mbind at 1, modify at 1. cbn [heap brd].
    unfold mbind at 1, query at 1. cbn [heap brd]. rewrite Hpawn.
    fold (spansTwoRows m). subst b3 ep.
    destruct (pw && spansTwoRows m) eqn:Hcond.
    - destruct (Hskip eq_refl) as [q Hq]. unfold skippedSquare in Hq.
      unfold mbind at 1, liftR at 1. rewrite Hq.
      unfold modify. cbn [heap brd]. unfold skippedSquare. rewrite Hq.
      reflexivity.
    - reflexivity. }
  unfold mbind at 1. rewrite Hep.
  assert (_board b3 = _board b) as Hgrid3 by (subst b3; exact Hgrid).
  unfold updateMoveCounters.
  unfold mbind at 1, Board_getPiece, query at 1. cbn [heap brd].
  rewrite (getPiece_same_grid b3 b _ Hgrid3), Hget.
  destruct x as [r |].
  - destruct (Hderef r eq_refl) as [p Hp].
    unfold mbind at 1, query at 1. cbn [heap brd]. rewrite Hp.
    unfold mbind, modify, mret.
    destruct (PieceType_eqb (pieceType p) PAWN || _), (Color_eqb (color p) BLACK);
      cbn [heap brd]; (eexists; split; [reflexivity |]);
      subst b3 b2 b1; destruct cap; cbn; rewrite ?app_nil_r; auto.
  - unfold mret. eexists. split; [reflexivity |].
    cbn [heap brd]. subst b3 b2 b1; destruct cap; cbn; rewrite ?app_nil_r; auto.
Qed.

Lemma executeMove_unfold (m : Move) (w : World) :
  executeMove m w =
  (do* piece := Board_getPiece (fromPos m) in
   do* cap := Board_getPiece (toPos m) in
   match piece with
   | None => mthrow NoPieceAtSource
   | Some piece => relocate m piece >> bookkeeping m cap
   end) w.
Proof. reflexivity. Qed.

Lemma getPiece_valid b p :
  wfGrid (_board b) -> validPos p -> exists x, getPiece b p = Ok x.
Proof.
  intros Hwf (r & c & -> & Hr & Hc).
  destruct (wfGrid_row _ r Hwf Hr) as (cells & Hcells & _).
  unfold getPiece, cell. cbn [row col]. rewrite Num_index by lia.
  rewrite Hcells. eauto.
Qed.

Lemma skippedSquare_valid (m : Move) :
  validPos (fromPos m) -> validPos (toPos m) ->
  exists fr fc tr tc : Z,
    fromPos m = mkPosition fr fc /\ toPos m = mkPosition tr tc
    /\ skippedSquare m = Ok (mkPosition ((fr + tr) / 2) tc)
    /\ spansTwoRows m = (Z.abs (fr - tr) =? 2).
Proof.
  intros (fr & fc & Hf & Hfr & Hfc) (tr & tc & Ht & Htr & Htc).
  exists fr, fc, tr, tc. unfold skippedSquare, spansTwoRows. rewrite Hf, Ht.
  cbn [row col jadd jhalf jsub jabs jseq]. repeat split.
  apply Position_new_valid; [| lia].
  split; [apply Z.div_pos; lia | apply Z.div_le_upper_bound; lia].
Qed.

(** The two squares of a plain move after it is played. *)
Lemma relocated_squares b (f t : Position) (x : option Ref) :
  wfGrid (_board b) -> validPos f -> validPos t ->
  let b' := putPiece (putPiece b t x) f None in
  wfGrid (_board b')
  /\ getPiece b' f = Ok None
  /\ (t <> f -> getPiece b' t = Ok x)
  /\ (t = f -> getPiece b' t = Ok None)
  /\ (forall q, validPos q -> q <> f -> q <> t -> getPiece b' q = getPiece b q).
Proof.
  intros Hwf Hf Ht b'. subst b'.
  pose proof (putPiece_wfGrid b t x Hwf Ht) as Hwf1.
  split; [| split; [| split; [| split]]].
  - now apply putPiece_wfGrid.
  - now apply getPiece_put_same.
  - intros Hne. rewrite getPiece_put_other by auto.
    now apply getPiece_put_same.
  - intros ->. now apply getPiece_put_same.
  - intros q Hq Hqf Hqt. rewrite !getPiece_put_other by auto. reflexivity.
Qed.

(** Playing a plain move: neither castling nor en passant nor promotion. *)
Lemma executeMove_plain h b (m : Move) ref p :
  wfGrid (_board b) ->
  validPos (fromPos m) -> validPos (toPos m) ->
  isCastling m = false -> isEnPassant m = false -> promotionPiece m = None ->
  getPiece b (fromPos m) = Ok (Some ref) ->
  deref h ref = Ok p ->
  exists w' cap,
    executeMove m (mkWorld h b) = (Ok tt, w')
    /\ getPiece b (toPos m) = Ok cap
    /\ heap w' = markAsMoved ref h
    /\ _board (brd w')
       = _board (putPiece (putPiece b (toPos m) (Some ref)) (fromPos m) None)
    /\ _capturedPieces (brd w') = _capturedPieces b ++ optionList cap
    /\ _moveHistory (brd w') = _moveHistory b ++ [m]
    /\ _enPassantTarget (brd w')
       = if PieceType_eqb (pieceType p) PAWN && spansTwoRows m
         then match skippedSquare m with Ok q => Some q | Throw _ => None end
         else None.
Proof.
  intros Hwf Hvf Hvt Hc He Hp Hfrom Hderef.
  destruct (getPiece_valid b _ Hwf Hvt) as [cap Hto].
  rewrite executeMove_unfold.
  unfold mbind at 1, Board_getPiece, query at 1. cbn [heap brd]. rewrite Hfrom.
  unfold mbind at 1, query at 1. cbn [heap brd]. rewrite Hto.
  unfold relocate. rewrite Hc, He, Hp.
  unfold mbind at 1.
  set (b1 := putPiece (putPiece b (toPos m) (Some ref)) (fromPos m) None).
  assert ((Board_setPiece (toPos m) (Some ref) >>
           Board_setPiece (fromPos m) None >> Piece_markAsMoved ref)
            (mkWorld h b)
          = (Ok tt, mkWorld (markAsMoved ref h) b1)) as ->.
  { unfold mbind, Board_setPiece, Piece_markAsMoved. cbn [heap brd].
    rewrite (setPiece_put b) by assumption. cbn [heap brd].
    rewrite setPiece_put by (auto using putPiece_wfGrid). reflexivity. }
  destruct (relocated_squares b (fromPos m) (toPos m) (Some ref) Hwf Hvf Hvt)
    as (Hwf1 & Hf1 & Ht1 & Ht1' & _). fold b1 in Hwf1, Hf1, Ht1, Ht1'.
  destruct (skippedSquare_valid m Hvf Hvt)
    as (fr & fc & tr & tc & Hef & Het & Hskip & Hspan).
  pose proof (deref_markAsMoved_same _ _ _ Hderef) as Hmoved.
  assert (exists x pw,
             getPiece b1 (toPos m) = Ok x
             /\ isPawn (markAsMoved ref h) x = Ok pw
             /\ (forall r, x = Some r -> exists p', deref (markAsMoved ref h) r = Ok p')
             /\ pw && spansTwoRows m
                = PieceType_eqb (pieceType p) PAWN && spansTwoRows m)
    as (x & pw & Hx & Hpw & Hdx & Hcond).
  { destruct (Z.eq_dec fr tr) as [Hrow | Hrow].
    - (* no row is crossed: whatever stands on the target, no target is set *)
      assert (spansTwoRows m = false) as Hno
        by (rewrite Hspan; apply Z.eqb_neq; lia).
      destruct (Z.eq_dec fc tc) as [Hcol | Hcol].
      + exists None, false. rewrite Ht1' by congruence.
        repeat split; [discriminate | now rewrite Hno, !andb_false_r].
      + exists (Some ref), (PieceType_eqb (pieceType p) PAWN).
        rewrite Ht1 by congruence. cbn [isPawn]. rewrite Hmoved.
        repeat split. intros r [= <-]. eauto.
    - exists (Some ref), (PieceType_eqb (pieceType p) PAWN).
      rewrite Ht1 by congruence. cbn [isPawn]. rewrite Hmoved.
      repeat split. intros r [= <-]. eauto. }
  destruct (bookkeeping_spec m cap (mkWorld (markAsMoved ref h) b1) x pw)
    as (w' & Hrun & Hheap & Hgrid & Hcap & Hhist & Hep); auto.
  { intros _. eauto. }
  exists w', cap. rewrite Hrun. cbn [heap brd] in *.
  repeat split; auto.
  rewrite Hep, Hcond. reflexivity.
Qed.

Lemma deref_alloc h (np : Piece) :
  deref (h ++ [np]) (length h) = Ok np.
Proof. unfold deref. now rewrite list_lookup_middle. Qed.

(** Playing a promotion. *)
Lemma executeMove_promotion h b (m : Move) ref p pt :
  wfGrid (_board b) ->
  validPos (fromPos m) -> validPos (toPos m) ->
  isCastling m = false -> isEnPassant m = false -> promotionPiece m = Some pt ->
  getPiece b (fromPos m) = Ok (Some ref) ->
  deref h ref = Ok p ->
  spansTwoRows m = false ->
  exists w' cap,
    executeMove m (mkWorld h b) = (Ok tt, w')
    /\ getPiece b (toPos m) = Ok cap
    /\ heap w' = markAsMoved (length h) (h ++ [mkPiece (color p) pt false])
    /\ _board (brd w')
       = _board (putPiece (putPiece b (toPos m) (Some (length h)))
                          (fromPos m) None)
    /\ _capturedPieces (brd w') = _capturedPieces b ++ optionList cap
    /\ _moveHistory (brd w') = _moveHistory b ++ [m]
    /\ _enPassantTarget (brd w') = None.
Proof.
  intros Hwf Hvf Hvt Hc He Hp Hfrom Hderef Hspan.
  destruct (getPiece_valid b _ Hwf Hvt) as [cap Hto].
  rewrite executeMove_unfold.
  unfold mbind at 1, Board_getPiece, query at 1. cbn [heap brd]. rewrite Hfrom.
  unfold mbind at 1, query at 1. cbn [heap brd]. rewrite Hto.
  unfold relocate. rewrite Hc, He, Hp.
  unfold mbind at 1.
  set (np := mkPiece (color p) pt false).
  set (h1 := markAsMoved (length h) (h ++ [np])).
  set (b1 := putPiece (putPiece b (toPos m) (Some (length h))) (fromPos m) None).
  assert ((do* p0 := query (fun h0 _ => deref h0 ref) in
           do* promotedPiece := newPiece pt (color p0) in
           Board_setPiece (toPos m) (Some promotedPiece) >>
           Board_setPiece (fromPos m) None >>
           Piece_markAsMoved promotedPiece) (mkWorld h b)
          = (Ok tt, mkWorld h1 b1)) as ->.
  { unfold mbind at 1, query at 1. cbn [heap brd]. rewrite Hderef.
    unfold mbind, newPiece, createPiece, alloc, Board_setPiece,
      Piece_markAsMoved. cbn [heap brd].
    rewrite (setPiece_put b) by assumption. cbn [heap brd].
    rewrite setPiece_put by (auto using putPiece_wfGrid). reflexivity. }
  destruct (relocated_squares b (fromPos m) (toPos m) (Some (length h))
              Hwf Hvf Hvt) as (Hwf1 & Hf1 & Ht1 & Ht1' & _).
  fold b1 in Hwf1, Hf1, Ht1, Ht1'.
  pose proof (deref_markAsMoved_same _ _ _ (deref_alloc h np)) as Hmoved.
  fold h1 in Hmoved.
  assert (exists x pw,
             getPiece b1 (toPos m) = Ok x
             /\ isPawn h1 x = Ok pw
             /\ (forall r, x = Some r -> exists p', deref h1 r = Ok p'))
    as (x & pw & Hx & Hpw & Hdx).
  { destruct (skippedSquare_valid m Hvf Hvt)
      as (fr & fc & tr & tc & Hef & Het & _ & _).
    destruct (Z.eq_dec fr tr) as [Hrow | Hrow];
      [destruct (Z.eq_dec fc tc) as [Hcol | Hcol] |].
    - exists None, false. rewrite Ht1' by congruence.
      repeat split. discriminate.
    - exists (Some (length h)), (PieceType_eqb (pieceType np) PAWN).
      rewrite Ht1 by congruence. cbn [isPawn]. rewrite Hmoved.
      repeat split. intros r [= <-]. eauto.
    - exists (Some (length h)), (PieceType_eqb (pieceType np) PAWN).
      rewrite Ht1 by congruence. cbn [isPawn]. rewrite Hmoved.
      repeat split. intros r [= <-]. eauto. }
  destruct (bookkeeping_spec m cap (mkWorld h1 b1) x pw)
    as (w' & Hrun & Hheap & Hgrid & Hcap & Hhist & Hep); auto.
  { rewrite Hspan, andb_false_r. discriminate. }
  exists w', cap. rewrite Hrun. cbn [heap brd] in *.
  repeat split; auto.
  rewrite Hep, Hspan, andb_false_r. reflexivity.
Qed.

(** Playing an en-passant capture. The pawn removed is the one on the row
    the capturing pawn leaves and the file it arrives on. *)
Lemma executeMove_enPassant h b (m : Move) ref p :
  wfGrid (_board b) ->
  validPos (fromPos m) -> validPos (toPos m) ->
  isCastling m = false -> isEnPassant m = true ->
  getPiece b (fromPos m) = Ok (Some ref) ->
  deref h ref = Ok p ->
  let victimPos := mkPosition (row (fromPos m)) (col (toPos m)) in
  toPos m <> fromPos m -> victimPos <> toPos m -> victimPos <> fromPos m ->
  spansTwoRows m = false ->
  exists w' cap victim,
    executeMove m (mkWorld h b) = (Ok tt, w')
    /\ getPiece b (toPos m) = Ok cap
    /\ getPiece b victimPos = Ok victim
    /\ heap w' = markAsMoved ref h
    /\ _board (brd w')
       = _board (putPiece
                   (putPiece (putPiece b (toPos m) (Some ref)) (fromPos m) None)
                   victimPos None)
    /\ _capturedPieces (brd w')
       = _capturedPieces b ++ optionList victim ++ optionList cap
    /\ _moveHistory (brd w') = _moveHistory b ++ [m]
    /\ _enPassantTarget (brd w') = None.
Proof.
  intros Hwf Hvf Hvt Hc He Hfrom Hderef victimPos Htf Hvt' Hvf' Hspan.
  assert (validPos victimPos) as Hvv.
  { destruct Hvf as (fr & fc & Hef & Hfr & Hfc).
    destruct Hvt as (tr & tc & Het & Htr & Htc).
    subst victimPos. rewrite Hef, Het. cbn [row col]. now apply validPos_Num. }
  assert (Position_new (row (fromPos m)) (col (toPos m)) = Ok victimPos) as Hnew.
  { destruct Hvv as (vr & vc & Hev & Hvr & Hvc). subst victimPos.
    injection Hev as -> ->. now apply Position_new_valid. }
  destruct (getPiece_valid b _ Hwf Hvt) as [cap Hto].
  destruct (getPiece_valid b _ Hwf Hvv) as [victim Hvictim].
  rewrite executeMove_unfold.
  unfold mbind at 1, Board_getPiece, query at 1. cbn [heap brd]. rewrite Hfrom.
  unfold mbind at 1, query at 1. cbn [heap brd]. rewrite Hto.
  unfold relocate. rewrite Hc, He.
  unfold mbind at 1.
  set (b2 := putPiece (putPiece b (toPos m) (Some ref)) (fromPos m) None).
  set (b2' := match victim with Some c => pushCaptured c b2 | None => b2 end).
  set (b3 := putPiece b2' victimPos None).
  destruct (relocated_squares b (fromPos m) (toPos m) (Some ref) Hwf Hvf Hvt)
    as (Hwf2 & Hf2 & Ht2 & _ & Hother2).
  fold b2 in Hwf2, Hf2, Ht2, Hother2.
  assert (getPiece b2 victimPos = Ok victim) as Hvictim2
    by (rewrite Hother2 by auto; exact Hvictim).
  assert (wfGrid (_board b2')) as Hwf2' by (subst b2'; now destruct victim).
  assert (executeEnPassant m (mkWorld h b)
          = (Ok tt, mkWorld (markAsMoved ref h) b3)) as ->.
  { unfold executeEnPassant.
    unfold mbind at 1, Board_getPiece, query at 1. cbn [heap brd]. rewrite Hfrom.
    unfold mbind at 1, Board_setPiece at 1. cbn [heap brd].
    rewrite (setPiece_put b) by assumption.
    unfold mbind at 1, Board_setPiece at 1. cbn [heap brd].
    rewrite setPiece_put by (auto using putPiece_wfGrid). fold b2.
    unfold mbind at 1, Piece_markAsMoved at 1. cbn [heap brd].
    unfold mbind at 1, liftR at 1. rewrite Hnew.
    unfold mbind at 1, query at 1. cbn [heap brd]. rewrite Hvictim2.
    unfold mbind at 1.
    assert (match victim with
            | Some c => modify (pushCaptured c)
            | None => mret tt
            end (mkWorld (markAsMoved ref h) b2)
            = (Ok tt, mkWorld (markAsMoved ref h) b2')) as ->
      by (subst b2'; now destruct victim).
    unfold Board_setPiece. cbn [heap brd].
    rewrite setPiece_put by assumption. reflexivity. }
  assert (_board b3 = _board (putPiece b2 victimPos None)) as Hgrid3
    by (subst b3 b2'; now destruct victim).
  assert (getPiece b3 (toPos m) = Ok (Some ref)) as Ht3.
  { rewrite (getPiece_same_grid _ _ _ Hgrid3).
    rewrite getPiece_put_other by auto. now apply Ht2. }
  pose proof (deref_markAsMoved_same _ _ _ Hderef) as Hmoved.
  destruct (bookkeeping_spec m cap (mkWorld (markAsMoved ref h) b3)
              (Some ref) (PieceType_eqb (pieceType p) PAWN))
    as (w' & Hrun & Hheap & Hgrid & Hcap & Hhist & Hep); cbn [heap brd]; auto.
  { cbn [isPawn]. now rewrite Hmoved. }
  { intros r [= <-]. eauto. }
  { rewrite Hspan, andb_false_r. discriminate. }
  exists w', cap, victim. rewrite Hrun. cbn [heap brd] in *.
  repeat split; auto.
  - now rewrite Hgrid.
  - rewrite Hcap. subst b3 b2'. destruct victim; cbn; now rewrite <- ?app_assoc.
  - rewrite Hhist. subst b3 b2'. now destruct victim.
  - rewrite Hep, Hspan, andb_false_r. reflexivity.
Qed.

(** ** What a generated move looks like *)

Lemma jseq_eq (a b : JsNum) : jseq a b = true -> a = b.
Proof.
  destruct a as [| x], b as [| y]; cbn [jseq]; try discriminate.
  intros Heq. apply Z.eqb_eq in Heq. now subst.
Qed.

Lemma Position_equals_eq (a b : Position) :
  Position_equals a b = true -> a = b.
Proof.
  destruct a as [ar ac], b as [br bc]. unfold Position_equals. cbn [row col].
  intros [Hr Hc]%andb_true_iff. apply jseq_eq in Hr, Hc. now subst.
Qed.

Lemma Move_equals_eq (a b : Move) : Move_equals a b = true -> a = b.
Proof.
  destruct a as [af at_ ap ac ae], b as [bf bt bp bc be].
  unfold Move_equals. cbn [fromPos toPos promotionPiece isCastling isEnPassant].
  intros Heq.
  apply andb_true_iff in Heq as [Heq He]. apply andb_true_iff in Heq as [Heq Hc].
  apply andb_true_iff in Heq as [Heq Hp]. apply andb_true_iff in Heq as [Hf Ht].
  apply Position_equals_eq in Hf, Ht. apply Bool.eqb_prop in He, Hc.
  assert (ap = bp) by
    (destruct ap as [[] |], bp as [[] |]; cbn in Hp; congruence).
  now subst.
Qed.

Lemma leapTo_valid h b self (r c : Z) d ms :
  leapTo h b self (mkPosition r c) d = Ok ms ->
  Forall (fun m => validPos (toPos m)) ms.
Proof.
  unfold leapTo. cbn [row col jadd].
  destruct (_ && _); [| intros [= <-]; constructor].
  destruct (Position_new _ _) as [newPos |] eqn:Hnew; cbn [rbind];
    [| discriminate].
  apply Position_new_Ok in Hnew as (-> & Hr & Hc).
  assert (validPos (mkPosition (r + d.1) (c + d.2))) by now apply validPos_Num.
  destruct (getPiece b _) as [[ref |] |]; cbn [rbind]; [| | discriminate].
  - destruct (deref h ref) as [tp |]; cbn [rbind]; [| discriminate].
    destruct (negb _); intros [= <-]; repeat constructor; assumption.
  - intros [= <-]; repeat constructor; assumption.
Qed.

Lemma leap_valid h b self (r c : Z) offsets ms :
  leap h b self (mkPosition r c) offsets = Ok ms ->
  Forall (fun m => validPos (toPos m)) ms.
Proof. apply collect_Forall. intros d res. apply leapTo_valid. Qed.

Lemma slideRay_valid h b self (r c : Z) k dr dc distance ms :
  slideRay h b self (mkPosition r c) k dr dc distance = Ok ms ->
  Forall (fun m => validPos (toPos m)) ms.
Proof.
  revert distance ms.
  induction k as [| k IH]; intros distance ms; cbn [slideRay].
  - intros [= <-]. constructor.
  - cbn [row col jadd jmul].
    destruct (_ || _); [intros [= <-]; constructor |].
    destruct (Position_new _ _) as [newPos |] eqn:Hnew; cbn [rbind];
      [| discriminate].
    apply Position_new_Ok in Hnew as (-> & Hr & Hc).
    assert (validPos (mkPosition (r + dr * distance) (c + dc * distance)))
      by now apply validPos_Num.
    destruct (getPiece b _) as [[ref |] |]; cbn [rbind]; [| | discriminate].
    + destruct (deref h ref) as [tp |]; cbn [rbind]; [| discriminate].
      destruct (negb _); intros [= <-]; repeat constructor; assumption.
    + destruct (slideRay h b self _ k dr dc (distance + 1)) as [rest |] eqn:Hrest;
        cbn [rbind]; [| discriminate].
      intros [= <-]. constructor; [assumption | now apply (IH (distance + 1))].
Qed.

Lemma slide_valid h b self (r c : Z) directions ms :
  slide h b self (mkPosition r c) directions = Ok ms ->
  Forall (fun m => validPos (toPos m)) ms.
Proof. apply collect_Forall. intros d res. apply slideRay_valid. Qed.

Lemma King_getPossibleMoves_valid (g : Generator) h b self (r c : Z) ref ms :
  getPiece b (mkPosition r c) = Ok (Some ref) ->
  King_getPossibleMoves g h b self (mkPosition r c) = Ok ms ->
  Forall (fun m => validPos (toPos m)) ms.
Proof.
  intros Hocc. unfold King_getPossibleMoves.
  destruct (leap h b self _ kingDirections) as [adj |] eqn:Hadj;
    cbn [rbind]; [| discriminate].
  apply leap_valid in Hadj.
  destruct (negb (hasMoved self)); [| now intros [= <-]].
  destruct (isInCheck_ g h b (color self)) as [[|] |]; cbn [rbind negb];
    [now intros [= <-] | | discriminate].
  destruct (getCastlingMoves g h b self _) as [cm |] eqn:Hcm;
    cbn [rbind]; [| discriminate].
  apply (getCastlingMoves_occupied _ _ _ _ _ _ _ Hocc) in Hcm. subst cm.
  intros [= <-]. now rewrite app_nil_r.
Qed.

Lemma getPossibleMoves_valid (n : nat) h b self (r c : Z) ref ms :
  pieceType self <> PAWN ->
  getPiece b (mkPosition r c) = Ok (Some ref) ->
  getPossibleMoves n h b self (mkPosition r c) = Ok ms ->
  Forall (fun m => validPos (toPos m)) ms.
Proof.
  intros Hpt Hocc.
  destruct n as [| n]; cbn [getPossibleMoves];
    destruct (pieceType self); try contradiction;
    eauto using slide_valid, leap_valid, King_getPossibleMoves_valid.
Qed.

Lemma Pawn_direction_cases (self : Piece) :
  Pawn_direction self = -1 \/ Pawn_direction self = 1.
Proof. unfold Pawn_direction. destruct (color self); auto. Qed.

(** The three kinds of move a pawn generates: one row ahead (straight or
    capturing, promotions among them), the en-passant capture, and the
    double step. *)
Lemma pawn_move_cases h b self (r c : Z) ms m :
  Pawn_getPossibleMoves h b self (mkPosition r c) = Ok ms ->
  In m ms ->
  let pos := mkPosition r c in
  let d := Pawn_direction self in
  fromPos m = pos /\ validPos (toPos m) /\ isCastling m = false
  /\ ((row (toPos m) = Num (r + d) /\ isEnPassant m = false)
      \/ (exists off, (off = -1 \/ off = 1)
            /\ m = mkMove pos (mkPosition (r + d) (c + off)) None false true
            /\ canEnPassant h b pos (mkPosition (r + d) (c + off)) = Ok true)
      \/ (m = plainMove pos (mkPosition (r + d + d) c)
          /\ hasMoved self = false
          /\ getPiece b (mkPosition (r + d) c) = Ok None
          /\ getPiece b (mkPosition (r + d + d) c) = Ok None)).
Proof.
  intros Hgen Hin pos d. subst pos d.
  apply Pawn_getPossibleMoves_shape in Hgen
    as (fwd & capL & capR & -> & Hfwd & HcapL & HcapR).
  rewrite List.Forall_forall in Hfwd. rewrite !in_app_iff in Hin.
  assert (forall off cap, (off = -1 \/ off = 1) ->
            isCaptureBlock h b self r c off cap -> In m cap ->
            fromPos m = mkPosition r c /\ validPos (toPos m)
            /\ isCastling m = false
            /\ ((row (toPos m) = Num (r + Pawn_direction self)
                 /\ isEnPassant m = false)
                \/ (exists off, (off = -1 \/ off = 1)
                      /\ m = mkMove (mkPosition r c)
                               (mkPosition (r + Pawn_direction self) (c + off))
                               None false true
                      /\ canEnPassant h b (mkPosition r c)
                           (mkPosition (r + Pawn_direction self) (c + off))
                         = Ok true)
                \/ (m = plainMove (mkPosition r c)
                          (mkPosition (r + Pawn_direction self
                                       + Pawn_direction self) c)
                    /\ hasMoved self = false
                    /\ getPiece b (mkPosition (r + Pawn_direction self) c)
                       = Ok None
                    /\ getPiece b (mkPosition (r + Pawn_direction self
                                               + Pawn_direction self) c)
                       = Ok None))) as Hblock.
  { intros off cap Hoff Hcap Hm. unfold isCaptureBlock in Hcap.
    destruct Hcap as [-> | (Hv & [Hall | [-> Hep]])]; [contradiction | |].
    - rewrite List.Forall_forall in Hall.
      apply Hall in Hm as (Hf & Ht & Hc & He).
      rewrite Ht. repeat split; auto.
    - destruct Hm as [<- | []]. cbn [fromPos toPos isCastling].
      repeat split; auto. right. left. exists off. auto. }
  destruct Hin as [Hin | [Hin | Hin]].
  - apply Hfwd in Hin as (Hf & Hc & He & Hv & [Ht | Hdouble]).
    + repeat split; auto. left. now rewrite Ht.
    + repeat split; auto.
  - apply (Hblock (-1) capL); auto.
  - apply (Hblock 1 capR); auto.
Qed.

(** Every move a piece generates from the square it stands on can be
    played: [executeMove] returns, the move is appended to the history, the
    square it left is empty, and the en-passant target is set exactly when a
    pawn has gone two rows. The store may be any in which the piece is still
    a piece of the same class. *)
Lemma executeMove_generated (n : nat) h h' b p p' pos ref ms m :
  wfGrid (_board b) ->
  getPiece b pos = Ok (Some ref) ->
  deref h ref = Ok p ->
  getPossibleMoves n h b p pos = Ok ms ->
  In m ms ->
  deref h' ref = Ok p' -> pieceType p' = pieceType p ->
  exists w',
    executeMove m (mkWorld h' b) = (Ok tt, w')
    /\ wfGrid (_board (brd w'))
    /\ _moveHistory (brd w') = _moveHistory b ++ [m]
    /\ getPiece (brd w') pos = Ok None
    /\ _enPassantTarget (brd w')
       = if PieceType_eqb (pieceType p) PAWN && spansTwoRows m
         then match skippedSquare m with Ok q => Some q | Throw _ => None end
         else None.
Proof.
  intros Hwf Hocc Hderef Hgen Hin Hderef' Hsame.
  pose proof (getPiece_Some_valid _ _ _ Hwf Hocc) as Hvpos.
  destruct (getPiece_Some_Num _ _ _ Hocc) as (r & c & ->).
  assert (forall w' : World,
            _board (brd w')
            = _board (putPiece (putPiece b (toPos m) (Some ref))
                               (mkPosition r c) None) ->
            validPos (toPos m) ->
            wfGrid (_board (brd w'))
            /\ getPiece (brd w') (mkPosition r c) = Ok None) as Hplaced.
  { intros w' Hgrid Hvt.
    destruct (relocated_squares b (mkPosition r c) (toPos m) (Some ref)
                Hwf Hvpos Hvt) as (Hwf1 & Hf1 & _).
    rewrite Hgrid. split; [exact Hwf1 |].
    now rewrite (getPiece_same_grid _ _ _ Hgrid). }
  destruct (PieceType_eqb (pieceType p) PAWN) eqn:Hpt.
  - assert (pieceType p = PAWN) as Hpawn by (now destruct (pieceType p)).
    rewrite getPossibleMoves_pawn in Hgen by exact Hpawn.
    destruct (pawn_move_cases _ _ _ _ _ _ _ Hgen Hin)
      as (Hf & Hvt & Hc & Hkind).
    pose proof (Pawn_direction_cases p) as Hd.
    destruct Hkind as [[Hrow He] | [(off & Hoff & Hm & _) | (Hm & _)]].
    + (* one row ahead: a plain move or a promotion *)
      assert (spansTwoRows m = false) as Hspan
        by (unfold spansTwoRows; rewrite Hf, Hrow; cbn [row jsub jabs jseq];
            apply Z.eqb_neq; lia).
      destruct (promotionPiece m) as [pt |] eqn:Hpromo.
      * destruct (executeMove_promotion h' b m ref p' pt)
          as (w' & cap & Hrun & _ & _ & Hgrid & _ & Hhist & Hep);
          rewrite ?Hf; auto.
        exists w'. rewrite Hf in Hgrid.
        destruct (relocated_squares b (mkPosition r c) (toPos m)
                    (Some (length h')) Hwf Hvpos Hvt) as (Hwf1 & Hf1 & _).
        rewrite Hspan, andb_false_r.
        split; [exact Hrun |]. split; [now rewrite Hgrid |].
        split; [exact Hhist |]. split; [| exact Hep].
        now rewrite (getPiece_same_grid _ _ _ Hgrid).
      * destruct (executeMove_plain h' b m ref p')
          as (w' & cap & Hrun & _ & _ & Hgrid & _ & Hhist & Hep);
          rewrite ?Hf; auto.
        exists w'. rewrite Hf in Hgrid.
        destruct (Hplaced w' Hgrid Hvt) as [Hwf1 Hf1].
        rewrite Hep, Hsame, Hpt. auto.
    + (* the en-passant capture *)
      assert (spansTwoRows m = false) as Hspan
        by (rewrite Hm; unfold spansTwoRows;
            cbn [fromPos toPos row jsub jabs jseq]; apply Z.eqb_neq; lia).
      assert (isEnPassant m = true) as He by (rewrite Hm; reflexivity).
      assert (mkPosition (row (fromPos m)) (col (toPos m)) <> fromPos m)
        as Hvne by (rewrite Hm; cbn [fromPos toPos row col]; intros [= Heq]; lia).
      assert (validPos (mkPosition (row (fromPos m)) (col (toPos m)))) as Hvv.
      { rewrite Hf. destruct Hvpos as (r0 & c0 & [= -> ->] & ? & ?).
        destruct Hvt as (tr & tc & -> & ? & ?). cbn [row col].
        now apply validPos_Num. }
      destruct (executeMove_enPassant h' b m ref p')
        as (w' & cap & victim & Hrun & _ & _ & _ & Hgrid & _ & Hhist & Hep);
        rewrite ?Hf; auto.
      { rewrite Hm. cbn [toPos]. intros [= Heq]. lia. }
      { rewrite Hm. cbn [toPos row col]. intros [= Heq]. lia. }
      { now rewrite <- Hf. }
      exists w'. rewrite Hf in Hgrid, Hvne, Hvv. rewrite Hspan, andb_false_r.
      destruct (relocated_squares b (mkPosition r c) (toPos m) (Some ref)
                  Hwf Hvpos Hvt) as (Hwf1 & Hf1 & _).
      split; [exact Hrun |].
      split; [rewrite Hgrid; now apply putPiece_wfGrid |].
      split; [exact Hhist |]. split; [| exact Hep].
      rewrite (getPiece_same_grid _ _ _ Hgrid).
      rewrite getPiece_put_other by auto. exact Hf1.
    + (* the double step *)
      destruct (executeMove_plain h' b m ref p')
        as (w' & cap & Hrun & _ & _ & Hgrid & _ & Hhist & Hep);
        rewrite ?Hf; auto; try (rewrite Hm; reflexivity).
      exists w'. rewrite Hf in Hgrid.
      destruct (Hplaced w' Hgrid Hvt) as [Hwf1 Hf1].
      rewrite Hep, Hsame, Hpt. auto.
  - assert (pieceType p <> PAWN) as Hother by (intros E; now rewrite E in Hpt).
    pose proof (getPossibleMoves_plain n h b p _ ref ms Hother Hocc Hgen) as Hplain.
    pose proof (getPossibleMoves_valid n h b p _ _ ref ms Hother Hocc Hgen) as Hvalid.
    rewrite List.Forall_forall in Hplain, Hvalid.
    specialize (Hplain m Hin). specialize (Hvalid m Hin).
    destruct (executeMove_plain h' b m ref p')
      as (w' & cap & Hrun & _ & _ & Hgrid & _ & Hhist & Hep);
      auto; try (rewrite Hplain; cbn; auto; fail).
    assert (fromPos m = mkPosition r c) as Hf by (rewrite Hplain; reflexivity).
    exists w'. rewrite Hf in Hgrid.
    destruct (Hplaced w' Hgrid Hvalid) as [Hwf1 Hf1].
    rewrite Hep, Hsame, Hpt. auto.
Qed.

(** ** What a move can do to the store *)

Lemma samePieces_refl h : samePieces h h.
Proof. intros r p Hp. exists (hasMoved p). now destruct p. Qed.

Lemma samePieces_trans h1 h2 h3 :
  samePieces h1 h2 -> samePieces h2 h3 -> samePieces h1 h3.
Proof.
  intros H12 H23 r p Hp.
  destruct (H12 r p Hp) as [mv Hp2].
  destruct (H23 r _ Hp2) as [mv' Hp3]. now exists mv'.
Qed.

Lemma samePieces_app h extra : samePieces h (h ++ extra).
Proof.
  intros r p Hp. exists (hasMoved p). unfold deref in *.
  destruct (h !! r) as [p0 |] eqn:Hr; [| discriminate].
  injection Hp as ->. rewrite lookup_app_l by (now apply lookup_lt_Some in Hr).
  rewrite Hr. now destruct p.
Qed.

Lemma keeps_bind {A B} (m : M A) (k : A -> M B) :
  keepsPieces m -> (forall a, keepsPieces (k a)) -> keepsPieces (mbind m k).
Proof.
  intros Hm Hk w. unfold mbind. specialize (Hm w).
  destruct (m w) as [[a | e] w1]; cbn [snd] in *; [| exact Hm].
  eapply samePieces_trans; [exact Hm | apply Hk].
Qed.

Lemma keeps_same {A} (m : M A) :
  (forall w, heap (snd (m w)) = heap w) -> keepsPieces m.
Proof. intros Hm w. rewrite Hm. apply samePieces_refl. Qed.

Lemma keeps_mret {A} (a : A) : keepsPieces (mret a).
Proof. now apply keeps_same. Qed.

Lemma keeps_mthrow {A} (e : Exn) : keepsPieces (@mthrow A e).
Proof. now apply keeps_same. Qed.

Lemma keeps_query {A} (f : Heap -> Board -> Res A) : keepsPieces (query f).
Proof. now apply keeps_same. Qed.

Lemma keeps_liftR {A} (r : Res A) : keepsPieces (liftR r).
Proof. now apply keeps_same. Qed.

Lemma keeps_modify (f : Board -> Board) : keepsPieces (modify f).
Proof. now apply keeps_same. Qed.

Lemma keeps_getPiece pos : keepsPieces (Board_getPiece pos).
Proof. now apply keeps_same. Qed.

Lemma keeps_setPiece pos x : keepsPieces (Board_setPiece pos x).
Proof.
  apply keeps_same. intros w. unfold Board_setPiece.
  now destruct (setPiece (brd w) pos x).
Qed.

Lemma keeps_markAsMoved r : keepsPieces (Piece_markAsMoved r).
Proof.
  intros w r' p Hp. cbn [Piece_markAsMoved snd heap].
  now apply deref_markAsMoved.
Qed.

Lemma keeps_newPiece pt c : keepsPieces (newPiece pt c).
Proof. intros w. cbn. apply samePieces_app. Qed.

(** Breaks a computation down to the steps above. *)
Ltac keeps :=
  repeat first
    [ apply keeps_mret | apply keeps_mthrow | apply keeps_query
    | apply keeps_liftR | apply keeps_modify | apply keeps_getPiece
    | apply keeps_setPiece | apply keeps_markAsMoved | apply keeps_newPiece
    | apply keeps_bind; [| intros ?]
    | match goal with
      | |- keepsPieces (match ?x with _ => _ end) => destruct x
      end ].

Lemma keeps_executeMove (m : Move) : keepsPieces (executeMove m).
Proof.
  unfold executeMove, executeCastling, executeEnPassant,
    updateEnPassantTarget, updateMoveCounters.
  keeps.
Qed.

Lemma Board_new_heap h : exists extra, snd (Board_new h) = h ++ extra.
Proof.
  unfold Board_new. cbn. repeat rewrite <- app_assoc. eexists. reflexivity.
Qed.

Lemma keeps_simulate (m : Move) : keepsPieces (simulate m).
Proof.
  intros w. unfold simulate, mbind, deepCopy.
  destruct (Board_new (heap w)) as [fresh h1] eqn:Hnew.
  destruct (Board_new_heap (heap w)) as [extra Hextra].
  rewrite Hnew in Hextra. cbn [snd] in Hextra. subst h1.
  unfold onBoard. cbn [heap brd].
  pose proof (keeps_executeMove m
                (mkWorld (heap w ++ extra)
                   (mkBoard (map (fun cells => cells) (_board (brd w)))
                      (_moveHistory (brd w)) (_capturedPieces (brd w))
                      (_enPassantTarget (brd w)) (_halfMoveClock (brd w))
                      (_fullMoveNumber (brd w))))) as Hexec.
  cbn [heap] in Hexec.
  destruct (executeMove m _) as [[u | e] w1]; cbn [snd heap] in *;
    (eapply samePieces_trans; [apply samePieces_app | exact Hexec]).
Qed.


(** The simulation leaves every piece in the store, with its colour and
    class. *)
Lemma keeps_wouldBeInCheckAfterMove (n : nat) (m : Move) (c : Color) :
  keepsPieces (wouldBeInCheckAfterMove n m c).
Proof.
  intros w. rewrite wouldBeInCheckAfterMove_simulate.
  pose proof (keeps_simulate m w) as Hsim.
  destruct (simulate m w) as [[[u played] | e] w1]; exact Hsim.
Qed.

(** ** En passant *)



(** When a generated move leaves an en-passant target behind, it was a
    pawn's double step, and the target is the square the pawn passed over,
    which is empty. The move may be played in a later store [h']. *)
Lemma target_after_generated (n : nat) h h' b p pos ref ms m w' q :
  wfGrid (_board b) ->
  getPiece b pos = Ok (Some ref) ->
  deref h ref = Ok p ->
  getPossibleMoves n h b p pos = Ok ms ->
  In m ms ->
  samePieces h h' ->
  executeMove m (mkWorld h' b) = (Ok tt, w') ->
  _enPassantTarget (brd w') = Some q ->
  isDoublePush p m = true
  /\ m = plainMove pos (toPos m)
  /\ col (toPos m) = col pos
  /\ skippedSquare m = Ok q
  /\ getPiece (brd w') q = Ok None.
Proof.
  intros Hwf Hocc Hderef Hgen Hin Hsame Hrun Hq.
  pose proof (getPiece_Some_valid _ _ _ Hwf Hocc) as Hvpos.
  destruct (Hsame _ _ Hderef) as [moved Hderef'].
  destruct (executeMove_generated n h h' b p _ pos ref ms m
              Hwf Hocc Hderef Hgen Hin Hderef' eq_refl)
    as (w'' & Hrun' & _ & _ & _ & Hep).
  rewrite Hrun in Hrun'. injection Hrun' as <-.
  rewrite Hq in Hep. fold (isDoublePush p m) in Hep.
  destruct (isDoublePush p m) eqn:Hdouble; [| discriminate].
  apply andb_true_iff in Hdouble as [Hpt Hspan].
  assert (pieceType p = PAWN) as Hpawn by (now destruct (pieceType p)).
  destruct (getPiece_Some_Num _ _ _ Hocc) as (r & c & ->).
  rewrite getPossibleMoves_pawn in Hgen by exact Hpawn.
  destruct (pawn_move_cases _ _ _ _ _ _ _ Hgen Hin)
    as (Hf & Hvt & Hc & Hkind).
  pose proof (Pawn_direction_cases p) as Hd.
  destruct Hkind as [[Hrow _] | [(off & _ & Hm & _) | (Hm & _ & Hone & _)]].
  - unfold spansTwoRows in Hspan. rewrite Hf, Hrow in Hspan.
    cbn [row jsub jabs jseq] in Hspan. apply Z.eqb_eq in Hspan. lia.
  - rewrite Hm in Hspan. unfold spansTwoRows in Hspan.
    cbn [fromPos toPos row jsub jabs jseq] in Hspan.
    apply Z.eqb_eq in Hspan. lia.
  - destruct Hvpos as (r0 & c0 & [= -> ->] & Hr & Hcol).
    assert (toPos m = mkPosition (r0 + Pawn_direction p + Pawn_direction p) c0)
      as Hto by (rewrite Hm; reflexivity).
    destruct Hvt as (tr & tc & Het & Htr & Htc). rewrite Hto in Het.
    injection Het as Htr' Htc'.
    assert (skippedSquare m = Ok (mkPosition (r0 + Pawn_direction p) c0))
      as Hskip.
    { unfold skippedSquare. rewrite Hf, Hto. cbn [row col jadd jhalf].
      replace ((r0 + (r0 + Pawn_direction p + Pawn_direction p)) / 2)
        with (r0 + Pawn_direction p)
        by (apply Z.div_unique_exact; lia).
      apply Position_new_valid; lia. }
    rewrite Hskip in Hep. injection Hep as ->.
    split; [reflexivity |].
    split; [rewrite Hto; exact Hm |].
    split; [now rewrite Hto |]. split; [exact Hskip |].
    destruct (executeMove_plain h' b m ref
                (mkPiece (color p) (pieceType p) moved))
      as (w'' & cap & Hrun' & _ & _ & Hgrid & _);
      rewrite ?Hf, ?Hto; auto; try (rewrite Hm; reflexivity);
      try (apply validPos_Num; lia).
    rewrite Hrun in Hrun'. injection Hrun' as <-.
    rewrite (getPiece_same_grid _ _ _ Hgrid). rewrite Hf, Hto.
    destruct (relocated_squares b (mkPosition r0 c0)
                (mkPosition (r0 + Pawn_direction p + Pawn_direction p) c0)
                (Some ref) Hwf)
      as (_ & _ & _ & _ & Hrest);
      [apply validPos_Num; lia | apply validPos_Num; lia |].
    rewrite Hrest; [exact Hone | apply validPos_Num; lia | |];
      intros [= ?]; lia.
Qed.

(** The en-passant target a generated move leaves is never on the first or
    the last row. *)
Lemma generated_target_inside (n : nat) h h' b p pos ref ms m w' :
  wfGrid (_board b) ->
  getPiece b pos = Ok (Some ref) ->
  deref h ref = Ok p ->
  getPossibleMoves n h b p pos = Ok ms ->
  In m ms ->
  samePieces h h' ->
  executeMove m (mkWorld h' b) = (Ok tt, w') ->
  epTargetInside (brd w').
Proof.
  intros Hwf Hocc Hderef Hgen Hin Hsame Hrun q Hq.
  destruct (target_after_generated n h h' b p pos ref ms m w' q
              Hwf Hocc Hderef Hgen Hin Hsame Hrun Hq)
    as (Hdouble & Hm & Hcol & Hskip & _).
  apply andb_true_iff in Hdouble as [Hpt Hspan].
  assert (pieceType p = PAWN) as Hpawn by (now destruct (pieceType p)).
  destruct (getPiece_Some_valid _ _ _ Hwf Hocc) as (r & c & -> & Hr & Hc).
  rewrite getPossibleMoves_pawn in Hgen by exact Hpawn.
  destruct (pawn_move_cases _ _ _ _ _ _ _ Hgen Hin)
    as (_ & (tr & tc' & Hto & Htr & _) & _).
  unfold skippedSquare in Hskip. unfold spansTwoRows in Hspan.
  assert (fromPos m = mkPosition r c) as Hfrom by (rewrite Hm; reflexivity).
  rewrite Hfrom in Hskip, Hspan. cbn [row col] in Hskip, Hspan, Hcol.
  rewrite Hcol in Hskip.
  rewrite Hto in Hskip, Hspan. cbn [row] in Hskip, Hspan.
  cbn [jsub jabs jseq jadd jhalf] in Hskip, Hspan.
  apply Z.eqb_eq in Hspan.
  apply Position_new_Ok in Hskip as (-> & Hrow & _).
  exists ((r + tr) / 2), c. split; [reflexivity |]. split; [| exact Hc].
  assert (tr = r + 2 \/ tr = r - 2) as [-> | ->] by lia.
  - replace ((r + (r + 2)) / 2) with (r + 1) in *
      by (apply Z.div_unique_exact; lia).
    lia.
  - replace ((r + (r - 2)) / 2) with (r - 1) in *
      by (apply Z.div_unique_exact; lia).
    lia.
Qed.



(** ** Who may move *)

Lemma isMoveValid_generated (n : nat) h b p m :
  isMoveValid n h b p m = Ok true ->
  exists ms, getPossibleMoves n h b p (fromPos m) = Ok ms /\ In m ms.
Proof.
  unfold isMoveValid.
  destruct (getPossibleMoves n h b p (fromPos m)) as [ms |]; cbn [rbind];
    [| discriminate].
  intros [= Hex]. apply existsb_exists in Hex as (m' & Hin & Heq).
  apply Move_equals_eq in Heq. subst m'. now exists ms.
Qed.

(** [Board.makeMove] on a move that its piece generates and that passes the
    simulation: the move is played on the board as the simulation left the
    store. *)
Lemma Board_makeMove_accepts (n : nat) h b p ref m w1 :
  wfGrid (_board b) ->
  getPiece b (fromPos m) = Ok (Some ref) ->
  deref h ref = Ok p ->
  isMoveValid n h b p m = Ok true ->
  wouldBeInCheckAfterMove n m (color p) (mkWorld h b) = (Ok false, w1) ->
  exists w',
    Board_makeMove n m (mkWorld h b) = (Ok true, w')
    /\ executeMove m (mkWorld (heap w1) b) = (Ok tt, w')
    /\ _moveHistory (brd w') = _moveHistory b ++ [m]
    /\ getPiece (brd w') (fromPos m) = Ok None.
Proof.
  intros Hwf Hocc Hderef Hvalid Hsim.
  destruct (isMoveValid_generated n h b p m Hvalid) as (ms & Hgen & Hin).
  pose proof (keeps_wouldBeInCheckAfterMove n m (color p) (mkWorld h b) ref p)
    as Hkept.
  pose proof (wouldBeInCheckAfterMove_board n m (color p) (mkWorld h b)) as Hbrd.
  rewrite Hsim in Hkept, Hbrd. cbn [snd heap brd] in Hkept, Hbrd.
  destruct (Hkept Hderef) as [moved Hderef1].
  destruct (executeMove_generated n h (heap w1) b p
              (mkPiece (color p) (pieceType p) moved) (fromPos m) ref ms m)
    as (w' & Hrun & _ & Hhist & Hleft & _); auto.
  exists w'.
  split; [| now repeat split].
  unfold Board_makeMove.
  unfold mbind at 1, Board_getPiece, query at 1. cbn [heap brd]. rewrite Hocc.
  unfold mbind at 1, query at 1. cbn [heap brd]. rewrite Hderef.
  unfold mbind at 1, query at 1. cbn [heap brd]. rewrite Hvalid. cbn [negb].
  unfold mbind at 1. rewrite Hsim.
  destruct w1 as [h1 b1]. cbn [heap brd] in *. subst b1.
  unfold mbind. rewrite Hrun. reflexivity.
Qed.




(* ===================================================================== *)
(** * Further properties of the engine *)
(* ===================================================================== *)

(** ** The moves a piece generates *)

Lemma collect_Forall_In {A B} (P : B -> Prop) (f : A -> Res (list B)) l ms :
  (forall x r, In x l -> f x = Ok r -> Forall P r) ->
  collect f l = Ok ms -> Forall P ms.
Proof.
  revert ms.
  induction l as [| x l IH]; intros ms Hf; cbn [collect].
  - intros [= <-]. constructor.
  - destruct (f x) as [here |] eqn:Hx; cbn [rbind]; [| discriminate].
    destruct (collect f l) as [rest |] eqn:Hrest; cbn [rbind]; [| discriminate].
    intros [= <-]. apply Forall_app. split.
    + apply (Hf x); [now left | exact Hx].
    + apply IH; [| reflexivity]. intros y r Hy. apply Hf. now right.
Qed.

Lemma Color_eqb_false (a b : Color) : Color_eqb a b = false -> a <> b.
Proof. destruct a, b; (discriminate || (intros _; discriminate)). Qed.

Lemma leapTo_shape h b self (r c : Z) (d : Z * Z) ms :
  leapTo h b self (mkPosition r c) d = Ok ms ->
  Forall (fun m =>
            m = plainMove (mkPosition r c) (mkPosition (r + fst d) (c + snd d))
            /\ validPos (mkPosition (r + fst d) (c + snd d))
            /\ landable h b self (mkPosition (r + fst d) (c + snd d))) ms.
Proof.
  unfold leapTo. cbn [row col jadd].
  destruct (_ && _); [| intros [= <-]; constructor].
  destruct (Position_new _ _) as [newPos |] eqn:Hnew; cbn [rbind];
    [| discriminate].
  apply Position_new_Ok in Hnew as (-> & Hr & Hc).
  assert (validPos (mkPosition (r + fst d) (c + snd d))) as Hv
    by now apply validPos_Num.
  destruct (getPiece b _) as [[ref |] |] eqn:Hget; cbn [rbind];
    [| | discriminate].
  - destruct (deref h ref) as [tp |] eqn:Htp; cbn [rbind]; [| discriminate].
    destruct (Color_eqb (color tp) (color self)) eqn:Hcol; cbn [negb];
      intros [= <-]; constructor; [| constructor].
    split; [reflexivity |]. split; [exact Hv |].
    right. exists ref, tp. apply Color_eqb_false in Hcol. auto.
  - intros [= <-]. constructor; [| constructor].
    split; [reflexivity |]. split; [exact Hv |]. now left.
Qed.

Lemma leap_shape h b self (r c : Z) offsets ms :
  leap h b self (mkPosition r c) offsets = Ok ms ->
  Forall (isLeapMove h b self r c offsets) ms.
Proof.
  apply collect_Forall_In. intros d res Hd Hres.
  apply leapTo_shape in Hres.
  eapply Forall_impl; [exact Hres |].
  intros m (Hm & Hv & Hland). exists d. auto.
Qed.

(** One ray, from the step it has reached: the squares behind it are free. *)
Lemma slideRay_shape h b self (r c : Z) (d : Z * Z) k distance ms :
  slideRay h b self (mkPosition r c) k (fst d) (snd d) distance = Ok ms ->
  1 <= distance -> distance + Z.of_nat k <= 8 ->
  (forall j, 1 <= j < distance -> getPiece b (shifted r c d j) = Ok None) ->
  Forall (fun m =>
            exists k', 1 <= k' <= 7
              /\ m = plainMove (mkPosition r c) (shifted r c d k')
              /\ validPos (shifted r c d k')
              /\ landable h b self (shifted r c d k')
              /\ forall j, 1 <= j < k' ->
                    getPiece b (shifted r c d j) = Ok None) ms.
Proof.
  revert distance ms.
  induction k as [| k IH]; intros distance ms; cbn [slideRay].
  - intros [= <-]. constructor.
  - cbn [row col jadd jmul]. intros Hrun Hone Hbound Hfree.
    destruct (_ || _); [injection Hrun as <-; constructor |].
    destruct (Position_new _ _) as [newPos |] eqn:Hnew; cbn [rbind] in Hrun;
      [| discriminate].
    apply Position_new_Ok in Hnew as (-> & Hr & Hc).
    assert (validPos (shifted r c d distance)) as Hv
      by (now apply validPos_Num).
    fold (shifted r c d distance) in Hrun.
    destruct (getPiece b (shifted r c d distance)) as [[ref |] |] eqn:Hget;
      cbn [rbind] in Hrun; [| | discriminate].
    + destruct (deref h ref) as [tp |] eqn:Htp; cbn [rbind] in Hrun;
        [| discriminate].
      destruct (Color_eqb (color tp) (color self)) eqn:Hcol; cbn [negb] in Hrun;
        injection Hrun as <-; constructor; [| constructor].
      exists distance. split; [lia |]. split; [reflexivity |].
      split; [exact Hv |]. split; [| exact Hfree].
      right. exists ref, tp. apply Color_eqb_false in Hcol. auto.
    + destruct (slideRay h b self _ k (fst d) (snd d) (distance + 1))
        as [rest |] eqn:Hrest; cbn [rbind] in Hrun; [| discriminate].
      injection Hrun as <-. constructor.
      * exists distance. split; [lia |]. split; [reflexivity |].
        split; [exact Hv |]. split; [now left | exact Hfree].
      * apply (IH (distance + 1) rest Hrest); [lia | lia |].
        intros j Hj. destruct (Z.eq_dec j distance) as [-> | Hne];
          [exact Hget | apply Hfree; lia].
Qed.

Lemma slide_shape h b self (r c : Z) directions ms :
  slide h b self (mkPosition r c) directions = Ok ms ->
  Forall (isSlideMove h b self r c directions) ms.
Proof.
  apply collect_Forall_In. intros d res Hd Hres.
  apply slideRay_shape in Hres; [| lia | cbn; lia | intros j Hj; lia].
  eapply Forall_impl; [exact Hres |].
  intros m (k & Hk & Hm & Hv & Hland & Hfree). exists d, k.
  repeat (split; [assumption |]); assumption.
Qed.

(** On the square it stands on, the king makes its adjacent steps and
    nothing else. *)
Lemma King_getPossibleMoves_adjacent (g : Generator) h b self pos ref ms :
  getPiece b pos = Ok (Some ref) ->
  King_getPossibleMoves g h b self pos = Ok ms ->
  leap h b self pos kingDirections = Ok ms.
Proof.
  intros Hocc. unfold King_getPossibleMoves.
  destruct (leap h b self pos kingDirections) as [adj |] eqn:Hadj;
    cbn [rbind]; [| discriminate].
  destruct (negb (hasMoved self)); [| now intros [= <-]].
  destruct (isInCheck_ g h b (color self)) as [[|] |]; cbn [rbind negb];
    [now intros [= <-] | | discriminate].
  destruct (getCastlingMoves g h b self pos) as [cm |] eqn:Hcm;
    cbn [rbind]; [| discriminate].
  apply (getCastlingMoves_occupied _ _ _ _ _ _ _ Hocc) in Hcm. subst cm.
  intros [= <-]. now rewrite app_nil_r.
Qed.

Lemma promotionMoves_Forall (P : Move -> Prop) (f t : Position) :
  (forall pt, In pt promotionPieces -> P (mkMove f t (Some pt) false false)) ->
  Forall P (promotionMoves f t).
Proof.
  intros HP. unfold promotionMoves. apply Forall_map, List.Forall_forall.
  intros pt Hpt. now apply HP.
Qed.

Lemma lastRow_jseq (x : Z) : jseq x 0 || jseq x 7 = lastRow x.
Proof. reflexivity. Qed.

Section PawnKinds.
Variables (h : Heap) (b : Board) (self : Piece).
Variables (r c : Z).

Lemma Pawn_forward_kinds fwd :
  Pawn_forward b self (mkPosition r c) = Ok fwd ->
  Forall (isPawnMove h b self r c) fwd.
Proof.
  unfold Pawn_forward, Pawn_newRow. cbn [row col jadd].
  set (d := Pawn_direction self).
  destruct (_ && _); [| intros [= <-]; constructor].
  destruct (Position_new _ _) as [newPos |] eqn:Hnew; cbn [rbind];
    [| discriminate].
  apply Position_new_Ok in Hnew as (-> & Hr1 & Hc1).
  destruct (getPiece b _) as [[x |] |] eqn:Hone; cbn [rbind];
    [intros [= <-]; constructor | | discriminate].
  assert (validPos (mkPosition (r + d) c)) as Hv by (now apply validPos_Num).
  assert (Forall (isPawnMove h b self r c)
            (if jseq (r + d) 0 || jseq (r + d) 7
             then promotionMoves (mkPosition r c) (mkPosition (r + d) c)
             else [plainMove (mkPosition r c) (mkPosition (r + d) c)])) as Hone'.
  { rewrite lastRow_jseq.
    destruct (lastRow (r + d)) eqn:Hlast.
    - apply promotionMoves_Forall. intros pt Hpt. unfold isPawnMove.
      cbn [fromPos toPos isCastling isEnPassant]. fold d.
      repeat (split; [reflexivity || assumption |]).
      left. unfold promotionAsDue. cbn [promotionPiece]. rewrite Hlast.
      split; [reflexivity |]. split; [reflexivity |].
      split; [now exists pt | assumption].
    - constructor; [| constructor]. unfold isPawnMove.
      cbn [plainMove fromPos toPos isCastling isEnPassant]. fold d.
      repeat (split; [reflexivity || assumption |]).
      left. unfold promotionAsDue. cbn [promotionPiece]. rewrite Hlast. auto. }
  destruct (hasMoved self) eqn:Hmoved; [now intros [= <-] |].
  destruct (Position_new _ _) as [twoForward |] eqn:Htwo; cbn [rbind];
    [| discriminate].
  apply Position_new_Ok in Htwo as (-> & Hr2 & Hc2). cbn [row].
  destruct (_ && _); [| now intros [= <-]].
  destruct (getPiece b (mkPosition (r + d + d) c)) as [[x |] |] eqn:Hfree;
    cbn [rbind]; [now intros [= <-] | | discriminate].
  intros [= <-]. apply Forall_app. split; [exact Hone' |].
  constructor; [| constructor].
  unfold isPawnMove. cbn [plainMove fromPos toPos isCastling isEnPassant].
  fold d.
  split; [reflexivity |]. split; [reflexivity |].
  split; [now apply validPos_Num |].
  right. left. auto.
Qed.

Lemma Pawn_capture_kinds (off : Z) cap :
  off = -1 \/ off = 1 ->
  Pawn_capture h b self (mkPosition r c) off = Ok cap ->
  Forall (isPawnMove h b self r c) cap.
Proof.
  intros Hoff. unfold Pawn_capture, Pawn_newRow. cbn [row col jadd].
  set (d := Pawn_direction self).
  destruct (_ && _); [| intros [= <-]; constructor].
  destruct (Position_new _ _) as [capturePos |] eqn:Hnew; cbn [rbind];
    [| discriminate].
  apply Position_new_Ok in Hnew as (-> & Hr1 & Hc1).
  assert (validPos (mkPosition (r + d) (c + off))) as Hv
    by (now apply validPos_Num).
  destruct (getPiece b _) as [target |] eqn:Hget; cbn [rbind]; [| discriminate].
  destruct (isEnemy h self target) as [[|] |] eqn:Henemy; cbn [rbind];
    [| | discriminate].
  - unfold isEnemy in Henemy. destruct target as [ref |]; [| discriminate].
    destruct (deref h ref) as [tp |] eqn:Htp; cbn [rbind] in Henemy;
      [| discriminate].
    injection Henemy as Henemy. apply negb_true_iff, Color_eqb_false in Henemy.
    assert (forall promo,
              promotionAsDue
                (mkMove (mkPosition r c) (mkPosition (r + d) (c + off))
                        promo false false) (r + d) ->
              isPawnMove h b self r c
                (mkMove (mkPosition r c) (mkPosition (r + d) (c + off))
                        promo false false)) as Hkind.
    { intros promo Hpromo. unfold isPawnMove.
      cbn [fromPos toPos isCastling isEnPassant]. fold d.
      repeat (split; [reflexivity || assumption |]).
      right. right. left. exists off, ref, tp.
      cbn [toPos isEnPassant].
      repeat (split; [reflexivity || assumption |]). assumption. }
    rewrite lastRow_jseq. intros [= <-].
    destruct (lastRow (r + d)) eqn:Hlast.
    + apply promotionMoves_Forall. intros pt Hpt. apply Hkind.
      unfold promotionAsDue. rewrite Hlast. now exists pt.
    + constructor; [| constructor]. apply Hkind.
      unfold promotionAsDue. now rewrite Hlast.
  - destruct (canEnPassant h b _ _) as [[|] |] eqn:Hep; cbn [rbind];
      [| intros [= <-]; constructor | discriminate].
    apply canEnPassant_true in Hep as (target' & Htarget & Heq & _).
    apply Position_equals_eq in Heq. subst target'.
    intros [= <-]. constructor; [| constructor].
    unfold isPawnMove. cbn [fromPos toPos isCastling]. fold d.
    repeat (split; [reflexivity || assumption |]).
    right. right. right. exists off. auto.
Qed.

Lemma Pawn_getPossibleMoves_kinds ms :
  Pawn_getPossibleMoves h b self (mkPosition r c) = Ok ms ->
  Forall (isPawnMove h b self r c) ms.
Proof.
  unfold Pawn_getPossibleMoves. cbn [collect].
  destruct (Pawn_forward b self _) as [fwd |] eqn:Hfwd; cbn [rbind];
    [| discriminate].
  destruct (Pawn_capture h b self _ (-1)) as [capL |] eqn:HcapL;
    cbn [rbind]; [| discriminate].
  destruct (Pawn_capture h b self _ 1) as [capR |] eqn:HcapR;
    cbn [rbind]; [| discriminate].
  intros [= <-]. rewrite app_nil_r.
  apply Pawn_forward_kinds in Hfwd.
  apply Pawn_capture_kinds in HcapL; [| now left].
  apply Pawn_capture_kinds in HcapR; [| now right].
  repeat (apply Forall_app; split); assumption.
Qed.
End PawnKinds.

Lemma getPossibleMoves_class (n : nat) h b self pos :
  getPossibleMoves n h b self pos =
  match pieceType self with
  | PAWN => Pawn_getPossibleMoves h b self pos
  | ROOK => slide h b self pos rookDirections
  | KNIGHT => leap h b self pos knightMoves
  | BISHOP => slide h b self pos bishopDirections
  | QUEEN => slide h b self pos queenDirections
  | KING =>
      King_getPossibleMoves
        (match n with O => overflow | S n' => getPossibleMoves n' end)
        h b self pos
  end.
Proof. destruct n; reflexivity. Qed.

Lemma slide_line r c d k :
  In d rookDirections -> 1 <= k -> sameLine r c (shifted r c d k).
Proof.
  intros Hd Hk. unfold shifted.
  exists (r + fst d * k), (c + snd d * k). split; [reflexivity |].
  cbn [rookDirections In] in Hd.
  destruct Hd as [<- | [<- | [<- | [<- | []]]]]; cbn [fst snd]; lia.
Qed.

Lemma slide_diagonal r c d k :
  In d bishopDirections -> 1 <= k -> sameDiagonal r c (shifted r c d k).
Proof.
  intros Hd Hk. unfold shifted.
  exists (r + fst d * k), (c + snd d * k). split; [reflexivity |].
  cbn [bishopDirections In] in Hd.
  destruct Hd as [<- | [<- | [<- | [<- | []]]]]; cbn [fst snd]; lia.
Qed.

(** X1: the moves of the rook, the bishop and the queen. Each one goes
    some steps along one of the piece's directions over free squares only,
    and ends on the board on a square that is free or holds a piece of the
    other colour: the rook stays on its row or file, the bishop on a
    diagonal, the queen on one of the two. *)
Theorem sliding_piece_moves (n : nat) h b self (r c : Z) ms m :
  getPossibleMoves n h b self (mkPosition r c) = Ok ms ->
  In m ms ->
  (pieceType self = ROOK ->
     isSlideMove h b self r c rookDirections m /\ sameLine r c (toPos m))
  /\ (pieceType self = BISHOP ->
       isSlideMove h b self r c bishopDirections m
       /\ sameDiagonal r c (toPos m))
  /\ (pieceType self = QUEEN ->
       isSlideMove h b self r c queenDirections m
       /\ (sameLine r c (toPos m) \/ sameDiagonal r c (toPos m))).
Proof.
  intros Hgen Hin. rewrite getPossibleMoves_class in Hgen.
  split; [| split]; intros Hpt; rewrite Hpt in Hgen;
    apply slide_shape in Hgen; rewrite List.Forall_forall in Hgen;
    specialize (Hgen m Hin); (split; [exact Hgen |]);
    destruct Hgen as (d & k & Hd & Hk & -> & _); cbn [plainMove toPos].
  - apply slide_line; [exact Hd | lia].
  - apply slide_diagonal; [exact Hd | lia].
  - change queenDirections with (rookDirections ++ bishopDirections) in Hd.
    apply in_app_or in Hd as [Hd | Hd].
    + left. apply slide_line; [exact Hd | lia].
    + right. apply slide_diagonal; [exact Hd | lia].
Qed.

(** The rook on d4 takes the pawn on g4, past e4 and f4. *)
Lemma sliding_piece_moves_witness :
  isSlideMove (heap skirmishWorld) (brd skirmishWorld)
    (mkPiece WHITE ROOK true) 4 3 rookDirections (plainMove (sq 4 3) (sq 4 6))
  /\ sameLine 4 3 (sq 4 6).
Proof.
  destruct (getPossibleMoves 0 (heap skirmishWorld) (brd skirmishWorld)
              (mkPiece WHITE ROOK true) (mkPosition 4 3)) as [ms |] eqn:Hgen;
    [| vm_compute in Hgen; discriminate].
  apply (sliding_piece_moves 0 _ _ _ 4 3 ms (plainMove (sq 4 3) (sq 4 6)) Hgen).
  - vm_compute in Hgen. injection Hgen as <-. cbn. tauto.
  - reflexivity.
Defined.

Lemma leap_knight r c d :
  In d knightMoves -> knightJump r c (mkPosition (r + fst d) (c + snd d)).
Proof.
  intros Hd. exists (r + fst d), (c + snd d). split; [reflexivity |].
  cbn [knightMoves In] in Hd.
  repeat (destruct Hd as [<- | Hd]; [cbn [fst snd]; lia |]). contradiction.
Qed.

Lemma leap_king r c d :
  In d kingDirections -> kingStep r c (mkPosition (r + fst d) (c + snd d)).
Proof.
  intros Hd. exists (r + fst d), (c + snd d). split; [reflexivity |].
  cbn [kingDirections queenDirections In] in Hd.
  repeat (destruct Hd as [<- | Hd]; [cbn [fst snd]; lia |]). contradiction.
Qed.

(** X2: the moves of the knight. Each one is a jump by one of the eight
    offsets of the table, two rows and one file or one row and two files
    away, onto a square of the board that is free or holds a piece of the
    other colour; what stands in between plays no part. *)
Theorem knight_moves (n : nat) h b self (r c : Z) ms m :
  pieceType self = KNIGHT ->
  getPossibleMoves n h b self (mkPosition r c) = Ok ms ->
  In m ms ->
  isLeapMove h b self r c knightMoves m /\ knightJump r c (toPos m).
Proof.
  intros Hpt Hgen Hin. rewrite getPossibleMoves_class, Hpt in Hgen.
  apply leap_shape in Hgen. rewrite List.Forall_forall in Hgen.
  specialize (Hgen m Hin). split; [exact Hgen |].
  destruct Hgen as (d & Hd & -> & _). cbn [plainMove toPos].
  now apply leap_knight.
Qed.

(** The knight on c3 goes to d5. *)
Lemma knight_moves_witness :
  isLeapMove (heap skirmishWorld) (brd skirmishWorld)
    (mkPiece WHITE KNIGHT true) 5 2 knightMoves (plainMove (sq 5 2) (sq 3 3))
  /\ knightJump 5 2 (sq 3 3).
Proof.
  destruct (getPossibleMoves 0 (heap skirmishWorld) (brd skirmishWorld)
              (mkPiece WHITE KNIGHT true) (mkPosition 5 2)) as [ms |] eqn:Hgen;
    [| vm_compute in Hgen; discriminate].
  apply (knight_moves 0 _ _ (mkPiece WHITE KNIGHT true) 5 2 ms
           (plainMove (sq 5 2) (sq 3 3)) eq_refl Hgen).
  vm_compute in Hgen. injection Hgen as <-. cbn. tauto.
Defined.

(** X3: the moves of a king from the square it stands on. Whether it has
    moved or not, each one is a single step to an adjacent square of the
    board that is free or holds a piece of the other colour, with neither
    flag set: the list holds no castling move. *)
Theorem king_moves (n : nat) h b self (r c : Z) ref ms m :
  pieceType self = KING ->
  getPiece b (mkPosition r c) = Ok (Some ref) ->
  getPossibleMoves n h b self (mkPosition r c) = Ok ms ->
  In m ms ->
  isLeapMove h b self r c kingDirections m
  /\ kingStep r c (toPos m)
  /\ isCastling m = false /\ isEnPassant m = false.
Proof.
  intros Hpt Hocc Hgen Hin. rewrite getPossibleMoves_class, Hpt in Hgen.
  apply (King_getPossibleMoves_adjacent _ _ _ _ _ ref) in Hgen; [| exact Hocc].
  apply leap_shape in Hgen. rewrite List.Forall_forall in Hgen.
  specialize (Hgen m Hin). split; [exact Hgen |].
  destruct Hgen as (d & Hd & -> & _). cbn [plainMove toPos isCastling isEnPassant].
  split; [now apply leap_king | split; reflexivity].
Qed.

(** The unmoved king on e1, its rooks on a1 and h1 and the first rank
    otherwise free: the step to f1. *)
Lemma king_moves_witness :
  isLeapMove (heap castleReadyWorld) (brd castleReadyWorld)
    (mkPiece WHITE KING false) 7 4 kingDirections (plainMove (sq 7 4) (sq 7 5))
  /\ kingStep 7 4 (sq 7 5)
  /\ isCastling (plainMove (sq 7 4) (sq 7 5)) = false
  /\ isEnPassant (plainMove (sq 7 4) (sq 7 5)) = false.
Proof.
  destruct (getPossibleMoves 1 (heap castleReadyWorld) (brd castleReadyWorld)
              (mkPiece WHITE KING false) (mkPosition 7 4)) as [ms |] eqn:Hgen;
    [| vm_compute in Hgen; discriminate].
  apply (king_moves 1 _ _ (mkPiece WHITE KING false) 7 4 0%nat ms
           (plainMove (sq 7 4) (sq 7 5)) eq_refl);
    [vm_compute; reflexivity | exact Hgen |].
  vm_compute in Hgen. injection Hgen as <-. cbn. tauto.
Defined.

Lemma isPawnMove_advance h b self (r c : Z) m :
  isPawnMove h b self r c m -> pawnAdvance self r c (toPos m).
Proof.
  intros (_ & _ & _ & Hkind). unfold pawnAdvance.
  destruct Hkind as [(-> & _) | [(-> & _) | [(off & ref & tp & Hoff & -> & _)
                                           | (off & Hoff & -> & _)]]];
    cbn [plainMove toPos]; eexists _, _; (split; [reflexivity |]); lia.
Qed.

(** X4: the moves of a pawn. Each one starts on the pawn's square, ends on
    the board and is of one of four kinds: a step straight ahead onto a free
    square; the double step of a pawn that has not moved, over a free square
    onto a free square; a capture one step diagonally ahead of a piece of the
    other colour; the en-passant capture onto the board's target. A step or
    a capture carries a promotion piece exactly when it arrives on row 0 or
    7. A pawn never goes backwards or sideways. *)
Theorem pawn_moves (n : nat) h b self (r c : Z) ms m :
  pieceType self = PAWN ->
  getPossibleMoves n h b self (mkPosition r c) = Ok ms ->
  In m ms ->
  isPawnMove h b self r c m /\ pawnAdvance self r c (toPos m).
Proof.
  intros Hpt Hgen Hin. rewrite getPossibleMoves_class, Hpt in Hgen.
  apply Pawn_getPossibleMoves_kinds in Hgen.
  rewrite List.Forall_forall in Hgen. specialize (Hgen m Hin).
  split; [exact Hgen | now apply (isPawnMove_advance h b)].
Qed.

(** The pawn on e7 takes the rook on f8 and becomes a queen. *)
Lemma pawn_moves_witness :
  isPawnMove (heap promotionWorld) (brd promotionWorld)
    (mkPiece WHITE PAWN true) 1 4
    (mkMove (sq 1 4) (sq 0 5) (Some QUEEN) false false)
  /\ pawnAdvance (mkPiece WHITE PAWN true) 1 4 (sq 0 5).
Proof.
  destruct (getPossibleMoves 0 (heap promotionWorld) (brd promotionWorld)
              (mkPiece WHITE PAWN true) (mkPosition 1 4)) as [ms |] eqn:Hgen;
    [| vm_compute in Hgen; discriminate].
  apply (pawn_moves 0 _ _ (mkPiece WHITE PAWN true) 1 4 ms
           (mkMove (sq 1 4) (sq 0 5) (Some QUEEN) false false) eq_refl Hgen).
  vm_compute in Hgen. injection Hgen as <-. cbn. tauto.
Defined.

Lemma landable_other h b self ref pos q :
  getPiece b pos = Ok (Some ref) -> deref h ref = Ok self ->
  landable h b self q -> q <> pos.
Proof.
  intros Hocc Hself [Hfree | (ref' & tp & Hget & Htp & Hcol)] ->.
  - congruence.
  - rewrite Hocc in Hget. injection Hget as <-.
    rewrite Hself in Htp. injection Htp as <-. now apply Hcol.
Qed.

(** The squares of a generated move. The en-passant capture is the one
    move whose landing square the generator does not look at. *)
Lemma generated_move_facts (n : nat) h b self (r c : Z) ref ms m :
  getPiece b (mkPosition r c) = Ok (Some ref) ->
  isEnPassant m = false \/ epTargetEmpty b ->
  getPossibleMoves n h b self (mkPosition r c) = Ok ms ->
  In m ms ->
  fromPos m = mkPosition r c /\ validPos (toPos m)
  /\ landable h b self (toPos m) /\ isCastling m = false.
Proof.
  intros Hocc Hempty Hgen Hin.
  rewrite getPossibleMoves_class in Hgen.
  destruct (pieceType self) eqn:Hpt.
  - apply Pawn_getPossibleMoves_kinds in Hgen.
    rewrite List.Forall_forall in Hgen.
    destruct (Hgen m Hin) as (Hf & Hc & Hv & Hkind).
    repeat (split; [assumption |]). split; [| assumption].
    destruct Hkind as [(_ & _ & _ & Hfree)
                      | [(-> & _ & _ & Hfree)
                        | [(off & ref' & tp & _ & _ & _ & _ & Hget & Htp & Hcol)
                          | (off & _ & Hm & Htarget)]]].
    + now left.
    + now left.
    + right. now exists ref', tp.
    + left. destruct Hempty as [Hno | Hempty]; [| now apply Hempty].
      rewrite Hm in Hno. discriminate.
  - apply slide_shape in Hgen. rewrite List.Forall_forall in Hgen.
    destruct (Hgen m Hin) as (d & k & _ & _ & -> & Hv & Hland & _).
    now repeat split.
  - apply leap_shape in Hgen. rewrite List.Forall_forall in Hgen.
    destruct (Hgen m Hin) as (d & _ & -> & Hv & Hland). now repeat split.
  - apply slide_shape in Hgen. rewrite List.Forall_forall in Hgen.
    destruct (Hgen m Hin) as (d & k & _ & _ & -> & Hv & Hland & _).
    now repeat split.
  - apply slide_shape in Hgen. rewrite List.Forall_forall in Hgen.
    destruct (Hgen m Hin) as (d & k & _ & _ & -> & Hv & Hland & _).
    now repeat split.
  - apply (King_getPossibleMoves_adjacent _ _ _ _ _ ref) in Hgen;
      [| exact Hocc].
    apply leap_shape in Hgen. rewrite List.Forall_forall in Hgen.
    destruct (Hgen m Hin) as (d & _ & -> & Hv & Hland). now repeat split.
Qed.

(** X5: whatever piece stands on a square, every move it generates from
    there starts on that square and ends on another square of the board that
    is free or holds a piece of the other colour: no piece ever lands on a
    piece of its own side, and none is offered a castling move. For the
    en-passant capture this needs the target square to be free, as it is
    after a double step. *)
Theorem generated_move_lands (n : nat) h b self pos ref ms m :
  getPiece b pos = Ok (Some ref) ->
  deref h ref = Ok self ->
  epTargetEmpty b ->
  getPossibleMoves n h b self pos = Ok ms ->
  In m ms ->
  fromPos m = pos /\ validPos (toPos m) /\ toPos m <> pos
  /\ landable h b self (toPos m) /\ isCastling m = false.
Proof.
  intros Hocc Hself Hempty Hgen Hin.
  destruct (getPiece_Some_Num _ _ _ Hocc) as (r & c & ->).
  destruct (generated_move_facts n h b self r c ref ms m Hocc
              (or_intror Hempty) Hgen Hin) as (Hf & Hv & Hland & Hc).
  split; [exact Hf |]. split; [exact Hv |].
  split; [exact (landable_other h b self ref _ _ Hocc Hself Hland) |].
  split; [exact Hland | exact Hc].
Qed.

(** The bishop on b4 may take the knight on c3. *)
Lemma generated_move_lands_witness :
  toPos (plainMove (sq 4 1) (sq 5 2)) <> sq 4 1
  /\ landable (heap skirmishWorld) (brd skirmishWorld)
       (mkPiece BLACK BISHOP true) (sq 5 2).
Proof.
  destruct (getPossibleMoves 0 (heap skirmishWorld) (brd skirmishWorld)
              (mkPiece BLACK BISHOP true) (sq 4 1)) as [ms |] eqn:Hgen;
    [| vm_compute in Hgen; discriminate].
  destruct (generated_move_lands 0 (heap skirmishWorld) (brd skirmishWorld)
              (mkPiece BLACK BISHOP true) (sq 4 1) 6%nat ms
              (plainMove (sq 4 1) (sq 5 2)))
    as (_ & _ & Hne & Hland & _).
  - vm_compute. reflexivity.
  - vm_compute. reflexivity.
  - intros q Hq. vm_compute in Hq. discriminate.
  - exact Hgen.
  - vm_compute in Hgen. injection Hgen as <-. cbn. tauto.
  - split; [exact Hne | exact Hland].
Defined.

(** ** Attacks and check *)

Lemma In_range8 (x : Z) : In x range8 <-> 0 <= x <= 7.
Proof. unfold range8. cbn [In]. lia. Qed.

Lemma In_allSquares (r k : Z) :
  In (r, k) allSquares <-> 0 <= r <= 7 /\ 0 <= k <= 7.
Proof.
  unfold allSquares. rewrite in_flat_map. split.
  - intros (r' & Hr & Hin). apply in_map_iff in Hin as (k' & [= <- <-] & Hk).
    now rewrite <- !In_range8.
  - intros [Hr Hk]. exists r. split; [now apply In_range8 |].
    apply in_map_iff. exists k. split; [reflexivity | now apply In_range8].
Qed.

Lemma Color_eqb_true (a b : Color) : Color_eqb a b = true -> a = b.
Proof. destruct a, b; (reflexivity || discriminate). Qed.

Lemma existsb_lands (position : Position) (ms : list Move) :
  existsb (fun m => Position_equals (toPos m) position) ms = true ->
  exists m, In m ms /\ toPos m = position.
Proof.
  intros Hex. apply existsb_exists in Hex as (m & Hin & Heq).
  exists m. split; [exact Hin | now apply Position_equals_eq].
Qed.

(** The scan answers [true] only for an attacker it has found. *)
Lemma attackScan_true (gpm : Generator) h b position opp squares :
  Forall (fun s => 0 <= fst s <= 7 /\ 0 <= snd s <= 7) squares ->
  attackScan gpm h b position opp squares = Ok true ->
  exists r k, In (r, k) squares /\ attacksFrom gpm h b opp position r k.
Proof.
  induction squares as [| [r k] rest IH]; intros Hin; cbn [attackScan];
    [discriminate |].
  apply Forall_cons in Hin as [[Hr Hk] Hrest]. cbn [fst snd] in Hr, Hk.
  assert (attackScan gpm h b position opp rest = Ok true ->
          exists r0 k0, In (r0, k0) ((r, k) :: rest)
                        /\ attacksFrom gpm h b opp position r0 k0) as Hlater.
  { intros Hrun. destruct (IH Hrest Hrun) as (r0 & k0 & Hin0 & Hatt).
    exists r0, k0. split; [now right | exact Hatt]. }
  destruct (cell b r k) as [[ref |] |] eqn:Hcell; cbn [rbind];
    [| exact Hlater | discriminate].
  destruct (deref h ref) as [piece |] eqn:Hpiece; cbn [rbind]; [| discriminate].
  destruct (Color_eqb (color piece) opp) eqn:Hcol; [| exact Hlater].
  rewrite Position_new_valid by assumption. cbn [rbind].
  destruct (gpm h b piece (mkPosition r k)) as [ms |] eqn:Hgen; cbn [rbind];
    [| discriminate].
  destruct (existsb _ ms) eqn:Hex; [| exact Hlater].
  intros _. apply existsb_lands in Hex as (m & Hm & Hto).
  exists r, k. split; [now left |].
  exists ref, piece, ms, m. apply Color_eqb_true in Hcol.
  repeat (split; [assumption |]). assumption.
Qed.

(** The scan answers [false] only when it has asked every piece of the
    colour and none has a move onto the square. *)
Lemma attackScan_false (gpm : Generator) h b position opp squares :
  Forall (fun s => 0 <= fst s <= 7 /\ 0 <= snd s <= 7) squares ->
  attackScan gpm h b position opp squares = Ok false ->
  forall r k ref piece,
    In (r, k) squares ->
    cell b r k = Ok (Some ref) -> deref h ref = Ok piece ->
    color piece = opp ->
    exists ms, gpm h b piece (mkPosition r k) = Ok ms
               /\ forall m, In m ms ->
                    Position_equals (toPos m) position = false.
Proof.
  induction squares as [| [r k] rest IH]; intros Hin Hrun r0 k0 ref0 piece0 Hin0;
    [contradiction |].
  apply Forall_cons in Hin as [[Hr Hk] Hrest]. cbn [fst snd] in Hr, Hk.
  cbn [attackScan] in Hrun.
  destruct Hin0 as [[= <- <-] | Hin0].
  - intros Hcell Hpiece Hcol. rewrite Hcell in Hrun. cbn [rbind] in Hrun.
    rewrite Hpiece in Hrun. cbn [rbind] in Hrun.
    rewrite Hcol in Hrun.
    replace (Color_eqb opp opp) with true in Hrun by (now destruct opp).
    rewrite Position_new_valid in Hrun by assumption. cbn [rbind] in Hrun.
    destruct (gpm h b piece0 (mkPosition r k)) as [ms |]; cbn [rbind] in Hrun;
      [| discriminate].
    exists ms. split; [reflexivity |].
    destruct (existsb _ ms) eqn:Hex; [discriminate |].
    intros m Hm.
    destruct (Position_equals (toPos m) position) eqn:Heq; [| reflexivity].
    assert (existsb (fun m => Position_equals (toPos m) position) ms = true)
      as Hyes by (apply existsb_exists; now exists m).
    congruence.
  - apply IH; [exact Hrest | | exact Hin0].
    destruct (cell b r k) as [[ref |] |]; cbn [rbind] in Hrun;
      [| exact Hrun | discriminate].
    destruct (deref h ref) as [piece |]; cbn [rbind] in Hrun; [| discriminate].
    destruct (Color_eqb (color piece) opp); [| exact Hrun].
    destruct (Position_new r k) as [pos |]; cbn [rbind] in Hrun; [| discriminate].
    destruct (gpm h b piece pos) as [ms |]; cbn [rbind] in Hrun; [| discriminate].
    destruct (existsb _ ms); [discriminate | exact Hrun].
Qed.

Lemma allSquares_bounded :
  Forall (fun s : Z * Z => 0 <= fst s <= 7 /\ 0 <= snd s <= 7) allSquares.
Proof.
  apply List.Forall_forall. intros [r k] Hin. now apply In_allSquares in Hin.
Qed.

Lemma Position_equals_refl (p : Position) :
  validPos p -> Position_equals p p = true.
Proof. intros (r & c & -> & _). apply Position_equals_same. Qed.

Lemma isPositionUnderAttack_scan (n : nat) h b position (byColor : Color) :
  isPositionUnderAttack n h b position byColor
  = attackScan (getPossibleMoves n) h b position (opposite byColor) allSquares.
Proof. destruct byColor; reflexivity. Qed.

(** X6: [isPositionUnderAttack(position, byColor)] answers [true] exactly
    for a square onto which some piece of the colour opposite to [byColor]
    has a generated move, and [false] exactly when it has asked every such
    piece on the board and none has one. Pieces of [byColor] itself play no
    part. *)
Theorem isPositionUnderAttack_spec (n : nat) h b position (byColor : Color) :
  validPos position ->
  (isPositionUnderAttack n h b position byColor = Ok true ->
     exists r k, 0 <= r <= 7 /\ 0 <= k <= 7
       /\ attacksFrom (getPossibleMoves n) h b (opposite byColor) position r k)
  /\ (isPositionUnderAttack n h b position byColor = Ok false ->
       forall r k, 0 <= r <= 7 -> 0 <= k <= 7 ->
         ~ attacksFrom (getPossibleMoves n) h b (opposite byColor) position r k).
Proof.
  intros Hv. rewrite isPositionUnderAttack_scan.
  split.
  - intros Hrun.
    destruct (attackScan_true (getPossibleMoves n) h b position
                (opposite byColor) allSquares allSquares_bounded Hrun)
      as (r & k & Hin & Hatt).
    apply In_allSquares in Hin as [Hr Hk].
    exists r, k. split; [exact Hr |]. split; [exact Hk | exact Hatt].
  - intros Hrun r k Hr Hk (ref & piece & ms & m & Hcell & Hpiece & Hcol & Hgen
                           & Hin & Hto).
    assert (In (r, k) allSquares) as Hsq by (apply In_allSquares; split; assumption).
    destruct (attackScan_false (getPossibleMoves n) h b position
                (opposite byColor) allSquares allSquares_bounded Hrun
                r k ref piece Hsq Hcell Hpiece Hcol) as (ms' & Hgen' & Hnone).
    rewrite Hgen in Hgen'. injection Hgen' as <-.
    specialize (Hnone m Hin). rewrite Hto in Hnone.
    rewrite Position_equals_refl in Hnone by exact Hv. discriminate.
Qed.

(** The pawn on g4 is attacked (by the rook on d4); the square h8 is not. *)
Lemma isPositionUnderAttack_spec_witness :
  (exists r k, 0 <= r <= 7 /\ 0 <= k <= 7
     /\ attacksFrom (getPossibleMoves 0) (heap skirmishWorld)
          (brd skirmishWorld) WHITE (sq 4 6) r k)
  /\ ~ attacksFrom (getPossibleMoves 0) (heap skirmishWorld)
        (brd skirmishWorld) BLACK (sq 7 7) 4 1.
Proof.
  split.
  - apply (isPositionUnderAttack_spec 0 (heap skirmishWorld)
             (brd skirmishWorld) (sq 4 6) BLACK).
    + exists 4, 6. repeat split; lia.
    + vm_compute. reflexivity.
  - apply (isPositionUnderAttack_spec 0 (heap skirmishWorld)
             (brd skirmishWorld) (sq 7 7) WHITE).
    + exists 7, 7. repeat split; lia.
    + vm_compute. reflexivity.
    + lia.
    + lia.
Defined.

Lemma kingScan_Some h b (c0 : Color) squares pos :
  Forall (fun s => 0 <= fst s <= 7 /\ 0 <= snd s <= 7) squares ->
  kingScan h b c0 squares = Ok (Some pos) ->
  exists r k, In (r, k) squares /\ pos = mkPosition r k /\ kingOn h b c0 r k.
Proof.
  induction squares as [| [r k] rest IH]; intros Hin; cbn [kingScan];
    [discriminate |].
  apply Forall_cons in Hin as [[Hr Hk] Hrest]. cbn [fst snd] in Hr, Hk.
  assert (kingScan h b c0 rest = Ok (Some pos) ->
          exists r0 k0, In (r0, k0) ((r, k) :: rest)
                        /\ pos = mkPosition r0 k0 /\ kingOn h b c0 r0 k0)
    as Hlater.
  { intros Hrun. destruct (IH Hrest Hrun) as (r0 & k0 & Hin0 & Hpos & Hking).
    exists r0, k0. split; [now right | split; assumption]. }
  destruct (cell b r k) as [[ref |] |] eqn:Hcell; cbn [rbind];
    [| exact Hlater | discriminate].
  destruct (deref h ref) as [piece |] eqn:Hpiece; cbn [rbind]; [| discriminate].
  destruct (PieceType_eqb (pieceType piece) KING) eqn:Hpt; cbn [andb];
    [| exact Hlater].
  destruct (Color_eqb (color piece) c0) eqn:Hcol; [| exact Hlater].
  rewrite Position_new_valid by assumption. cbn [rbind]. intros [= <-].
  exists r, k. split; [now left |]. split; [reflexivity |].
  exists ref, piece. apply Color_eqb_true in Hcol.
  assert (pieceType piece = KING) by (now destruct (pieceType piece)).
  repeat (split; [assumption |]). assumption.
Qed.

Lemma kingScan_None h b (c0 : Color) squares :
  kingScan h b c0 squares = Ok None ->
  forall r k, In (r, k) squares -> ~ kingOn h b c0 r k.
Proof.
  induction squares as [| [r k] rest IH]; intros Hrun r0 k0 Hin0;
    [contradiction |].
  cbn [kingScan] in Hrun.
  destruct Hin0 as [[= <- <-] | Hin0].
  - intros (ref & piece & Hcell & Hpiece & Hpt & Hcol).
    rewrite Hcell in Hrun. cbn [rbind] in Hrun.
    rewrite Hpiece in Hrun. cbn [rbind] in Hrun.
    rewrite Hpt, Hcol in Hrun. cbn [PieceType_eqb andb] in Hrun.
    replace (Color_eqb c0 c0) with true in Hrun by (now destruct c0).
    destruct (Position_new r k); discriminate.
  - apply IH; [| exact Hin0].
    destruct (cell b r k) as [[ref |] |]; cbn [rbind] in Hrun;
      [| exact Hrun | discriminate].
    destruct (deref h ref) as [piece |]; cbn [rbind] in Hrun; [| discriminate].
    destruct (_ && _); [| exact Hrun].
    destruct (Position_new r k); discriminate.
Qed.

(** X7: [isInCheck(color)] answers [true] only when a king of that colour
    stands on the board and the square [findKing] reports for it is attacked
    by the other side; when [findKing] reports no king, no king of the
    colour stands on the board and the answer is [false]: a side without a
    king is never in check. *)
Theorem isInCheck_spec (n : nat) h b (c0 : Color) :
  (isInCheck n h b c0 = Ok true ->
     exists r k, 0 <= r <= 7 /\ 0 <= k <= 7
       /\ kingOn h b c0 r k
       /\ findKing h b c0 = Ok (Some (mkPosition r k))
       /\ isPositionUnderAttack n h b (mkPosition r k) c0 = Ok true)
  /\ (findKing h b c0 = Ok None ->
       isInCheck n h b c0 = Ok false
       /\ forall r k, 0 <= r <= 7 -> 0 <= k <= 7 -> ~ kingOn h b c0 r k).
Proof.
  split.
  - intros Hrun.
    destruct (findKing h b c0) as [[kp |] |] eqn:Hfind.
    + rewrite (findKing_isInCheck n h b c0 kp Hfind) in Hrun.
      destruct (kingScan_Some h b c0 allSquares kp allSquares_bounded Hfind)
        as (r & k & Hin & -> & Hking).
      apply In_allSquares in Hin as [Hr Hk].
      exists r, k. repeat (split; [assumption |]). split; [reflexivity | exact Hrun].
    + unfold isInCheck, isInCheck_ in Hrun. rewrite Hfind in Hrun. discriminate.
    + unfold isInCheck, isInCheck_ in Hrun. rewrite Hfind in Hrun. discriminate.
  - intros Hfind. split.
    + unfold isInCheck, isInCheck_. now rewrite Hfind.
    + intros r k Hr Hk. apply (kingScan_None h b c0 allSquares Hfind).
      apply In_allSquares. split; assumption.
Qed.

(** With the bishop on b4 pinning the pawn on d2, White is not in check;
    once the pawn has left d2 it is. *)
Lemma isInCheck_spec_witness :
  exists r k, 0 <= r <= 7 /\ 0 <= k <= 7
    /\ kingOn (heap (simulated d2d3 pinnedPawnWorld))
         (brd (simulated d2d3 pinnedPawnWorld)) WHITE r k
    /\ findKing (heap (simulated d2d3 pinnedPawnWorld))
         (brd (simulated d2d3 pinnedPawnWorld)) WHITE
       = Ok (Some (mkPosition r k))
    /\ isPositionUnderAttack 0 (heap (simulated d2d3 pinnedPawnWorld))
         (brd (simulated d2d3 pinnedPawnWorld)) (mkPosition r k) WHITE
       = Ok true.
Proof.
  apply (isInCheck_spec 0 (heap (simulated d2d3 pinnedPawnWorld))
           (brd (simulated d2d3 pinnedPawnWorld)) WHITE).
  vm_compute. reflexivity.
Defined.

(** ** How deep the calls go *)

Lemma rbind_mild {A B} (x : Res A) (f : A -> Res B) :
  mild x -> (forall a, mild (f a)) -> mild (rbind x f).
Proof. destruct x as [a | e]; cbn [rbind]; auto. Qed.

Lemma collect_mild {A B} (f : A -> Res (list B)) l :
  (forall x, mild (f x)) -> mild (collect f l).
Proof.
  intros Hf. induction l as [| x l IH]; cbn [collect]; [exact I |].
  apply rbind_mild; [apply Hf |]. intros here.
  apply rbind_mild; [exact IH |]. intros rest. exact I.
Qed.

Lemma cell_mild b r k : mild (cell b r k).
Proof. unfold cell. destruct (arrayGet _ r); exact I. Qed.

Lemma getPiece_mild b pos : mild (getPiece b pos).
Proof. apply cell_mild. Qed.

Lemma deref_mild h r : mild (deref h r).
Proof. unfold deref. destruct (h !! r); exact I. Qed.

Lemma Position_new_mild r c : mild (Position_new r c).
Proof. unfold Position_new. destruct (_ || _); exact I. Qed.

(** Takes a chain of [let*] apart down to the reads of the board and the
    store. *)
Ltac mild_steps :=
  repeat first
    [ exact I
    | apply getPiece_mild | apply cell_mild | apply deref_mild
    | apply Position_new_mild
    | apply rbind_mild; [| intros ?]
    | match goal with
      | |- mild (if ?c then _ else _) => destruct c
      | |- mild (match ?x with _ => _ end) => destruct x
      end ].

Lemma slideRay_mild h b self pos k dr dc distance :
  mild (slideRay h b self pos k dr dc distance).
Proof.
  revert distance. induction k as [| k IH]; intros distance; cbn [slideRay];
    [exact I |].
  destruct (_ || _); [exact I |].
  apply rbind_mild; [apply Position_new_mild |]. intros newPos.
  apply rbind_mild; [apply getPiece_mild |]. intros [ref |].
  - mild_steps.
  - apply rbind_mild; [apply IH |]. intros rest. exact I.
Qed.

Lemma slide_mild h b self pos directions :
  mild (slide h b self pos directions).
Proof. apply collect_mild. intros d. apply slideRay_mild. Qed.

Lemma leap_mild h b self pos offsets : mild (leap h b self pos offsets).
Proof. apply collect_mild. intros d. unfold leapTo. mild_steps. Qed.

Lemma canEnPassant_mild h b f t : mild (canEnPassant h b f t).
Proof. unfold canEnPassant. mild_steps. Qed.

Lemma Pawn_getPossibleMoves_mild h b self pos :
  mild (Pawn_getPossibleMoves h b self pos).
Proof.
  unfold Pawn_getPossibleMoves.
  apply rbind_mild; [unfold Pawn_forward; mild_steps |]. intros forward.
  apply rbind_mild; [| intros ?; exact I].
  apply collect_mild. intros off. unfold Pawn_capture.
  destruct (_ && _); [| exact I].
  apply rbind_mild; [apply Position_new_mild |]. intros capturePos.
  apply rbind_mild; [apply getPiece_mild |]. intros targetPiece.
  apply rbind_mild; [unfold isEnemy; mild_steps |]. intros [|]; [exact I |].
  apply rbind_mild; [apply canEnPassant_mild |]. intros ep. exact I.
Qed.

(** The generator of a piece that calls no other generator does not end in
    the stack overflow, at any depth. *)
Lemma getPossibleMoves_leaf_mild (n : nat) h b self pos :
  isLeafPiece self = true -> mild (getPossibleMoves n h b self pos).
Proof.
  intros Hleaf. rewrite getPossibleMoves_class. unfold isLeafPiece in Hleaf.
  destruct (pieceType self); cbn [PieceType_eqb negb orb] in Hleaf;
    try apply Pawn_getPossibleMoves_mild; try apply slide_mild;
    try apply leap_mild.
  unfold King_getPossibleMoves. rewrite Hleaf. cbn [negb].
  apply rbind_mild; [apply leap_mild |]. intros adjacent. exact I.
Qed.

Lemma rbind_cong {A B} (x y : Res A) (f g : A -> Res B) :
  x = y -> (forall a, f a = g a) -> rbind x f = rbind y g.
Proof. intros <- Hfg. destruct x; cbn [rbind]; auto. Qed.

(** The scan consults the generator only for the pieces of the colour it
    looks for. *)
Lemma attackScan_ext (g1 g2 : Generator) h b position opp squares :
  Forall (fun s => 0 <= fst s <= 7 /\ 0 <= snd s <= 7) squares ->
  (forall r k ref piece,
     0 <= r <= 7 -> 0 <= k <= 7 ->
     cell b r k = Ok (Some ref) -> deref h ref = Ok piece ->
     color piece = opp ->
     g1 h b piece (mkPosition r k) = g2 h b piece (mkPosition r k)) ->
  attackScan g1 h b position opp squares
  = attackScan g2 h b position opp squares.
Proof.
  intros Hin Hsame.
  induction squares as [| [r k] rest IH]; cbn [attackScan]; [reflexivity |].
  apply Forall_cons in Hin as [[Hr Hk] Hrest]. cbn [fst snd] in Hr, Hk.
  specialize (IH Hrest).
  destruct (cell b r k) as [[ref |] |] eqn:Hcell; cbn [rbind];
    [| exact IH | reflexivity].
  destruct (deref h ref) as [piece |] eqn:Hpiece; cbn [rbind]; [| reflexivity].
  destruct (Color_eqb (color piece) opp) eqn:Hcol; [| exact IH].
  rewrite Position_new_valid by assumption. cbn [rbind].
  rewrite (Hsame r k ref piece Hr Hk Hcell Hpiece (Color_eqb_true _ _ Hcol)).
  destruct (g2 h b piece (mkPosition r k)) as [ms |]; cbn [rbind];
    [| reflexivity].
  destruct (existsb _ ms); [reflexivity | exact IH].
Qed.

Lemma attackScan_mild (g : Generator) h b position opp squares :
  Forall (fun s => 0 <= fst s <= 7 /\ 0 <= snd s <= 7) squares ->
  (forall r k ref piece,
     0 <= r <= 7 -> 0 <= k <= 7 ->
     cell b r k = Ok (Some ref) -> deref h ref = Ok piece ->
     color piece = opp ->
     mild (g h b piece (mkPosition r k))) ->
  mild (attackScan g h b position opp squares).
Proof.
  intros Hin Hmild.
  induction squares as [| [r k] rest IH]; cbn [attackScan]; [exact I |].
  apply Forall_cons in Hin as [[Hr Hk] Hrest]. cbn [fst snd] in Hr, Hk.
  specialize (IH Hrest).
  pose proof (cell_mild b r k) as Hc.
  destruct (cell b r k) as [[ref |] |] eqn:Hcell; cbn [rbind];
    [| exact IH | exact Hc].
  pose proof (deref_mild h ref) as Hd.
  destruct (deref h ref) as [piece |] eqn:Hpiece; cbn [rbind]; [| exact Hd].
  destruct (Color_eqb (color piece) opp) eqn:Hcol; [| exact IH].
  rewrite Position_new_valid by assumption. cbn [rbind].
  pose proof (Hmild r k ref piece Hr Hk Hcell Hpiece (Color_eqb_true _ _ Hcol))
    as Hg.
  destruct (g h b piece (mkPosition r k)) as [ms |]; cbn [rbind]; [| exact Hg].
  destruct (existsb _ ms); [exact I | exact IH].
Qed.

Lemma kingScan_mild h b c0 squares : mild (kingScan h b c0 squares).
Proof.
  induction squares as [| [r k] rest IH]; cbn [kingScan]; [exact I |].
  apply rbind_mild; [apply cell_mild |]. intros [ref |]; [| exact IH].
  apply rbind_mild; [apply deref_mild |]. intros piece.
  destruct (_ && _); [| exact IH].
  apply rbind_mild; [apply Position_new_mild |]. intros pos. exact I.
Qed.

Section Depth.
Variables (h : Heap) (b : Board).

(** What the king's generator takes from the generator it calls back
    into: the two queries of the board for the king's own colour. *)
Lemma canCastleThrough_ext (g1 g2 : Generator) self positions :
  (forall q, isPositionUnderAttack_ g1 h b q (color self)
             = isPositionUnderAttack_ g2 h b q (color self)) ->
  canCastleThrough g1 h b self positions = canCastleThrough g2 h b self positions.
Proof.
  intros Hatt. induction positions as [| pos rest IH]; cbn [canCastleThrough];
    [reflexivity |].
  apply rbind_cong; [reflexivity |]. intros [ref |]; [reflexivity |].
  apply rbind_cong; [apply Hatt |]. intros [|]; [reflexivity | exact IH].
Qed.

Lemma King_getPossibleMoves_ext (g1 g2 : Generator) self pos :
  isInCheck_ g1 h b (color self) = isInCheck_ g2 h b (color self) ->
  (forall q, isPositionUnderAttack_ g1 h b q (color self)
             = isPositionUnderAttack_ g2 h b q (color self)) ->
  King_getPossibleMoves g1 h b self pos = King_getPossibleMoves g2 h b self pos.
Proof.
  intros Hchk Hatt.
  pose proof (fun l => canCastleThrough_ext g1 g2 self l Hatt) as Hcct.
  unfold King_getPossibleMoves.
  apply rbind_cong; [reflexivity |]. intros adjacent.
  destruct (negb (hasMoved self)); [| reflexivity].
  apply rbind_cong; [exact Hchk |]. intros inCheck.
  destruct (negb inCheck); [| reflexivity].
  apply rbind_cong; [| reflexivity].
  unfold getCastlingMoves.
  repeat first
    [ lazymatch goal with |- ?a = ?a => reflexivity end
    | apply Hcct
    | apply rbind_cong; [| intros ?]
    | match goal with
      | |- (if ?c then _ else _) = (if ?c then _ else _) => destruct c
      end ].
Qed.

Lemma canCastleThrough_mild (g : Generator) self positions :
  (forall q, mild (isPositionUnderAttack_ g h b q (color self))) ->
  mild (canCastleThrough g h b self positions).
Proof.
  intros Hatt. induction positions as [| pos rest IH]; cbn [canCastleThrough];
    [exact I |].
  apply rbind_mild; [apply getPiece_mild |]. intros [ref |]; [exact I |].
  apply rbind_mild; [apply Hatt |]. intros [|]; [exact I | exact IH].
Qed.

Lemma King_getPossibleMoves_mild (g : Generator) self pos :
  mild (isInCheck_ g h b (color self)) ->
  (forall q, mild (isPositionUnderAttack_ g h b q (color self))) ->
  mild (King_getPossibleMoves g h b self pos).
Proof.
  intros Hchk Hatt.
  pose proof (fun l => canCastleThrough_mild g self l Hatt) as Hcct.
  unfold King_getPossibleMoves.
  apply rbind_mild; [apply leap_mild |]. intros adjacent.
  destruct (negb (hasMoved self)); [| exact I].
  apply rbind_mild; [exact Hchk |]. intros inCheck.
  destruct (negb inCheck); [| exact I].
  apply rbind_mild; [| intros ?; exact I].
  unfold getCastlingMoves, unmovedRook.
  repeat first
    [ exact I
    | apply Hcct
    | apply getPiece_mild | apply deref_mild | apply Position_new_mild
    | apply rbind_mild; [| intros ?]
    | match goal with
      | |- mild (if ?c then _ else _) => destruct c
      | |- mild (match ?x with _ => _ end) => destruct x
      end ].
Qed.

Variable settled : Color.
Hypothesis side_settled : sideSettled h b settled.

(** Attacks by the settled side: the same at every depth, never an
    overflow. *)
Lemma settled_attack (n : nat) position :
  attackScan (getPossibleMoves n) h b position settled allSquares
  = attackScan (getPossibleMoves 0) h b position settled allSquares
  /\ mild (attackScan (getPossibleMoves n) h b position settled allSquares).
Proof.
  split.
  - apply attackScan_ext; [exact allSquares_bounded |].
    intros r k ref piece Hr Hk Hcell Hpiece Hcol.
    apply getPossibleMoves_leaf. exact (side_settled r k ref piece Hr Hk Hcell Hpiece Hcol).
  - apply attackScan_mild; [exact allSquares_bounded |].
    intros r k ref piece Hr Hk Hcell Hpiece Hcol.
    apply getPossibleMoves_leaf_mild.
    exact (side_settled r k ref piece Hr Hk Hcell Hpiece Hcol).
Qed.

Lemma isInCheck_attack (g1 g2 : Generator) (c0 : Color) :
  (forall q, isPositionUnderAttack_ g1 h b q c0
             = isPositionUnderAttack_ g2 h b q c0) ->
  isInCheck_ g1 h b c0 = isInCheck_ g2 h b c0.
Proof.
  intros Hatt. unfold isInCheck_.
  apply rbind_cong; [reflexivity |]. intros [kp |]; [apply Hatt | reflexivity].
Qed.

Lemma isInCheck_mild_attack (g : Generator) (c0 : Color) :
  (forall q, mild (isPositionUnderAttack_ g h b q c0)) ->
  mild (isInCheck_ g h b c0).
Proof.
  intros Hatt. unfold isInCheck_.
  apply rbind_mild; [apply kingScan_mild |]. intros [kp |]; [apply Hatt | exact I].
Qed.

Lemma underAttack_scan (g : Generator) position (c0 : Color) :
  isPositionUnderAttack_ g h b position c0
  = attackScan g h b position (opposite c0) allSquares.
Proof. destruct c0; reflexivity. Qed.

(** The generator of any piece on the board, one call deep: the same at
    every greater depth, never an overflow. *)
Lemma settled_generator (n : nat) (piece : Piece) pos :
  isLeafPiece piece = true \/ color piece = opposite settled ->
  getPossibleMoves (S n) h b piece pos = getPossibleMoves 1 h b piece pos
  /\ mild (getPossibleMoves (S n) h b piece pos).
Proof.
  intros [Hleaf | Hcol].
  - split; [| now apply getPossibleMoves_leaf_mild].
    rewrite (getPossibleMoves_leaf (S n)), (getPossibleMoves_leaf 1);
      [reflexivity | exact Hleaf | exact Hleaf].
  - assert (forall m q,
              isPositionUnderAttack_ (getPossibleMoves m) h b q (color piece)
              = isPositionUnderAttack_ (getPossibleMoves 0) h b q (color piece))
      as Hatt.
    { intros m q. rewrite !underAttack_scan, Hcol.
      replace (opposite (opposite settled)) with settled
        by (now destruct settled).
      exact (proj1 (settled_attack m q)). }
    assert (forall m q,
              mild (isPositionUnderAttack_ (getPossibleMoves m) h b q
                      (color piece))) as Hmild.
    { intros m q. rewrite underAttack_scan, Hcol.
      replace (opposite (opposite settled)) with settled
        by (now destruct settled).
      exact (proj2 (settled_attack m q)). }
    rewrite !getPossibleMoves_class.
    destruct (pieceType piece);
      try (split; [lazymatch goal with |- ?a = ?a => reflexivity end |]);
      try apply Pawn_getPossibleMoves_mild; try apply slide_mild;
      try apply leap_mild.
    split.
    + apply King_getPossibleMoves_ext.
      * apply isInCheck_attack. intros q. now rewrite !Hatt.
      * intros q. now rewrite !Hatt.
    + apply King_getPossibleMoves_mild.
      * apply isInCheck_mild_attack. apply Hmild.
      * apply Hmild.
Qed.

Lemma settled_board (r k : Z) ref (piece : Piece) :
  0 <= r <= 7 -> 0 <= k <= 7 ->
  cell b r k = Ok (Some ref) -> deref h ref = Ok piece ->
  isLeafPiece piece = true \/ color piece = opposite settled.
Proof.
  intros Hr Hk Hcell Hpiece.
  destruct (Color_eqb (color piece) settled) eqn:Hcol.
  - left. apply Color_eqb_true in Hcol.
    exact (side_settled r k ref piece Hr Hk Hcell Hpiece Hcol).
  - right. apply Color_eqb_false in Hcol.
    destruct (color piece), settled; (reflexivity || congruence).
Qed.

Lemma settled_query (n : nat) position (c0 : Color) :
  isPositionUnderAttack (S n) h b position c0
  = isPositionUnderAttack 1 h b position c0
  /\ mild (isPositionUnderAttack (S n) h b position c0).
Proof.
  unfold isPositionUnderAttack. rewrite !underAttack_scan. split.
  - apply attackScan_ext; [exact allSquares_bounded |].
    intros r k ref piece Hr Hk Hcell Hpiece _.
    apply settled_generator. exact (settled_board r k ref piece Hr Hk Hcell Hpiece).
  - apply attackScan_mild; [exact allSquares_bounded |].
    intros r k ref piece Hr Hk Hcell Hpiece _.
    apply settled_generator. exact (settled_board r k ref piece Hr Hk Hcell Hpiece).
Qed.
End Depth.

Lemma sideSettledb_spec h b (c0 : Color) :
  sideSettledb h b c0 = true -> sideSettled h b c0.
Proof.
  unfold sideSettledb. rewrite forallb_forall.
  intros Hall r k ref piece Hr Hk Hcell Hpiece Hcol.
  assert (In (r, k) allSquares) as Hin by (apply In_allSquares; split; assumption).
  specialize (Hall (r, k) Hin). cbn [fst snd] in Hall.
  rewrite Hcell, Hpiece, Hcol in Hall.
  replace (Color_eqb c0 c0) with true in Hall by (now destruct c0).
  exact Hall.
Qed.

Lemma mild_neq {A} (r : Res A) : mild r -> r <> Throw RangeError.
Proof. intros Hm ->. exact Hm. Qed.

(** X8: when one side has no king that has not moved, the calls between
    the generators and the board's queries are at most two deep. With one
    nested call allowed, [isPositionUnderAttack], [isInCheck] and the
    generator of every piece on the board return what they return at every
    greater depth, and none of them ends in the stack overflow. *)
Theorem settled_side_bounds_the_calls (n : nat) h b (settled : Color) :
  sideSettled h b settled ->
  (forall position c0,
     isPositionUnderAttack (S n) h b position c0
     = isPositionUnderAttack 1 h b position c0
     /\ isPositionUnderAttack (S n) h b position c0 <> Throw RangeError)
  /\ (forall c0,
       isInCheck (S n) h b c0 = isInCheck 1 h b c0
       /\ isInCheck (S n) h b c0 <> Throw RangeError)
  /\ (forall r k ref piece pos,
       0 <= r <= 7 -> 0 <= k <= 7 ->
       cell b r k = Ok (Some ref) -> deref h ref = Ok piece ->
       getPossibleMoves (S n) h b piece pos = getPossibleMoves 1 h b piece pos
       /\ getPossibleMoves (S n) h b piece pos <> Throw RangeError).
Proof.
  intros Hside.
  assert (forall m position c0,
            isPositionUnderAttack (S m) h b position c0
            = isPositionUnderAttack 1 h b position c0
            /\ mild (isPositionUnderAttack (S m) h b position c0)) as Hquery
    by (intros m position c0; exact (settled_query h b settled Hside m position c0)).
  split; [| split].
  - intros position c0. destruct (Hquery n position c0) as [Heq Hmild].
    split; [exact Heq | now apply mild_neq].
  - intros c0. split.
    + apply isInCheck_attack. intros q. exact (proj1 (Hquery n q c0)).
    + apply mild_neq. apply isInCheck_mild_attack.
      intros q. exact (proj2 (Hquery n q c0)).
  - intros r k ref piece pos Hr Hk Hcell Hpiece.
    pose proof (settled_board h b settled Hside r k ref piece Hr Hk Hcell Hpiece)
      as Hkind.
    destruct (settled_generator h b settled Hside n piece pos Hkind)
      as [Heq Hmild].
    split; [exact Heq | now apply mild_neq].
Qed.

(** White's king on e1 has not moved, Black's has: the queries return. *)
Lemma settled_side_bounds_the_calls_witness :
  isInCheck 5 (heap castleReadyWorld) (brd castleReadyWorld) WHITE
  = isInCheck 1 (heap castleReadyWorld) (brd castleReadyWorld) WHITE
  /\ isInCheck 5 (heap castleReadyWorld) (brd castleReadyWorld) BLACK
     <> Throw RangeError.
Proof.
  destruct (settled_side_bounds_the_calls 4 (heap castleReadyWorld)
              (brd castleReadyWorld) BLACK) as (_ & Hcheck & _).
  - apply sideSettledb_spec. vm_compute. reflexivity.
  - split; [exact (proj1 (Hcheck WHITE)) | exact (proj2 (Hcheck BLACK))].
Defined.

(** ** What the legality queries leave behind *)

Lemma keepsBoard_bind {A B} (m : M A) (k : A -> M B) :
  keepsBoard m -> (forall a, keepsBoard (k a)) -> keepsBoard (mbind m k).
Proof.
  intros Hm Hk w. unfold mbind. specialize (Hm w).
  destruct (m w) as [[a | e] w1]; cbn [snd] in *; [| exact Hm].
  rewrite Hk. exact Hm.
Qed.

Lemma keepsBoard_mret {A} (a : A) : keepsBoard (mret a).
Proof. intros w. reflexivity. Qed.

Lemma keepsBoard_query {A} (f : Heap -> Board -> Res A) : keepsBoard (query f).
Proof. intros w. reflexivity. Qed.

Lemma keepsBoard_liftR {A} (r : Res A) : keepsBoard (liftR r).
Proof. intros w. reflexivity. Qed.

Lemma keepsBoard_simulation (n : nat) (m : Move) (c : Color) :
  keepsBoard (wouldBeInCheckAfterMove n m c).
Proof. intros w. apply wouldBeInCheckAfterMove_board. Qed.

Lemma keepsBoard_keepLegal (n : nat) (c : Color) candidates :
  keepsBoard (keepLegal n c candidates).
Proof.
  induction candidates as [| m rest IH]; cbn [keepLegal];
    [apply keepsBoard_mret |].
  apply keepsBoard_bind; [apply keepsBoard_simulation |]. intros inCheck.
  apply keepsBoard_bind; [exact IH |]. intros kept. apply keepsBoard_mret.
Qed.

Lemma keepsBoard_legalScan (n : nat) (c : Color) squares :
  keepsBoard (legalScan n c squares).
Proof.
  induction squares as [| [r k] rest IH]; cbn [legalScan];
    [apply keepsBoard_mret |].
  apply keepsBoard_bind; [apply keepsBoard_query |]. intros [ref |];
    [| exact IH].
  apply keepsBoard_bind; [apply keepsBoard_query |]. intros piece.
  destruct (Color_eqb (color piece) c); [| exact IH].
  apply keepsBoard_bind; [apply keepsBoard_liftR |]. intros pos.
  apply keepsBoard_bind; [apply keepsBoard_query |]. intros possibleMoves.
  apply keepsBoard_bind; [apply keepsBoard_keepLegal |]. intros kept.
  apply keepsBoard_bind; [exact IH |]. intros more. apply keepsBoard_mret.
Qed.

Lemma keepsBoard_getAllLegalMoves (n : nat) (c : Color) :
  keepsBoard (getAllLegalMoves n c).
Proof. apply keepsBoard_legalScan. Qed.

Lemma keepsBoard_isCheckmate (n : nat) (c : Color) : keepsBoard (isCheckmate n c).
Proof.
  unfold isCheckmate.
  apply keepsBoard_bind; [apply keepsBoard_query |]. intros [|];
    [| apply keepsBoard_mret].
  apply keepsBoard_bind; [apply keepsBoard_getAllLegalMoves |]. intros moves.
  apply keepsBoard_mret.
Qed.

Lemma keepsBoard_isStalemate (n : nat) (c : Color) : keepsBoard (isStalemate n c).
Proof.
  unfold isStalemate.
  apply keepsBoard_bind; [apply keepsBoard_query |]. intros inCheck.
  destruct (negb inCheck); [| apply keepsBoard_mret].
  apply keepsBoard_bind; [apply keepsBoard_getAllLegalMoves |]. intros moves.
  apply keepsBoard_mret.
Qed.

Lemma keeps_keepLegal (n : nat) (c : Color) candidates :
  keepsPieces (keepLegal n c candidates).
Proof.
  induction candidates as [| m rest IH]; cbn [keepLegal]; [apply keeps_mret |].
  apply keeps_bind; [apply keeps_wouldBeInCheckAfterMove |]. intros inCheck.
  apply keeps_bind; [exact IH |]. intros kept. apply keeps_mret.
Qed.

Lemma keeps_legalScan (n : nat) (c : Color) squares :
  keepsPieces (legalScan n c squares).
Proof.
  induction squares as [| [r k] rest IH]; cbn [legalScan]; [apply keeps_mret |].
  apply keeps_bind; [apply keeps_query |]. intros [ref |]; [| exact IH].
  apply keeps_bind; [apply keeps_query |]. intros piece.
  destruct (Color_eqb (color piece) c); [| exact IH].
  apply keeps_bind; [apply keeps_liftR |]. intros pos.
  apply keeps_bind; [apply keeps_query |]. intros possibleMoves.
  apply keeps_bind; [apply keeps_keepLegal |]. intros kept.
  apply keeps_bind; [exact IH |]. intros more. apply keeps_mret.
Qed.

(** X9: [getAllLegalMoves], [isCheckmate] and [isStalemate] leave the
    board as it is, whatever they return and even when they throw: grid,
    history, captured pieces, en-passant target and clocks are those from
    before the call, and every piece is still a piece of its colour and
    kind. (The [hasMoved] flags are not covered: the simulation sets them.) *)
Theorem legality_queries_keep_the_board (n : nat) (c : Color) (w : World) :
  brd (snd (getAllLegalMoves n c w)) = brd w
  /\ samePieces (heap w) (heap (snd (getAllLegalMoves n c w)))
  /\ brd (snd (isCheckmate n c w)) = brd w
  /\ brd (snd (isStalemate n c w)) = brd w.
Proof.
  split; [apply keepsBoard_getAllLegalMoves |].
  split; [apply keeps_legalScan |].
  split; [apply keepsBoard_isCheckmate | apply keepsBoard_isStalemate].
Qed.

Lemma keepLegal_kept (n : nat) (c : Color) candidates w kept w' :
  keepLegal n c candidates w = (Ok kept, w') ->
  forall m, In m kept -> In m candidates.
Proof.
  revert w kept w'.
  induction candidates as [| x rest IH]; intros w kept w'; cbn [keepLegal].
  - intros [= <- _]. contradiction.
  - unfold mbind at 1.
    destruct (wouldBeInCheckAfterMove n x c w) as [[inCheck | e] w1];
      [| discriminate].
    unfold mbind at 1.
    destruct (keepLegal n c rest w1) as [[kept1 | e] w2] eqn:Hrest;
      [| discriminate].
    intros [= <- _] m Hm. specialize (IH w1 kept1 w2 Hrest).
    destruct inCheck; [right; now apply IH |].
    destruct Hm as [<- | Hm]; [now left | right; now apply IH].
Qed.

(** A generated move starts on the square it was generated for and ends on
    the board. *)
Lemma generated_move_squares (n : nat) h b piece (r k : Z) ref ms m :
  cell b r k = Ok (Some ref) ->
  getPossibleMoves n h b piece (mkPosition r k) = Ok ms ->
  In m ms ->
  fromPos m = mkPosition r k /\ validPos (toPos m).
Proof.
  intros Hcell Hgen Hin.
  destruct (PieceType_eqb (pieceType piece) PAWN) eqn:Hpt.
  - assert (pieceType piece = PAWN) as Hpawn by (now destruct (pieceType piece)).
    rewrite getPossibleMoves_pawn in Hgen by exact Hpawn.
    destruct (pawn_move_cases _ _ _ _ _ _ _ Hgen Hin) as (Hf & Hv & _).
    split; assumption.
  - assert (pieceType piece <> PAWN) as Hother
      by (intros E; now rewrite E in Hpt).
    pose proof (getPossibleMoves_plain n h b piece (mkPosition r k) ref ms
                  Hother Hcell Hgen) as Hplain.
    pose proof (getPossibleMoves_valid n h b piece r k ref ms Hother Hcell Hgen)
      as Hvalid.
    rewrite List.Forall_forall in Hplain, Hvalid.
    split; [| now apply Hvalid].
    rewrite (Hplain m Hin). reflexivity.
Qed.

Lemma movesPieceOf_later h h' b c m :
  samePieces h h' -> movesPieceOf h b c m -> movesPieceOf h' b c m.
Proof.
  intros Hsame (r & k & ref & piece & Hr & Hk & Hf & Hv & Hcell & Hpiece & Hcol).
  destruct (Hsame ref piece Hpiece) as [moved Hpiece'].
  exists r, k, ref, (mkPiece (color piece) (pieceType piece) moved).
  repeat (split; [assumption |]). exact Hcol.
Qed.

Lemma legalScan_sound (n : nat) (c : Color) squares w ms w' :
  Forall (fun s => 0 <= fst s <= 7 /\ 0 <= snd s <= 7) squares ->
  legalScan n c squares w = (Ok ms, w') ->
  Forall (movesPieceOf (heap w') (brd w) c) ms.
Proof.
  revert w ms w'.
  induction squares as [| [r k] rest IH]; intros w ms w' Hin; cbn [legalScan].
  - intros [= <- _]. constructor.
  - apply Forall_cons in Hin as [[Hr Hk] Hrest]. cbn [fst snd] in Hr, Hk.
    unfold mbind at 1, query at 1.
    destruct (cell (brd w) r k) as [[ref |] |] eqn:Hcell;
      [| now apply IH | discriminate].
    unfold mbind at 1, query at 1.
    destruct (deref (heap w) ref) as [piece |] eqn:Hpiece; [| discriminate].
    destruct (Color_eqb (color piece) c) eqn:Hcol; [| now apply IH].
    unfold mbind at 1, liftR at 1.
    rewrite Position_new_valid by assumption.
    unfold mbind at 1, query at 1.
    destruct (getPossibleMoves n (heap w) (brd w) piece (mkPosition r k))
      as [possibleMoves |] eqn:Hgen; [| discriminate].
    unfold mbind at 1.
    destruct (keepLegal n c possibleMoves w) as [[kept | e] w1] eqn:Hkept;
      [| discriminate].
    unfold mbind at 1.
    destruct (legalScan n c rest w1) as [[more | e] w2] eqn:Hmore;
      [| discriminate].
    intros [= <- <-].
    pose proof (keepsBoard_keepLegal n c possibleMoves w) as Hb1.
    pose proof (keeps_keepLegal n c possibleMoves w) as Hh1.
    pose proof (keeps_legalScan n c rest w1) as Hh2.
    rewrite Hkept in Hb1, Hh1. rewrite Hmore in Hh2. cbn [snd] in Hb1, Hh1, Hh2.
    apply Forall_app. split.
    + apply List.Forall_forall. intros m Hm.
      apply (keepLegal_kept n c possibleMoves w kept w1 Hkept) in Hm.
      destruct (generated_move_squares n _ _ _ r k ref _ m Hcell Hgen Hm)
        as [Hf Hv].
      apply (movesPieceOf_later (heap w)).
      { eapply samePieces_trans; [exact Hh1 | exact Hh2]. }
      exists r, k, ref, piece. apply Color_eqb_true in Hcol.
      repeat (split; [assumption |]). exact Hcol.
    + specialize (IH w1 more w2 Hrest Hmore). rewrite Hb1 in IH. exact IH.
Qed.

(** X10: every move that [getAllLegalMoves(color)] returns starts on a
    square holding a piece of that colour and ends on a square of the
    board; the board is the one from before the call. *)
Theorem getAllLegalMoves_sound (n : nat) (c : Color) (w : World) ms w' :
  getAllLegalMoves n c w = (Ok ms, w') ->
  brd w' = brd w /\ Forall (movesPieceOf (heap w') (brd w') c) ms.
Proof.
  intros Hrun.
  pose proof (keepsBoard_getAllLegalMoves n c w) as Hb.
  rewrite Hrun in Hb. cbn [snd] in Hb.
  split; [exact Hb |]. rewrite Hb.
  exact (legalScan_sound n c allSquares w ms w' allSquares_bounded Hrun).
Qed.

(** White's legal moves on the board with the pinned pawn: the pawn's
    moves are refused, the king's are not. *)
Lemma getAllLegalMoves_sound_witness :
  exists ms w',
    getAllLegalMoves 0 WHITE pinnedPawnWorld = (Ok ms, w')
    /\ brd w' = brd pinnedPawnWorld
    /\ Forall (movesPieceOf (heap w') (brd w') WHITE) ms
    /\ length ms = 4%nat.
Proof.
  destruct (getAllLegalMoves 0 WHITE pinnedPawnWorld) as [[ms | e] w'] eqn:Hrun;
    [| vm_compute in Hrun; discriminate].
  exists ms, w'. split; [reflexivity |].
  destruct (getAllLegalMoves_sound 0 WHITE pinnedPawnWorld ms w' Hrun)
    as [Hb Hall].
  split; [exact Hb |]. split; [exact Hall |].
  vm_compute in Hrun. injection Hrun as <- _. reflexivity.
Defined.

(** ** Making a move *)

(** The ways [Board.makeMove] comes to return [false]. *)
Lemma Board_makeMove_false (n : nat) (m : Move) (w w' : World) :
  Board_makeMove n m w = (Ok false, w') ->
  brd w' = brd w /\ samePieces (heap w) (heap w').
Proof.
  unfold Board_makeMove.
  unfold mbind at 1, Board_getPiece, query at 1.
  destruct (getPiece (brd w) (fromPos m)) as [[ref |] |]; [| | discriminate].
  2: { intros [= <-]. split; [reflexivity | apply samePieces_refl]. }
  unfold mbind at 1, query at 1.
  destruct (deref (heap w) ref) as [p |]; [| discriminate].
  unfold mbind at 1, query at 1.
  destruct (isMoveValid n (heap w) (brd w) p m) as [[|] |]; cbn [negb];
    [| intros [= <-]; split; [reflexivity | apply samePieces_refl]
     | discriminate].
  unfold mbind at 1.
  pose proof (wouldBeInCheckAfterMove_board n m (color p) w) as Hb.
  pose proof (keeps_wouldBeInCheckAfterMove n m (color p) w) as Hh.
  destruct (wouldBeInCheckAfterMove n m (color p) w) as [[[|] | e] w1];
    cbn [snd] in Hb, Hh; [| | discriminate].
  - intros [= <-]. split; assumption.
  - unfold mbind. destruct (executeMove m w1) as [[u | e] w2]; discriminate.
Qed.

(** The way it comes to return [true]. *)
Lemma Board_makeMove_true (n : nat) (m : Move) (w w' : World) :
  Board_makeMove n m w = (Ok true, w') ->
  exists ref p w1,
    getPiece (brd w) (fromPos m) = Ok (Some ref)
    /\ deref (heap w) ref = Ok p
    /\ isMoveValid n (heap w) (brd w) p m = Ok true
    /\ wouldBeInCheckAfterMove n m (color p) w = (Ok false, w1)
    /\ executeMove m w1 = (Ok tt, w').
Proof.
  unfold Board_makeMove.
  unfold mbind at 1, Board_getPiece, query at 1.
  destruct (getPiece (brd w) (fromPos m)) as [[ref |] |] eqn:Hget;
    [| discriminate | discriminate].
  unfold mbind at 1, query at 1.
  destruct (deref (heap w) ref) as [p |] eqn:Hp; [| discriminate].
  unfold mbind at 1, query at 1.
  destruct (isMoveValid n (heap w) (brd w) p m) as [[|] |] eqn:Hvalid;
    cbn [negb]; [| discriminate | discriminate].
  unfold mbind at 1.
  destruct (wouldBeInCheckAfterMove n m (color p) w) as [[[|] | e] w1] eqn:Hsim;
    [discriminate | | discriminate].
  unfold mbind. destruct (executeMove m w1) as [[[] | e] w2] eqn:Hrun;
    [| discriminate].
  intros [= <-]. exists ref, p, w1.
  repeat (split; [reflexivity || assumption |]). assumption.
Qed.

(** X11: a [Board.makeMove] that returns [false] has left the board as it
    was: grid, history, captured pieces, en-passant target and clocks are
    unchanged, and every piece is still a piece of its colour and kind. *)
Theorem refused_move_keeps_the_board (n : nat) (m : Move) (w w' : World) :
  Board_makeMove n m w = (Ok false, w') ->
  brd w' = brd w /\ samePieces (heap w) (heap w').
Proof. apply Board_makeMove_false. Qed.

(** The pinned pawn's d2-d3. *)
Lemma refused_move_keeps_the_board_witness :
  brd (snd (Board_makeMove 0 d2d3 pinnedPawnWorld)) = brd pinnedPawnWorld
  /\ samePieces (heap pinnedPawnWorld)
       (heap (snd (Board_makeMove 0 d2d3 pinnedPawnWorld))).
Proof.
  apply (refused_move_keeps_the_board 0 d2d3 pinnedPawnWorld).
  vm_compute. reflexivity.
Defined.

(** ** The game controller *)

Lemma withBoard_same (g : ChessGame) : withBoard g (game_board g) = g.
Proof. now destruct g. Qed.

Lemma sameTurn_refl g : sameTurn g g.
Proof. now repeat split. Qed.

Lemma sameTurn_trans g1 g2 g3 :
  sameTurn g1 g2 -> sameTurn g2 g3 -> sameTurn g1 g3.
Proof.
  intros (Hb & Hp & Hc) (Hb' & Hp' & Hc'). repeat split; congruence.
Qed.

Lemma keepsTurn_bind {A B} (m : G A) (k : A -> G B) :
  keepsTurn m -> (forall a, keepsTurn (k a)) -> keepsTurn (gbind m k).
Proof.
  intros Hm Hk gw. unfold gbind. specialize (Hm gw).
  destruct (m gw) as [[a | e] gw1]; cbn [snd] in *; [| exact Hm].
  eapply sameTurn_trans; [exact Hm | apply Hk].
Qed.

Lemma keepsTurn_gread {A} (f : ChessGame -> A) : keepsTurn (gread f).
Proof. intros gw. apply sameTurn_refl. Qed.

Lemma keepsTurn_setGameState (s : GameState) : keepsTurn (setGameState s).
Proof. intros gw. now repeat split. Qed.

Lemma keepsTurn_onGameBoard {A} (m : M A) :
  keepsBoard m -> keepsTurn (onGameBoard m).
Proof.
  intros Hm gw. unfold onGameBoard.
  specialize (Hm (mkWorld (gheap gw) (game_board (game gw)))).
  destruct (m _) as [r w']. cbn [snd brd] in *. cbn [game].
  rewrite Hm, withBoard_same. apply sameTurn_refl.
Qed.

(** [updateGameState] writes the game state and nothing else of the game. *)
Lemma keepsTurn_updateGameState (n : nat) : keepsTurn (updateGameState n).
Proof.
  unfold updateGameState.
  apply keepsTurn_bind; [apply keepsTurn_gread |]. intros player.
  apply keepsTurn_bind;
    [apply keepsTurn_onGameBoard, keepsBoard_isCheckmate |]. intros [|];
    [apply keepsTurn_setGameState |].
  apply keepsTurn_bind;
    [apply keepsTurn_onGameBoard, keepsBoard_isStalemate |]. intros [|];
    [apply keepsTurn_setGameState |].
  apply keepsTurn_bind;
    [apply keepsTurn_onGameBoard, keepsBoard_query |]. intros [|];
    [apply keepsTurn_setGameState |].
  apply keepsTurn_bind; [apply keepsTurn_gread |]. intros [|];
    apply keepsTurn_setGameState.
Qed.

(** What [ChessGame.makeMove] does once the guards have let the move
    through. *)
Lemma ChessGame_makeMove_unfold (n : nat) (m : Move) (gw : GameWorld) :
  ChessGame_makeMove n m gw =
  if negb (GameState_eqb (_gameState (game gw)) ONGOING)
     && negb (GameState_eqb (_gameState (game gw)) CHECK)
  then (Ok false, gw)
  else
    match getPiece (game_board (game gw)) (fromPos m) with
    | Throw e => (Throw e, gw)
    | Ok None => (Ok false, gw)
    | Ok (Some ref) =>
        match deref (gheap gw) ref with
        | Throw e => (Throw e, gw)
        | Ok p =>
            if negb (Color_eqb (color p) (_currentPlayer (game gw)))
            then (Ok false, gw)
            else
              match Board_makeMove n m
                      (mkWorld (gheap gw) (game_board (game gw))) with
              | (Throw e, w1) =>
                  (Throw e, mkGameWorld (heap w1) (withBoard (game gw) (brd w1)))
              | (Ok false, w1) =>
                  (Ok false, mkGameWorld (heap w1) (withBoard (game gw) (brd w1)))
              | (Ok true, w1) =>
                  (game* _ := updateGameState n in gret true)
                    (mkGameWorld (heap w1)
                       (mkChessGame (brd w1)
                          (opposite (_currentPlayer (game gw)))
                          (_gameState (game gw))
                          (_moveCount (game gw) + 1)))
              end
        end
    end.
Proof.
  unfold ChessGame_makeMove.
  unfold gbind at 1, gread at 1.
  destruct (_ && _); [reflexivity |].
  unfold gbind at 1, Board_getPiece. rewrite onGameBoard_query.
  destruct (getPiece (game_board (game gw)) (fromPos m)) as [[ref |] |];
    [| | reflexivity].
  2: { unfold gbind at 1, gread at 1. unfold gbind at 1.
       rewrite onGameBoard_query. reflexivity. }
  unfold gbind at 1, gread at 1.
  unfold gbind at 1. rewrite onGameBoard_query.
  destruct (deref (gheap gw) ref) as [p |]; cbn [rbind]; [| reflexivity].
  destruct (negb _); [reflexivity |].
  unfold gbind at 1, onGameBoard at 1.
  destruct (Board_makeMove n m _) as [[[|] | e] w1]; reflexivity.
Qed.

(** X12: a [ChessGame.makeMove] that returns [false] has left the game as
    it was: board (grid, history, captured pieces, en-passant target,
    clocks), player to move, game state and move count are unchanged, and
    every piece is still a piece of its colour and kind. *)
Theorem refused_move_keeps_the_game (n : nat) (m : Move) (gw gw' : GameWorld) :
  ChessGame_makeMove n m gw = (Ok false, gw') ->
  game gw' = game gw /\ samePieces (gheap gw) (gheap gw').
Proof.
  rewrite ChessGame_makeMove_unfold.
  assert (game gw = game gw /\ samePieces (gheap gw) (gheap gw)) as Hsame
    by (split; [reflexivity | apply samePieces_refl]).
  destruct (_ && _); [now intros [= <-] |].
  destruct (getPiece _ _) as [[ref |] |]; [| now intros [= <-] | discriminate].
  destruct (deref _ ref) as [p |]; [| discriminate].
  destruct (negb _); [now intros [= <-] |].
  destruct (Board_makeMove n m _) as [[[|] | e] w1] eqn:Hmove; [| | discriminate].
  - unfold gbind.
    destruct (updateGameState n _) as [[[] | e] gw2]; discriminate.
  - intros [= <-]. cbn [game gheap].
    apply Board_makeMove_false in Hmove as [Hb Hh]. cbn [brd heap] in Hb, Hh.
    rewrite Hb, withBoard_same. split; [reflexivity | exact Hh].
Qed.

(** Black's d5-d4 when it is White's turn. *)
Lemma refused_move_keeps_the_game_witness :
  game (snd (ChessGame_makeMove 0 d5d4 (gameOn enPassantWorld)))
  = game (gameOn enPassantWorld).
Proof.
  apply (refused_move_keeps_the_game 0 d5d4 (gameOn enPassantWorld)).
  vm_compute. reflexivity.
Defined.

(** X13: a [ChessGame.makeMove] that returns [true] was made with the game
    ongoing or in check, on a piece of the side to move that generates the
    move; afterwards the other side is to move, the move count is one
    higher, the move is the last of the board's history and the square it
    left is empty. *)
Theorem accepted_move_passes_the_turn (n : nat) (m : Move)
        (gw gw' : GameWorld) :
  wfGrid (_board (game_board (game gw))) ->
  ChessGame_makeMove n m gw = (Ok true, gw') ->
  (_gameState (game gw) = ONGOING \/ _gameState (game gw) = CHECK)
  /\ (exists ref p,
        getPiece (game_board (game gw)) (fromPos m) = Ok (Some ref)
        /\ deref (gheap gw) ref = Ok p
        /\ color p = _currentPlayer (game gw)
        /\ isMoveValid n (gheap gw) (game_board (game gw)) p m = Ok true)
  /\ _currentPlayer (game gw') = opposite (_currentPlayer (game gw))
  /\ _moveCount (game gw') = _moveCount (game gw) + 1
  /\ _moveHistory (game_board (game gw'))
     = _moveHistory (game_board (game gw)) ++ [m]
  /\ getPiece (game_board (game gw')) (fromPos m) = Ok None.
Proof.
  intros Hwf. rewrite ChessGame_makeMove_unfold.
  destruct (_ && _) eqn:Hstate; [discriminate |].
  destruct (getPiece _ _) as [[ref |] |] eqn:Hget; [| discriminate | discriminate].
  destruct (deref _ ref) as [p |] eqn:Hp; [| discriminate].
  destruct (Color_eqb (color p) (_currentPlayer (game gw))) eqn:Hcol;
    cbn [negb]; [| discriminate].
  apply Color_eqb_true in Hcol.
  destruct (Board_makeMove n m _) as [[[|] | e] w1] eqn:Hmove;
    [| discriminate | discriminate].
  apply Board_makeMove_true in Hmove
    as (ref' & p' & w0 & Hget' & Hp' & Hvalid & Hsim & Hrun).
  cbn [heap brd] in Hget', Hp', Hvalid.
  rewrite Hget in Hget'. injection Hget' as <-.
  rewrite Hp in Hp'. injection Hp' as <-.
  destruct (Board_makeMove_accepts n (gheap gw) (game_board (game gw)) p ref m w0
              Hwf Hget Hp Hvalid Hsim)
    as (w1' & _ & Hrun' & Hhist & Hleft).
  pose proof (wouldBeInCheckAfterMove_board n m (color p)
                (mkWorld (gheap gw) (game_board (game gw)))) as Hb0.
  rewrite Hsim in Hb0. cbn [snd brd] in Hb0.
  destruct w0 as [h0 b0]. cbn [heap brd] in Hrun', Hb0. subst b0.
  rewrite Hrun in Hrun'. injection Hrun' as <-.
  unfold gbind.
  pose proof (keepsTurn_updateGameState n
                (mkGameWorld (heap w1)
                   (mkChessGame (brd w1) (opposite (_currentPlayer (game gw)))
                      (_gameState (game gw)) (_moveCount (game gw) + 1))))
    as (Hboard & Hplayer & Hcount).
  destruct (updateGameState n _) as [[[] | e] gw2]; [| discriminate].
  intros [= <-]. cbn [snd game game_board _currentPlayer _moveCount] in *.
  split.
  { destruct (_gameState (game gw)); cbn in Hstate;
      (discriminate || (now left) || (now right)). }
  split; [exists ref, p; repeat (split; [reflexivity || assumption |]); assumption |].
  split; [exact Hplayer |]. split; [exact Hcount |].
  rewrite Hboard. split; [exact Hhist | exact Hleft].
Qed.

(** White's a2-a3 with both kings moved. *)
Lemma accepted_move_passes_the_turn_witness :
  exists gw',
    ChessGame_makeMove 0 a2a3 (gameOn quietWorld) = (Ok true, gw')
    /\ _currentPlayer (game gw') = BLACK
    /\ _moveCount (game gw') = 1
    /\ _moveHistory (game_board (game gw')) = [a2a3].
Proof.
  destruct (ChessGame_makeMove 0 a2a3 (gameOn quietWorld)) as [[[|] | e] gw']
    eqn:Hrun; try (vm_compute in Hrun; discriminate).
  destruct (accepted_move_passes_the_turn 0 a2a3 (gameOn quietWorld) gw')
    as (_ & _ & Hplayer & Hcount & Hhist & _).
  - unfold wfGrid. vm_compute. split; [reflexivity | repeat constructor].
  - exact Hrun.
  - exists gw'. split; [reflexivity |].
    split; [exact Hplayer |]. split; [exact Hcount | exact Hhist].
Defined.

(** ** Notation and display *)

Lemma signOf_single (r : Z) :
  match [r] with
  | 45 :: t => (-1, t)
  | 43 :: t => (1, t)
  | _ => (1, [r])
  end
  = if r =? 45 then (-1, []) else if r =? 43 then (1, []) else (1, [r]).
Proof.
  destruct (Z.eqb_spec r 45) as [-> | H45]; [reflexivity |].
  destruct (Z.eqb_spec r 43) as [-> | H43]; [reflexivity |].
  destruct r as [| p | p]; try reflexivity.
  do 6 (destruct p as [p | p |]; try reflexivity; try congruence).
Qed.

Lemma isDigit_not_space (r : Z) : isDigit r = true -> isWhiteSpace r = false.
Proof.
  unfold isDigit. intros Hd. apply andb_true_iff in Hd as [H1 H2].
  apply Z.leb_le in H1, H2.
  assert (r = 48 \/ r = 49 \/ r = 50 \/ r = 51 \/ r = 52 \/ r = 53
          \/ r = 54 \/ r = 55 \/ r = 56 \/ r = 57) as Hr by lia.
  repeat (destruct Hr as [-> | Hr]; [reflexivity |]). subst. reflexivity.
Qed.

(** [parseInt] of a one-character string: a digit or [NaN]. *)
Lemma parseInt10_single (r : Z) :
  parseInt10 [r] = if isDigit r then Num (r - 48) else NaN.
Proof.
  unfold parseInt10. cbn [skipWhiteSpace].
  destruct (isWhiteSpace r) eqn:Hws.
  - destruct (isDigit r) eqn:Hd; [| reflexivity].
    apply isDigit_not_space in Hd. congruence.
  - rewrite signOf_single.
    destruct (Z.eqb_spec r 45) as [-> | H45]; [reflexivity |].
    destruct (Z.eqb_spec r 43) as [-> | H43]; [reflexivity |].
    cbn [digitsPrefix]. destruct (isDigit r); [| reflexivity].
    f_equal. lia.
Qed.

Lemma toAlgebraic_square (r c : Z) :
  0 <= r <= 7 -> 0 <= c <= 7 ->
  toAlgebraic (mkPosition r c) = [97 + c; 48 + (8 - r)].
Proof.
  intros Hr Hc. unfold toAlgebraic. cbn [row col jadd jsub fromCharCode].
  rewrite numberToString_digit by lia.
  rewrite Z.mod_small by lia. reflexivity.
Qed.

(** X14: when [fromAlgebraic] returns a square with an integer row, the
    square is on the board and [toAlgebraic] gives the notation back: the
    notation was a letter a-h and a digit 1-8, and no two notations denote
    one square. *)
Theorem fromAlgebraic_decodes (s : JsString) (p : Position) :
  fromAlgebraic s = Ok p ->
  row p <> NaN ->
  validPos p /\ toAlgebraic p = s.
Proof.
  intros Hrun Hrow.
  destruct s as [| f [| r [| x s]]];
    try (unfold fromAlgebraic in Hrun; cbn [length Nat.eqb negb] in Hrun;
         discriminate).
  rewrite fromAlgebraic_two, parseInt10_single in Hrun.
  destruct (isDigit r) eqn:Hd.
  - cbn [jsub] in Hrun. apply Position_new_Ok in Hrun as (-> & Hr & Hc).
    split; [now apply validPos_Num |].
    rewrite toAlgebraic_square by lia. f_equal; [lia | f_equal; lia].
  - cbn [jsub] in Hrun. unfold Position_new in Hrun.
    destruct (_ || _); [discriminate |]. injection Hrun as <-.
    now contradiction Hrow.
Qed.

Lemma fromAlgebraic_decodes_witness :
  validPos (sq 4 4) /\ toAlgebraic (sq 4 4) = str "e4".
Proof.
  apply (fromAlgebraic_decodes (str "e4") (sq 4 4)).
  - reflexivity.
  - discriminate.
Defined.

(** X15: [piece.toString()] tells the colours apart and the kinds of
    piece up to one pair: a king and a knight of one colour print alike
    (both names start with K), and no other two pieces do. *)
Theorem Piece_toString_collision (p q : Piece) :
  Piece_toString p = Piece_toString q <->
  color p = color q
  /\ (pieceType p = pieceType q
      \/ (pieceType p = KING /\ pieceType q = KNIGHT)
      \/ (pieceType p = KNIGHT /\ pieceType q = KING)).
Proof.
  destruct p as [cp tp mp], q as [cq tq mq]. unfold Piece_toString.
  cbn [color pieceType]. split.
  - destruct cp, cq, tp, tq; intros Heq; vm_compute in Heq;
      try discriminate; split; try reflexivity; tauto.
  - intros [-> [-> | [[-> ->] | [-> ->]]]]; reflexivity.
Qed.

Lemma Piece_toString_collision_witness :
  Piece_toString (mkPiece WHITE KING false)
  = Piece_toString (mkPiece WHITE KNIGHT true).
Proof.
  apply (Piece_toString_collision (mkPiece WHITE KING false)
           (mkPiece WHITE KNIGHT true)).
  split; [reflexivity |]. right. left. split; reflexivity.
Defined.

Lemma promotionMap_single (x : Z) :
  promotionMap [x]
  = if x =? 81 then Some QUEEN
    else if x =? 82 then Some ROOK
    else if x =? 66 then Some BISHOP
    else if x =? 78 then Some KNIGHT
    else None.
Proof.
  destruct (Z.eqb_spec x 81) as [-> | H1]; [reflexivity |].
  destruct (Z.eqb_spec x 82) as [-> | H2]; [reflexivity |].
  destruct (Z.eqb_spec x 66) as [-> | H3]; [reflexivity |].
  destruct (Z.eqb_spec x 78) as [-> | H4]; [reflexivity |].
  destruct x as [| p | p]; try reflexivity.
  do 7 (destruct p as [p | p |]; try reflexivity; try congruence).
Qed.

Lemma promotionMap_long (a b : Z) (l : JsString) :
  promotionMap (a :: b :: l) = None.
Proof.
  destruct a as [| p | p]; try reflexivity.
  do 7 (destruct p as [p | p |]; try reflexivity).
Qed.

(** The strings that name a promotion piece once put in upper case. *)
Lemma promotion_letter (s : JsString) (pt : PieceType) :
  promotionMap (toUpperCase s) = Some pt <->
  (pt = QUEEN /\ (s = [81] \/ s = [113]))
  \/ (pt = ROOK /\ (s = [82] \/ s = [114]))
  \/ (pt = BISHOP /\ (s = [66] \/ s = [98]))
  \/ (pt = KNIGHT /\ (s = [78] \/ s = [110])).
Proof.
  split.
  - destruct s as [| c [| d s]]; cbn [toUpperCase map].
    + discriminate.
    + rewrite promotionMap_single.
      destruct ((97 <=? c) && (c <=? 122)) eqn:Hlower.
      * apply andb_true_iff in Hlower as [H1 H2]. apply Z.leb_le in H1, H2.
        destruct (Z.eqb_spec (c - 32) 81);
          [intros [= <-]; left; split; [reflexivity | right; f_equal; lia] |].
        destruct (Z.eqb_spec (c - 32) 82);
          [intros [= <-]; right; left; split;
           [reflexivity | right; f_equal; lia] |].
        destruct (Z.eqb_spec (c - 32) 66);
          [intros [= <-]; right; right; left; split;
           [reflexivity | right; f_equal; lia] |].
        destruct (Z.eqb_spec (c - 32) 78);
          [intros [= <-]; right; right; right; split;
           [reflexivity | right; f_equal; lia] |].
        discriminate.
      * destruct (Z.eqb_spec c 81);
          [intros [= <-]; left; split; [reflexivity | left; f_equal; lia] |].
        destruct (Z.eqb_spec c 82);
          [intros [= <-]; right; left; split;
           [reflexivity | left; f_equal; lia] |].
        destruct (Z.eqb_spec c 66);
          [intros [= <-]; right; right; left; split;
           [reflexivity | left; f_equal; lia] |].
        destruct (Z.eqb_spec c 78);
          [intros [= <-]; right; right; right; split;
           [reflexivity | left; f_equal; lia] |].
        discriminate.
    + now rewrite promotionMap_long.
  - intros [[-> [-> | ->]] | [[-> [-> | ->]] | [[-> [-> | ->]] | [-> [-> | ->]]]]];
      reflexivity.
Qed.

(** X16: [move.toString()] of a move between two squares of the board is
    the two notations of the squares, read back by [fromAlgebraic], followed
    for a promotion by [=] and a letter. Looked up the way
    [makeMoveFromAlgebraic] looks up its promotion argument, the letter
    gives the promotion piece back for the queen, the rook and the bishop;
    a knight is printed as K, which names no piece there. *)
Theorem Move_toString_reads_back (m : Move) :
  validPos (fromPos m) -> validPos (toPos m) ->
  let s := Move_toString m in
  fromAlgebraic (take 2 s) = Ok (fromPos m)
  /\ fromAlgebraic (take 2 (drop 2 s)) = Ok (toPos m)
  /\ match promotionPiece m with
     | None => length s = 4%nat
     | Some pt =>
         length s = 6%nat
         /\ promotionMap (toUpperCase (drop 5 s))
            = match pt with
              | QUEEN => Some QUEEN
              | ROOK => Some ROOK
              | BISHOP => Some BISHOP
              | _ => None
              end
     end.
Proof.
  intros (fr & fc & Hf & Hfr & Hfc) (tr & tc & Ht & Htr & Htc) s. subst s.
  unfold Move_toString. rewrite Hf, Ht.
  rewrite !toAlgebraic_square by assumption.
  cbn [app take drop].
  split; [| split].
  - rewrite fromAlgebraic_square by lia. unfold sq. do 2 f_equal; f_equal; lia.
  - rewrite fromAlgebraic_square by lia. unfold sq. do 2 f_equal; f_equal; lia.
  - destruct (promotionPiece m) as [[| | | | |] |]; [| | | | | | reflexivity];
      (split; [reflexivity |]); reflexivity.
Qed.

Lemma Move_toString_reads_back_witness :
  Move_toString (mkMove (sq 1 4) (sq 0 4) (Some KNIGHT) false false)
  = str "e7e8=K"
  /\ promotionMap (toUpperCase (str "K")) = None.
Proof.
  destruct (Move_toString_reads_back
              (mkMove (sq 1 4) (sq 0 4) (Some KNIGHT) false false))
    as (_ & _ & _ & Hpromo).
  - exists 1, 4. repeat split; lia.
  - exists 0, 4. repeat split; lia.
  - split; [reflexivity | exact Hpromo].
Defined.

Lemma makeMoveFromAlgebraic_unfold (n : nat) (f t : JsString)
      (promotion : option JsString) (gw : GameWorld) :
  makeMoveFromAlgebraic n f t promotion gw =
  match fromAlgebraic f with
  | Throw _ => (Ok false, gw)
  | Ok fromP =>
      match fromAlgebraic t with
      | Throw _ => (Ok false, gw)
      | Ok toP =>
          match ChessGame_makeMove n
                  (mkMove fromP toP (promotionChoice promotion) false false) gw
          with
          | (Throw _, gw') => (Ok false, gw')
          | other => other
          end
      end
  end.
Proof.
  unfold makeMoveFromAlgebraic, catchFalse, gbind.
  destruct (fromAlgebraic f) as [fromP |]; [| reflexivity].
  destruct (fromAlgebraic t) as [toP |]; reflexivity.
Qed.



(** X18: the promotion argument of [makeMoveFromAlgebraic] names a piece
    only when it is one of the letters Q, R, B, N, in either case; any
    other string, the empty one and a missing argument all mean no
    promotion, so the call is the one without the argument. *)
Theorem promotion_argument (n : nat) (f t : JsString) (s : JsString)
        (gw : GameWorld) :
  (forall pt,
     promotionChoice (Some s) = Some pt <->
     (pt = QUEEN /\ (s = [81] \/ s = [113]))
     \/ (pt = ROOK /\ (s = [82] \/ s = [114]))
     \/ (pt = BISHOP /\ (s = [66] \/ s = [98]))
     \/ (pt = KNIGHT /\ (s = [78] \/ s = [110])))
  /\ (promotionChoice (Some s) = None ->
      makeMoveFromAlgebraic n f t (Some s) gw
      = makeMoveFromAlgebraic n f t None gw).
Proof.
  split.
  - intros pt. destruct s as [| c s'].
    + cbn [promotionChoice]. split; [discriminate |].
      intros [[_ [H | H]] | [[_ [H | H]] | [[_ [H | H]] | [_ [H | H]]]]];
        discriminate.
    + apply promotion_letter.
  - intros Hnone. rewrite !makeMoveFromAlgebraic_unfold, Hnone. reflexivity.
Qed.

Lemma promotion_argument_witness :
  promotionChoice (Some (str "q")) = Some QUEEN
  /\ promotionChoice (Some (str "x")) = None
  /\ promotionChoice (Some (str "queen")) = None.
Proof.
  destruct (promotion_argument 0 (str "e7") (str "e8") (str "q")
              (gameOn promotionWorld)) as [Hletter _].
  split; [apply Hletter; left; split; [reflexivity | now right] |].
  split; reflexivity.
Defined.

(** ** Playing a move *)

Lemma keepsCounters_bind {A B} (m : M A) (k : A -> M B) :
  keepsCounters m -> (forall a, keepsCounters (k a)) -> keepsCounters (mbind m k).
Proof.
  intros Hm Hk w. unfold mbind. specialize (Hm w).
  destruct (m w) as [[a | e] w1]; cbn [snd] in *; [| exact Hm].
  destruct Hm as [H1 H2]. destruct (Hk a w1) as [H3 H4]. split; congruence.
Qed.

Lemma keepsCounters_same {A} (m : M A) :
  (forall w, _halfMoveClock (brd (snd (m w))) = _halfMoveClock (brd w)
             /\ _fullMoveNumber (brd (snd (m w))) = _fullMoveNumber (brd w)) ->
  keepsCounters m.
Proof. intros Hm. exact Hm. Qed.

Lemma keepsCounters_setPiece pos x : keepsCounters (Board_setPiece pos x).
Proof.
  intros w. unfold Board_setPiece, setPiece.
  destruct (arrayGet _ _); split; reflexivity.
Qed.

(** Breaks a relocation down to its writes. *)
Ltac counters :=
  repeat first
    [ apply keepsCounters_setPiece
    | apply keepsCounters_bind; [| intros ?]
    | match goal with
      | |- keepsCounters (match ?x with _ => _ end) => destruct x
      | |- keepsCounters (if ?c then _ else _) => destruct c
      end
    | (intros ?; split; reflexivity) ].

Lemma keepsCounters_relocate (m : Move) (piece : Ref) :
  keepsCounters (relocate m piece).
Proof. unfold relocate, executeCastling, executeEnPassant. counters. Qed.

Lemma keepsPosition_bind {A B} (m : M A) (k : A -> M B) :
  keepsPosition m -> (forall a, keepsPosition (k a)) -> keepsPosition (mbind m k).
Proof.
  intros Hm Hk w. unfold mbind. specialize (Hm w).
  destruct (m w) as [[a | e] w1]; cbn [snd] in *; [| exact Hm].
  destruct Hm as (H1 & H2 & H3 & H4). destruct (Hk a w1) as (H5 & H6 & H7 & H8).
  repeat split; congruence.
Qed.

Lemma keepsPosition_updateEnPassantTarget (m : Move) :
  keepsPosition (updateEnPassantTarget m).
Proof.
  unfold updateEnPassantTarget.
  repeat first
    [ apply keepsPosition_bind; [| intros ?]
    | match goal with
      | |- keepsPosition (if ?c then _ else _) => destruct c
      end
    | (intros ?; repeat split; reflexivity) ].
Qed.

(** What [updateMoveCounters] does when it returns. *)
Lemma updateMoveCounters_spec (m : Move) (cap : option Ref) (w w' : World) :
  updateMoveCounters m cap w = (Ok tt, w') ->
  heap w' = heap w /\ _board (brd w') = _board (brd w)
  /\ match getPiece (brd w) (toPos m) with
     | Ok (Some r) =>
         exists p, deref (heap w) r = Ok p /\ countersAfter (brd w) (brd w') p cap
     | Ok None =>
         _halfMoveClock (brd w') = _halfMoveClock (brd w)
         /\ _fullMoveNumber (brd w') = _fullMoveNumber (brd w)
     | Throw _ => False
     end.
Proof.
  unfold updateMoveCounters.
  unfold mbind at 1, Board_getPiece, query at 1.
  destruct (getPiece (brd w) (toPos m)) as [[r |] |]; [| | discriminate].
  - unfold mbind at 1, query at 1.
    destruct (deref (heap w) r) as [p |]; [| discriminate].
    unfold mbind, modify, mret.
    destruct (PieceType_eqb (pieceType p) PAWN || _) eqn:Hreset,
      (Color_eqb (color p) BLACK) eqn:Hblack; cbn [heap brd];
      intros [= <-]; cbn [heap brd _board _halfMoveClock _fullMoveNumber
                          setHalfMoveClock setFullMoveNumber];
      (split; [reflexivity |]); (split; [reflexivity |]);
      exists p; (split; [reflexivity |]); unfold countersAfter;
      rewrite Hreset, Hblack; split; reflexivity.
  - unfold mret. intros [= <-]. repeat split; reflexivity.
Qed.

Lemma bookkeeping_counters (m : Move) (cap : option Ref) (w w' : World) :
  bookkeeping m cap w = (Ok tt, w') ->
  heap w' = heap w /\ _board (brd w') = _board (brd w)
  /\ match getPiece (brd w) (toPos m) with
     | Ok (Some r) =>
         exists p, deref (heap w) r = Ok p /\ countersAfter (brd w) (brd w') p cap
     | Ok None =>
         _halfMoveClock (brd w') = _halfMoveClock (brd w)
         /\ _fullMoveNumber (brd w') = _fullMoveNumber (brd w)
     | Throw _ => False
     end.
Proof.
  unfold bookkeeping. unfold mbind at 1.
  assert (keepsPosition
            (match cap with
             | Some c => modify (pushCaptured c)
             | None => mret tt
             end)) as Hcap
    by (destruct cap; intros ?; repeat split; reflexivity).
  specialize (Hcap w).
  destruct (match cap with Some c => modify (pushCaptured c) | None => mret tt end w)
    as [[[] | e] w1]; [| discriminate].
  cbn [snd] in Hcap. destruct Hcap as (Hh1 & Hg1 & Hc1 & Hf1).
  unfold mbind at 1, modify at 1.
  unfold mbind at 1.
  pose proof (keepsPosition_updateEnPassantTarget m
                (mkWorld (heap w1) (pushHistory m (brd w1)))) as Hep.
  destruct (updateEnPassantTarget m _) as [[[] | e] w3]; [| discriminate].
  cbn [snd heap brd pushHistory _board _halfMoveClock _fullMoveNumber] in Hep.
  destruct Hep as (Hh3 & Hg3 & Hc3 & Hf3).
  intros Hrun. apply updateMoveCounters_spec in Hrun as (Hh & Hg & Hcount).
  split; [congruence |]. split; [congruence |].
  rewrite (getPiece_same_grid (brd w3) (brd w)) in Hcount by congruence.
  destruct (getPiece (brd w) (toPos m)) as [[r |] |]; [| | exact Hcount].
  - destruct Hcount as (p & Hp & Hhalf & Hfull). exists p.
    split; [congruence |]. unfold countersAfter.
    rewrite Hhalf, Hfull, Hc3, Hf3, Hc1, Hf1. split; reflexivity.
  - destruct Hcount as [Hhalf Hfull]. split; congruence.
Qed.

Lemma executeMove_counters (m : Move) (w w' : World) :
  executeMove m w = (Ok tt, w') ->
  exists cap,
    getPiece (brd w) (toPos m) = Ok cap
    /\ match getPiece (brd w') (toPos m) with
       | Ok (Some r) =>
           exists p, deref (heap w') r = Ok p
                     /\ countersAfter (brd w) (brd w') p cap
       | Ok None =>
           _halfMoveClock (brd w') = _halfMoveClock (brd w)
           /\ _fullMoveNumber (brd w') = _fullMoveNumber (brd w)
       | Throw _ => False
       end.
Proof.
  rewrite executeMove_unfold.
  unfold mbind at 1, Board_getPiece, query at 1.
  destruct (getPiece (brd w) (fromPos m)) as [piece |]; [| discriminate].
  unfold mbind at 1, query at 1.
  destruct (getPiece (brd w) (toPos m)) as [cap |]; [| discriminate].
  destruct piece as [piece |]; [| discriminate].
  unfold mbind.
  pose proof (keepsCounters_relocate m piece w) as [Hhalf Hfull].
  destruct (relocate m piece w) as [[[] | e] w1]; [| discriminate].
  cbn [snd] in Hhalf, Hfull.
  intros Hrun. apply bookkeeping_counters in Hrun as (Hh & Hg & Hcount).
  exists cap. split; [reflexivity |].
  rewrite (getPiece_same_grid (brd w') (brd w1)) by exact Hg.
  destruct (getPiece (brd w1) (toPos m)) as [[r |] |]; [| | exact Hcount].
  - destruct Hcount as (p & Hp & Hc1 & Hc2). exists p.
    split; [congruence |]. unfold countersAfter.
    rewrite Hc1, Hc2, Hhalf, Hfull. split; reflexivity.
  - destruct Hcount as [Hc1 Hc2]. split; congruence.
Qed.

(** X19: the two counters after a move that [Board.makeMove] has made.
    They are set from the piece that stands on the destination once the move
    is played: the half-move clock goes back to 0 when that piece is a pawn
    or the destination held a piece before the move, and goes up by one
    otherwise; the full-move number goes up by one when that piece is Black.
    After a promotion the piece on the destination is the new piece, so a
    promotion that takes nothing does not reset the clock. *)
Theorem move_counters (n : nat) (m : Move) (w w' : World) :
  Board_makeMove n m w = (Ok true, w') ->
  exists cap,
    getPiece (brd w) (toPos m) = Ok cap
    /\ match getPiece (brd w') (toPos m) with
       | Ok (Some r) =>
           exists p, deref (heap w') r = Ok p
                     /\ countersAfter (brd w) (brd w') p cap
       | Ok None =>
           _halfMoveClock (brd w') = _halfMoveClock (brd w)
           /\ _fullMoveNumber (brd w') = _fullMoveNumber (brd w)
       | Throw _ => False
       end.
Proof.
  intros Hmove.
  apply Board_makeMove_true in Hmove as (ref & p & w1 & _ & _ & _ & Hsim & Hrun).
  pose proof (wouldBeInCheckAfterMove_board n m (color p) w) as Hb.
  rewrite Hsim in Hb. cbn [snd] in Hb.
  apply executeMove_counters in Hrun. rewrite Hb in Hrun. exact Hrun.
Qed.

(** The pawn on e7 goes to e8 and becomes a queen, taking nothing: the
    piece now on e8 is no pawn, and the clock, at 0 before, stands at 1. *)
Lemma move_counters_witness :
  (exists cap,
     getPiece (brd promotionWorld) (toPos e7e8Q) = Ok cap
     /\ match getPiece (brd afterPromotion) (toPos e7e8Q) with
        | Ok (Some r) =>
            exists p, deref (heap afterPromotion) r = Ok p
                      /\ countersAfter (brd promotionWorld)
                           (brd afterPromotion) p cap
        | Ok None =>
            _halfMoveClock (brd afterPromotion)
            = _halfMoveClock (brd promotionWorld)
            /\ _fullMoveNumber (brd afterPromotion)
               = _fullMoveNumber (brd promotionWorld)
        | Throw _ => False
        end)
  /\ _halfMoveClock (brd promotionWorld) = 0
  /\ _halfMoveClock (brd afterPromotion) = 1.
Proof.
  split; [| split; vm_compute; reflexivity].
  apply (move_counters 0 e7e8Q promotionWorld afterPromotion).
  vm_compute. reflexivity.
Defined.

Lemma deref_lt h ref (p : Piece) : deref h ref = Ok p -> (ref < length h)%nat.
Proof.
  unfold deref. destruct (h !! ref) as [x |] eqn:Hx; [| discriminate].
  intros _. now apply lookup_lt_Some in Hx.
Qed.

(** X20: playing a generated move that is neither a promotion nor an
    en-passant capture changes two squares and one flag: the piece stands on
    the destination, the square it left is empty and every other square
    holds what it held; what stood on the destination is appended to the
    captured pieces; the piece is marked as moved and no other piece of the
    store is touched. *)
Theorem plain_move_changes_two_squares (n : nat) h b p pos ref ms m :
  wfGrid (_board b) ->
  getPiece b pos = Ok (Some ref) ->
  deref h ref = Ok p ->
  getPossibleMoves n h b p pos = Ok ms ->
  In m ms ->
  promotionPiece m = None -> isEnPassant m = false ->
  exists w' cap,
    executeMove m (mkWorld h b) = (Ok tt, w')
    /\ getPiece b (toPos m) = Ok cap
    /\ getPiece (brd w') (toPos m) = Ok (Some ref)
    /\ getPiece (brd w') pos = Ok None
    /\ (forall q, validPos q -> q <> pos -> q <> toPos m ->
          getPiece (brd w') q = getPiece b q)
    /\ _capturedPieces (brd w') = _capturedPieces b ++ optionList cap
    /\ deref (heap w') ref = Ok (mkPiece (color p) (pieceType p) true)
    /\ (forall r', r' <> ref -> deref (heap w') r' = deref h r').
Proof.
  intros Hwf Hocc Hp Hgen Hin Hpromo Hep.
  pose proof (getPiece_Some_valid _ _ _ Hwf Hocc) as Hvpos.
  destruct (getPiece_Some_Num _ _ _ Hocc) as (r & c & ->).
  destruct (generated_move_facts n h b p r c ref ms m Hocc (or_introl Hep)
              Hgen Hin) as (Hf & Hv & Hland & Hc).
  pose proof (landable_other h b p ref _ _ Hocc Hp Hland) as Hne.
  destruct (executeMove_plain h b m ref p)
    as (w' & cap & Hrun & Hcap & Hheap & Hgrid & Hcaptured & _);
    rewrite ?Hf; auto.
  rewrite Hf in Hgrid.
  destruct (relocated_squares b (mkPosition r c) (toPos m) (Some ref)
              Hwf Hvpos Hv) as (_ & Hfrom & Hto & _ & Hrest).
  exists w', cap.
  split; [exact Hrun |]. split; [exact Hcap |].
  rewrite !(getPiece_same_grid _ _ _ Hgrid).
  split; [now apply Hto |]. split; [exact Hfrom |].
  split.
  { intros q Hq Hq1 Hq2. rewrite (getPiece_same_grid _ _ _ Hgrid).
    now apply Hrest. }
  split; [exact Hcaptured |]. rewrite Hheap.
  split; [now apply deref_markAsMoved_same |].
  intros r' Hr'. apply deref_markAsMoved_other. congruence.
Qed.

(** The rook on d4 takes the pawn on g4. *)
Lemma plain_move_changes_two_squares_witness :
  exists w' cap,
    executeMove (plainMove (sq 4 3) (sq 4 6))
      (mkWorld (heap skirmishWorld) (brd skirmishWorld)) = (Ok tt, w')
    /\ getPiece (brd skirmishWorld) (sq 4 6) = Ok cap
    /\ getPiece (brd w') (sq 4 6) = Ok (Some 2%nat)
    /\ getPiece (brd w') (sq 4 3) = Ok None
    /\ _capturedPieces (brd w') = optionList cap.
Proof.
  destruct (getPossibleMoves 0 (heap skirmishWorld) (brd skirmishWorld)
              (mkPiece WHITE ROOK true) (sq 4 3)) as [ms |] eqn:Hgen;
    [| vm_compute in Hgen; discriminate].
  destruct (plain_move_changes_two_squares 0 (heap skirmishWorld)
              (brd skirmishWorld) (mkPiece WHITE ROOK true) (sq 4 3) 2%nat ms
              (plainMove (sq 4 3) (sq 4 6)))
    as (w' & cap & Hrun & Hcap & Hto & Hfrom & _ & Hcaptured & _).
  - unfold wfGrid. vm_compute. split; [reflexivity | repeat constructor].
  - vm_compute. reflexivity.
  - vm_compute. reflexivity.
  - exact Hgen.
  - vm_compute in Hgen. injection Hgen as <-. cbn. tauto.
  - reflexivity.
  - reflexivity.
  - exists w', cap. repeat (split; [assumption |]). exact Hcaptured.
Defined.

(** X21: playing a generated promotion. The piece that generated it is a
    pawn and the promotion piece one of queen, rook, bishop and knight.
    Afterwards the destination holds a piece that was not in the store
    before, of the chosen kind and the pawn's colour, marked as moved; the
    pawn's square is empty; the pawn object itself is as it was and is not
    among the captured pieces, to which only what stood on the destination
    is appended. *)
Theorem promotion_replaces_the_pawn (n : nat) h b p pos ref ms m pt :
  wfGrid (_board b) ->
  getPiece b pos = Ok (Some ref) ->
  deref h ref = Ok p ->
  getPossibleMoves n h b p pos = Ok ms ->
  In m ms ->
  promotionPiece m = Some pt ->
  pieceType p = PAWN /\ In pt promotionPieces
  /\ exists w' cap,
       executeMove m (mkWorld h b) = (Ok tt, w')
       /\ getPiece b (toPos m) = Ok cap
       /\ deref h (length h) = Throw TypeError
       /\ getPiece (brd w') (toPos m) = Ok (Some (length h))
       /\ deref (heap w') (length h) = Ok (mkPiece (color p) pt true)
       /\ getPiece (brd w') pos = Ok None
       /\ deref (heap w') ref = Ok p
       /\ _capturedPieces (brd w') = _capturedPieces b ++ optionList cap.
Proof.
  intros Hwf Hocc Hp Hgen Hin Hpromo.
  pose proof (getPiece_Some_valid _ _ _ Hwf Hocc) as Hvpos.
  destruct (getPiece_Some_Num _ _ _ Hocc) as (r & c & ->).
  assert (pieceType p = PAWN) as Hpawn.
  { destruct (PieceType_eqb (pieceType p) PAWN) eqn:Hpt;
      [now destruct (pieceType p) |].
    assert (pieceType p <> PAWN) as Hother by (intros E; now rewrite E in Hpt).
    pose proof (getPossibleMoves_plain n h b p _ ref ms Hother Hocc Hgen)
      as Hplain.
    rewrite List.Forall_forall in Hplain. specialize (Hplain m Hin).
    rewrite Hplain in Hpromo. discriminate. }
  rewrite getPossibleMoves_class, Hpawn in Hgen.
  apply Pawn_getPossibleMoves_kinds in Hgen.
  rewrite List.Forall_forall in Hgen.
  destruct (Hgen m Hin) as (Hf & Hc & Hv & Hkind).
  pose proof (Pawn_direction_cases p) as Hd.
  assert (isEnPassant m = false /\ promotionAsDue m (r + Pawn_direction p)
          /\ row (toPos m) = Num (r + Pawn_direction p)
          /\ landable h b p (toPos m)) as (He & Hdue & Hrow & Hland).
  { destruct Hkind as [(Hto & He & Hdue & Hfree)
                      | [(Hm & _)
                        | [(off & ref' & tp & _ & Hto & He & Hdue & Hget & Htp
                            & Hcol)
                          | (off & _ & Hm & _)]]].
    - split; [exact He |]. split; [exact Hdue |].
      split; [now rewrite Hto | now left].
    - rewrite Hm in Hpromo. discriminate.
    - split; [exact He |]. split; [exact Hdue |].
      split; [now rewrite Hto |]. right. now exists ref', tp.
    - rewrite Hm in Hpromo. discriminate. }
  assert (In pt promotionPieces) as Hpt.
  { unfold promotionAsDue in Hdue. destruct (lastRow _).
    - destruct Hdue as (pt' & Hin' & Heq). congruence.
    - congruence. }
  split; [exact Hpawn |]. split; [exact Hpt |].
  pose proof (landable_other h b p ref _ _ Hocc Hp Hland) as Hne.
  destruct (executeMove_promotion h b m ref p pt)
    as (w' & cap & Hrun & Hcap & Hheap & Hgrid & Hcaptured & _);
    rewrite ?Hf; auto.
  { unfold spansTwoRows. rewrite Hf, Hrow. cbn [row jsub jabs jseq].
    apply Z.eqb_neq. lia. }
  rewrite Hf in Hgrid.
  destruct (relocated_squares b (mkPosition r c) (toPos m) (Some (length h))
              Hwf Hvpos Hv) as (_ & Hfrom & Hto & _ & _).
  exists w', cap.
  split; [exact Hrun |]. split; [exact Hcap |].
  split. { unfold deref. now rewrite lookup_ge_None_2. }
  rewrite !(getPiece_same_grid _ _ _ Hgrid).
  split; [now apply Hto |].
  rewrite Hheap.
  split. { rewrite (deref_markAsMoved_same _ _ _ (deref_alloc h _)). reflexivity. }
  split; [exact Hfrom |].
  split; [| exact Hcaptured].
  pose proof (deref_lt h ref p Hp) as Hlt.
  rewrite deref_markAsMoved_other by lia.
  unfold deref in *. rewrite lookup_app_l by exact Hlt. exact Hp.
Qed.

(** The pawn on e7 takes the rook on f8 and becomes a knight. *)
Lemma promotion_replaces_the_pawn_witness :
  exists w' cap,
    executeMove (mkMove (sq 1 4) (sq 0 5) (Some KNIGHT) false false)
      (mkWorld (heap promotionWorld) (brd promotionWorld)) = (Ok tt, w')
    /\ getPiece (brd promotionWorld) (sq 0 5) = Ok cap
    /\ deref (heap w') (length (heap promotionWorld))
       = Ok (mkPiece WHITE KNIGHT true)
    /\ deref (heap w') 1%nat = Ok (mkPiece WHITE PAWN true)
    /\ _capturedPieces (brd w') = optionList cap.
Proof.
  destruct (getPossibleMoves 0 (heap promotionWorld) (brd promotionWorld)
              (mkPiece WHITE PAWN true) (sq 1 4)) as [ms |] eqn:Hgen;
    [| vm_compute in Hgen; discriminate].
  destruct (promotion_replaces_the_pawn 0 (heap promotionWorld)
              (brd promotionWorld) (mkPiece WHITE PAWN true) (sq 1 4) 1%nat ms
              (mkMove (sq 1 4) (sq 0 5) (Some KNIGHT) false false) KNIGHT)
    as (_ & _ & w' & cap & Hrun & Hcap & _ & _ & Hnew & _ & Hpawn & Hcaptured).
  - unfold wfGrid. vm_compute. split; [reflexivity | repeat constructor].
  - vm_compute. reflexivity.
  - vm_compute. reflexivity.
  - exact Hgen.
  - vm_compute in Hgen. injection Hgen as <-. cbn. tauto.
  - reflexivity.
  - exists w', cap. repeat (split; [assumption |]). exact Hcaptured.
Defined.

Lemma Move_equals_refl (m : Move) :
  validPos (fromPos m) -> validPos (toPos m) -> Move_equals m m = true.
Proof.
  intros Hf Ht. unfold Move_equals.
  rewrite !Position_equals_refl by assumption.
  destruct (promotionPiece m) as [[] |], (isCastling m), (isEnPassant m);
    reflexivity.
Qed.

(** X22: [isMoveValid] compares the move with the generated moves field by
    field: for a move between two squares of the board it answers [true]
    exactly when the move, with its promotion piece and its two flags, is
    one of the moves the piece generates from the origin square, and [false]
    exactly when it is none of them. *)
Theorem isMoveValid_iff (n : nat) h b p (m : Move) ms :
  validPos (fromPos m) -> validPos (toPos m) ->
  getPossibleMoves n h b p (fromPos m) = Ok ms ->
  (isMoveValid n h b p m = Ok true <-> In m ms)
  /\ (isMoveValid n h b p m = Ok false <-> ~ In m ms).
Proof.
  intros Hf Ht Hgen. unfold isMoveValid. rewrite Hgen. cbn [rbind].
  assert (existsb (fun m' => Move_equals m' m) ms = true <-> In m ms) as Hiff.
  { rewrite existsb_exists. split.
    - intros (m' & Hin & Heq). apply Move_equals_eq in Heq. now subst.
    - intros Hin. exists m. split; [exact Hin | now apply Move_equals_refl]. }
  destruct (existsb _ ms).
  - assert (In m ms) as Hin by now apply Hiff.
    split; split; intros H; try reflexivity; try assumption;
      try discriminate; now contradiction H.
  - assert (~ In m ms) as Hno
        by (intros Hin; apply Hiff in Hin; discriminate).
    split; split; intros H; try reflexivity; try assumption;
      try discriminate; now contradiction Hno.
Qed.

(** The en-passant capture is valid with its flag and not without it. *)
Lemma isMoveValid_iff_witness :
  isMoveValid 0 (heap enPassantWorld) (brd enPassantWorld)
    (mkPiece WHITE PAWN true) e5d6 = Ok true
  /\ isMoveValid 0 (heap enPassantWorld) (brd enPassantWorld)
       (mkPiece WHITE PAWN true) (plainMove (sq 3 4) (sq 2 3)) = Ok false.
Proof.
  split.
  - apply (isMoveValid_iff 0 (heap enPassantWorld) (brd enPassantWorld)
             (mkPiece WHITE PAWN true) e5d6
             [plainMove (sq 3 4) (sq 2 4); e5d6]).
    + exists 3, 4. repeat split; lia.
    + exists 2, 3. repeat split; lia.
    + vm_compute. reflexivity.
    + right. left. reflexivity.
  - apply (isMoveValid_iff 0 (heap enPassantWorld) (brd enPassantWorld)
             (mkPiece WHITE PAWN true) (plainMove (sq 3 4) (sq 2 3))
             [plainMove (sq 3 4) (sq 2 4); e5d6]).
    + exists 3, 4. repeat split; lia.
    + exists 2, 3. repeat split; lia.
    + vm_compute. reflexivity.
    + intros [H | [H | []]]; discriminate.
Defined.

(** A [makeMove] that throws has thrown before it touched the board. *)
Lemma Board_makeMove_throw (n : nat) (m : Move) (w w' : World) e :
  wfGrid (_board (brd w)) ->
  Board_makeMove n m w = (Throw e, w') ->
  brd w' = brd w.
Proof.
  intros Hwf. destruct w as [h b]. cbn [brd] in Hwf.
  destruct (getPiece b (fromPos m)) as [[ref |] |] eqn:Hget.
  - destruct (deref h ref) as [p |] eqn:Hp.
    + destruct (isMoveValid n h b p m) as [[|] |] eqn:Hvalid.
      * pose proof (wouldBeInCheckAfterMove_board n m (color p) (mkWorld h b))
          as Hb.
        destruct (wouldBeInCheckAfterMove n m (color p) (mkWorld h b))
          as [[[|] | e1] w1] eqn:Hsim; cbn [snd] in Hb.
        -- rewrite (Board_makeMove_in_check n m (mkWorld h b) w1 ref p);
             [discriminate | assumption ..].
        -- destruct (Board_makeMove_accepts n h b p ref m w1 Hwf Hget Hp
                       Hvalid Hsim) as (w2 & Hrun & _).
           rewrite Hrun. discriminate.
        -- unfold Board_makeMove.
           unfold mbind at 1, Board_getPiece, query at 1. cbn [heap brd].
           rewrite Hget.
           unfold mbind at 1, query at 1. cbn [heap brd]. rewrite Hp.
           unfold mbind at 1, query at 1. cbn [heap brd]. rewrite Hvalid.
           cbn [negb]. unfold mbind at 1. rewrite Hsim.
           intros [= _ <-]. exact Hb.
      * rewrite (Board_makeMove_invalid n m (mkWorld h b) ref p);
          [discriminate | assumption ..].
      * unfold Board_makeMove.
        unfold mbind at 1, Board_getPiece, query at 1. cbn [heap brd].
        rewrite Hget.
        unfold mbind at 1, query at 1. cbn [heap brd]. rewrite Hp.
        unfold mbind at 1, query at 1. cbn [heap brd]. rewrite Hvalid.
        intros [= _ <-]. reflexivity.
    + unfold Board_makeMove.
      unfold mbind at 1, Board_getPiece, query at 1. cbn [heap brd].
      rewrite Hget.
      unfold mbind at 1, query at 1. cbn [heap brd]. rewrite Hp.
      intros [= _ <-]. reflexivity.
  - unfold Board_makeMove.
    unfold mbind at 1, Board_getPiece, query at 1. cbn [heap brd].
    rewrite Hget. discriminate.
  - unfold Board_makeMove.
    unfold mbind at 1, Board_getPiece, query at 1. cbn [heap brd].
    rewrite Hget. intros [= _ <-]. reflexivity.
Qed.

(** X23: [Board.makeMove] keeps the board in shape. On a grid of eight
    rows of eight cells the call leaves such a grid, whatever it returns;
    when it does not return [true] the board is the one from before the
    call (a throw happens before the move is played, never half-way); when
    it returns [true] the en-passant target, if there is one, lies on rows 1
    to 6 and names an empty square. *)
Theorem makeMove_keeps_the_board_in_shape (n : nat) (m : Move) (w w' : World)
        (answer : Res bool) :
  wfGrid (_board (brd w)) ->
  Board_makeMove n m w = (answer, w') ->
  wfGrid (_board (brd w'))
  /\ (answer <> Ok true -> brd w' = brd w)
  /\ (answer = Ok true ->
      epTargetInside (brd w') /\ epTargetEmpty (brd w')).
Proof.
  intros Hwf Hmove.
  destruct answer as [[|] | e].
  - pose proof Hmove as Htrue.
    apply Board_makeMove_true in Htrue
      as (ref & p & w1 & Hget & Hp & Hvalid & Hsim & Hrun).
    destruct (isMoveValid_generated n _ _ _ _ Hvalid) as (ms & Hgen & Hin).
    pose proof (keeps_wouldBeInCheckAfterMove n m (color p) w) as Hkept.
    pose proof (wouldBeInCheckAfterMove_board n m (color p) w) as Hb.
    rewrite Hsim in Hkept, Hb. cbn [snd] in Hkept, Hb.
    destruct w1 as [h1 b1]. cbn [heap brd] in Hkept, Hb. subst b1.
    destruct (Hkept ref p Hp) as [moved Hp1].
    destruct (executeMove_generated n (heap w) h1 (brd w) p _ (fromPos m)
                ref ms m Hwf Hget Hp Hgen Hin Hp1 eq_refl)
      as (w2 & Hrun2 & Hwf2 & _).
    rewrite Hrun in Hrun2. injection Hrun2 as <-.
    split; [exact Hwf2 |]. split; [intros Hno; now contradiction Hno |].
    intros _. split.
    + exact (generated_target_inside n (heap w) h1 (brd w) p (fromPos m)
               ref ms m w' Hwf Hget Hp Hgen Hin Hkept Hrun).
    + intros q Hq.
      exact (proj2 (proj2 (proj2 (proj2
               (target_after_generated n (heap w) h1 (brd w) p (fromPos m)
                  ref ms m w' q Hwf Hget Hp Hgen Hin Hkept Hrun Hq))))).
  - apply Board_makeMove_false in Hmove as [Hb _].
    split; [now rewrite Hb |]. split; [now intros _ | discriminate].
  - apply Board_makeMove_throw in Hmove; [| exact Hwf].
    split; [now rewrite Hmove |]. split; [now intros _ | discriminate].
Qed.

(** From the position before Black's d7-d5 to the one after it. *)
Lemma makeMove_keeps_the_board_in_shape_witness :
  wfGrid (_board (brd enPassantWorld))
  /\ epTargetInside (brd enPassantWorld)
  /\ epTargetEmpty (brd enPassantWorld).
Proof.
  destruct (makeMove_keeps_the_board_in_shape 0 d7d5 beforeDoubleStep
              enPassantWorld (Ok true)) as (Hwf & _ & Htarget).
  - unfold wfGrid. vm_compute. split; [reflexivity | repeat constructor].
  - vm_compute. reflexivity.
  - split; [exact Hwf | exact (Htarget eq_refl)].
Defined.

(** ** Castling *)

(** No piece standing on its square is offered a castling move. *)
Lemma generated_not_castling (n : nat) h b self pos ref ms m :
  getPiece b pos = Ok (Some ref) ->
  getPossibleMoves n h b self pos = Ok ms ->
  In m ms -> isCastling m = false.
Proof.
  intros Hocc Hgen Hin.
  destruct (getPiece_Some_Num _ _ _ Hocc) as (r & c & ->).
  destruct (PieceType_eqb (pieceType self) PAWN) eqn:Hpt.
  - assert (pieceType self = PAWN) as Hpawn by (now destruct (pieceType self)).
    rewrite getPossibleMoves_pawn in Hgen by exact Hpawn.
    now destruct (pawn_move_cases _ _ _ _ _ _ _ Hgen Hin) as (_ & _ & Hc & _).
  - assert (pieceType self <> PAWN) as Hother
      by (intros E; now rewrite E in Hpt).
    pose proof (getPossibleMoves_plain n h b self (mkPosition r c) ref ms
                  Hother Hocc Hgen) as Hplain.
    rewrite List.Forall_forall in Hplain.
    rewrite (Hplain m Hin). reflexivity.
Qed.

(** Every move of a legal-move list was generated for a piece standing on
    the square it was generated for. *)
Lemma legalScan_generated (n : nat) (c : Color) squares w ms w' m :
  Forall (fun s => 0 <= fst s <= 7 /\ 0 <= snd s <= 7) squares ->
  legalScan n c squares w = (Ok ms, w') ->
  In m ms ->
  exists h b piece pos ref gen,
    getPiece b pos = Ok (Some ref)
    /\ getPossibleMoves n h b piece pos = Ok gen /\ In m gen.
Proof.
  revert w ms w'.
  induction squares as [| [r k] rest IH]; intros w ms w' Hin; cbn [legalScan].
  - intros [= <- _]. contradiction.
  - apply Forall_cons in Hin as [[Hr Hk] Hrest]. cbn [fst snd] in Hr, Hk.
    unfold mbind at 1, query at 1.
    destruct (cell (brd w) r k) as [[ref |] |] eqn:Hcell;
      [| now apply IH | discriminate].
    unfold mbind at 1, query at 1.
    destruct (deref (heap w) ref) as [piece |] eqn:Hpiece; [| discriminate].
    destruct (Color_eqb (color piece) c) eqn:Hcol; [| now apply IH].
    unfold mbind at 1, liftR at 1.
    rewrite Position_new_valid by assumption.
    unfold mbind at 1, query at 1.
    destruct (getPossibleMoves n (heap w) (brd w) piece (mkPosition r k))
      as [possibleMoves |] eqn:Hgen; [| discriminate].
    unfold mbind at 1.
    destruct (keepLegal n c possibleMoves w) as [[kept | e] w1] eqn:Hkept;
      [| discriminate].
    unfold mbind at 1.
    destruct (legalScan n c rest w1) as [[more | e] w2] eqn:Hmore;
      [| discriminate].
    intros [= <- <-] Hm. apply in_app_iff in Hm as [Hm | Hm].
    + apply (keepLegal_kept n c possibleMoves w kept w1 Hkept) in Hm.
      exists (heap w), (brd w), piece, (mkPosition r k), ref, possibleMoves.
      split; [exact Hcell |]. split; [exact Hgen | exact Hm].
    + exact (IH w1 more w2 Hrest Hmore Hm).
Qed.

Lemma Board_makeMove_not_castling (n : nat) (m : Move) (w w' : World) :
  Board_makeMove n m w = (Ok true, w') -> isCastling m = false.
Proof.
  intros Hmove.
  apply Board_makeMove_true in Hmove
    as (ref & p & w1 & Hget & Hp & Hvalid & _).
  destruct (isMoveValid_generated n _ _ _ _ Hvalid) as (ms & Hgen & Hin).
  exact (generated_not_castling n _ _ _ _ ref ms m Hget Hgen Hin).
Qed.

(** X24: castling cannot be played. In no position and at no depth does
    [Board.makeMove] or [ChessGame.makeMove] return [true] for a move whose
    castling flag is set, and no list of legal moves holds such a move. *)
Theorem castling_is_never_played (n : nat) (m : Move) :
  isCastling m = true ->
  (forall w w', Board_makeMove n m w <> (Ok true, w'))
  /\ (forall gw gw', ChessGame_makeMove n m gw <> (Ok true, gw'))
  /\ (forall c w ms w', getAllLegalMoves n c w = (Ok ms, w') -> ~ In m ms).
Proof.
  intros Hflag. split; [| split].
  - intros w w' Hmove. apply Board_makeMove_not_castling in Hmove. congruence.
  - intros gw gw'. rewrite ChessGame_makeMove_unfold.
    destruct (_ && _); [discriminate |].
    destruct (getPiece _ _) as [[ref |] |]; [| discriminate | discriminate].
    destruct (deref _ ref) as [p |]; [| discriminate].
    destruct (negb _); [discriminate |].
    destruct (Board_makeMove n m _) as [[[|] | e] w1] eqn:Hmove;
      [| discriminate | discriminate].
    apply Board_makeMove_not_castling in Hmove. congruence.
  - intros c w ms w' Hrun Hin.
    destruct (legalScan_generated n c allSquares w ms w' m
                allSquares_bounded Hrun Hin)
      as (h & b & piece & pos & ref & gen & Hocc & Hgen & Hm).
    pose proof (generated_not_castling n h b piece pos ref gen m Hocc Hgen Hm).
    congruence.
Qed.

(** With king and rook unmoved, the squares between them empty and none of
    them attacked, White's short castling is still refused. *)
Lemma castling_is_never_played_witness :
  fst (Board_makeMove 1 (mkMove (sq 7 4) (sq 7 6) None true false)
         castleReadyWorld) <> Ok true.
Proof.
  destruct (Board_makeMove 1 (mkMove (sq 7 4) (sq 7 6) None true false)
              castleReadyWorld) as [answer w'] eqn:Hmove.
  cbn [fst]. intros ->.
  exact (proj1 (castling_is_never_played 1
                  (mkMove (sq 7 4) (sq 7 6) None true false) eq_refl)
           castleReadyWorld w' Hmove).
Defined.
